(** * Torn Target Tracker website script (app.js, version 3.0.0)

    A shallow embedding of the event-coordination layer of [app.js]:
    the screenshot gallery controller, the autoplay timer, the scroll
    reveal, the swipe resolver, the navbar auto-hide, the animated
    counters and the [init] entry point.

    Conventions of the embedding:
    - DOM nodes are shared mutable objects: the document is one store
      [Dom] from node identities to element state, and the node lists the
      script keeps in [elements] hold identities, so that two lists naming
      the same node alias it.
    - Pixel offsets, touch coordinates and list indices are JavaScript
      numbers that the script only adds, subtracts and compares; they are
      integers [Z] here, [%] is the truncated remainder [Z.rem].
    - Where the script multiplies and divides (the counters, the progress
      ring, the particles) a number is the rational a finite double
      denotes, and each operation rounds its exact result to the nearest
      double, as IEEE 754 has it ([Double]).
    - A handler is a function from the world to a [Result]: it either
      completes normally or throws, and in both cases carries the world
      reached (what was mutated before a throw stays mutated).
    - Focus moves, [preventDefault], smooth scrolling, the transition
      delays of the menu items, lazy loading and the parallax are left
      out. *)

From Stdlib Require Import ZArith QArith Qround Qminmax Qpower Lia Lqa.
From stdpp Require Import base decidable option list strings functions gmap.

Local Open Scope string_scope.
Local Open Scope list_scope.
Local Open Scope Z_scope.

(** ** The document *)

Module Dom.

Definition node := nat.

(** The state of one element: [classList], the attributes written by
    [setAttribute], the [data-*] attributes read through [dataset],
    [textContent], [style.transform] and [style.strokeDashoffset] (a
    number, [None] while the script has not set it). *)
Record Element := mkElement {
  classList : list string;
  attributes : gmap string string;
  dataset : gmap string string;
  textContent : string;
  transform : string;
  strokeDashoffset : option Q
}.

Definition contains (c : string) (e : Element) : bool :=
  bool_decide (c ∈ classList e).

Definition set_classList (cl : list string) (e : Element) : Element :=
  {| classList := cl; attributes := attributes e; dataset := dataset e;
     textContent := textContent e; transform := transform e;
     strokeDashoffset := strokeDashoffset e |}.

(** [classList.add(c)]: appended unless already present. *)
Definition add (c : string) (e : Element) : Element :=
  if contains c e then e else set_classList (classList e ++ [c]) e.

(** [classList.remove(c)]. *)
Definition remove (c : string) (e : Element) : Element :=
  set_classList (filter (λ x, x ≠ c) (classList e)) e.

(** [classList.toggle(c, force)] with the second argument given. *)
Definition toggle (c : string) (force : bool) (e : Element) : Element :=
  if force then add c e else remove c e.

Definition setAttribute (name value : string) (e : Element) : Element :=
  {| classList := classList e; attributes := <[name := value]> (attributes e);
     dataset := dataset e; textContent := textContent e;
     transform := transform e; strokeDashoffset := strokeDashoffset e |}.

Definition getAttribute (name : string) (e : Element) : option string :=
  attributes e !! name.

Definition set_textContent (s : string) (e : Element) : Element :=
  {| classList := classList e; attributes := attributes e; dataset := dataset e;
     textContent := s; transform := transform e;
     strokeDashoffset := strokeDashoffset e |}.

Definition set_transform (s : string) (e : Element) : Element :=
  {| classList := classList e; attributes := attributes e; dataset := dataset e;
     textContent := textContent e; transform := s;
     strokeDashoffset := strokeDashoffset e |}.

Definition set_strokeDashoffset (offset : Q) (e : Element) : Element :=
  {| classList := classList e; attributes := attributes e; dataset := dataset e;
     textContent := textContent e; transform := transform e;
     strokeDashoffset := Some offset |}.

(** The document: every node identity has an element state. *)
Definition t := node → Element.

(** [nodes.forEach((el, i) => body)] where the body mutates [el] only:
    the nodes are visited in order, each visit updates the store. The
    body gets the index, the identity of the node and its state. *)
Fixpoint forEach_from (f : nat → node → Element → Element) (ns : list node)
    (k : nat) (d : t) : t :=
  match ns with
  | [] => d
  | n :: ns' => forEach_from f ns' (S k) (alter (f k n) n d)
  end.

Definition forEach (f : nat → node → Element → Element) (ns : list node)
    (d : t) : t :=
  forEach_from f ns 0 d.

(** [Array.prototype.findIndex]: the first index whose element passes,
    [-1] when none does. *)
Fixpoint findIndex_from {A} (p : A → bool) (l : list A) (k : Z) : Z :=
  match l with
  | [] => -1
  | x :: l' => if p x then k else findIndex_from p l' (k + 1)
  end.

Definition findIndex {A} (p : A → bool) (l : list A) : Z := findIndex_from p l 0.

(** [list[index]] for a number [index]: [undefined] outside the list. *)
Definition item {A} (l : list A) (index : Z) : option A :=
  if 0 <=? index then l !! Z.to_nat index else None.

End Dom.

Import Dom.

(** ** Double arithmetic

    A finite double is the rational it denotes. An arithmetic operation
    of the script is the exact operation followed by [round], rounding to
    the nearest double with ties to the even significand: 53 bits of
    significand, and a unit in the last place of at least 2^-1074 (the
    subnormal range). Infinities, NaN and the sign of a zero are not
    represented; no operation embedded below overflows on the operands the
    script gives it. A number literal of the source denotes its nearest
    double. *)

Module Double.

Local Open Scope Q_scope.

Definition pow2 (k : Z) : Q := 2 ^ k.

(** The integer part of the binary logarithm of a positive rational:
    the difference of the bit lengths, corrected by one comparison. *)
Definition ilog2 (x : Q) : Z :=
  let e := (Z.log2 (Qnum x) - Z.log2 (Zpos (Qden x)))%Z in
  if Qle_bool (pow2 e) x then e else (e - 1)%Z.

(** The nearest integer, ties to even. *)
Definition rne (x : Q) : Z :=
  let f := Qfloor x in
  match Qcompare (x - inject_Z f) (1 # 2) with
  | Lt => f
  | Eq => if Z.even f then f else (f + 1)%Z
  | Gt => (f + 1)%Z
  end.

(** The exponent of the unit in the last place of the doubles around a
    positive [x]. *)
Definition exponent (x : Q) : Z := Z.max (ilog2 x - 52) (-1074).

Definition round_magnitude (x : Q) : Q :=
  let k := exponent x in inject_Z (rne (x / pow2 k)) * pow2 k.

(** A double is a sign and a magnitude: the magnitude is rounded, the
    sign kept. The result is in lowest terms. *)
Definition round (x : Q) : Q :=
  Qred (if Qlt_le_dec x 0 then - round_magnitude (- x) else round_magnitude x).

Definition add (x y : Q) : Q := round (x + y).
Definition sub (x y : Q) : Q := round (x - y).
Definition mul (x y : Q) : Q := round (x * y).
Definition div (x y : Q) : Q := round (x / y).

(** A power with a whole exponent, correctly rounded. ECMAScript leaves
    the accuracy of [Math.pow] to the engine; this is the most accurate
    engine. *)
Definition pow (x y : Q) : Q := round (x ^ Qfloor y).

(** The rationals that are doubles. *)
Definition is_double (x : Q) : Prop := round x == x.

End Double.

(** ** Configuration, state and the world *)

Module CONFIG.
Definition particleCount_mobile : nat := 15.
Definition particleCount_desktop : nat := 30.
Definition mobileBreakpoint : Z := 900.
Definition scrollThreshold : Z := 50.
Definition revealOffset : Z := 100.
Definition backToTopThreshold : Z := 300.
Definition swipeThreshold : Z := 50.
Definition navbarHideThreshold : Z := 5.
Definition screenshotAutoplayInterval : Z := 5000.
Definition progressRingCircumference : Q := Double.round 125.6.
End CONFIG.

(** The script's [state] object. *)
Record State := mkState {
  lastScrollY : Z;
  scrollDirection : string;
  ticking : bool;
  isNavbarHidden : bool;
  screenshotAutoplay : option Z;
  hasShownBackToTop : bool
}.

Definition initial_state : State :=
  {| lastScrollY := 0; scrollDirection := "up"; ticking := false;
     isNavbarHidden := false; screenshotAutoplay := None;
     hasShownBackToTop := false |}.

(** The script's [elements] table, with the results of the selector
    queries the handlers make ([.reveal], [.screenshot-frame],
    [.screenshot-gallery], [.hero-image]). *)
Record Elements := mkElements {
  navbar : option node;
  screenshotTabs : list node;
  screenshots : list node;
  screenshotCaption : option node;
  backToTopBtn : option node;
  progressRing : option node;
  heroImages : list node;
  reveals : list node;
  screenshotFrame : option node;
  screenshotGallery : option node;
  sections : list node;
  navLinks : list node;
  counters : list node;
  lazyImages : list node
}.

(** What the handlers read from [window], [document] and the platform:
    the viewport, [document.documentElement.scrollHeight], the
    reduced-motion media query, [document.hidden], whether
    [IntersectionObserver] exists, and for every node the [top] of its
    bounding rectangle and, for an image, its [complete] flag. *)
Record Window := mkWindow {
  scrollY : Z;
  innerWidth : Z;
  innerHeight : Z;
  scrollHeight : Z;
  reducedMotion : bool;
  hidden : bool;
  hasIntersectionObserver : bool;
  rectTop : node → Z;
  complete : node → bool
}.

(** The interval timers of the platform: [setInterval] hands out fresh
    positive handles, [clearInterval] retires one. *)
Record Timers := mkTimers {
  nextHandle : Z;
  alive : list Z
}.

(** The variables closed over by the touch handlers of
    [initSwipeGestures]. *)
Record Touch := mkTouch {
  touchStartX : Z;
  touchStartY : Z;
  touchEndX : Z;
  touchEndY : Z
}.

(** [observed] holds the targets the reveal observer of
    [initScrollReveal] is watching. *)
Record World := mkWorld {
  dom : Dom.t;
  elements : Elements;
  state : State;
  window : Window;
  timers : Timers;
  touch : Touch;
  observed : list node
}.

Definition with_dom (d : Dom.t) (w : World) : World :=
  {| dom := d; elements := elements w; state := state w; window := window w;
     timers := timers w; touch := touch w; observed := observed w |}.

Definition with_state (s : State) (w : World) : World :=
  {| dom := dom w; elements := elements w; state := s; window := window w;
     timers := timers w; touch := touch w; observed := observed w |}.

Definition with_window (v : Window) (w : World) : World :=
  {| dom := dom w; elements := elements w; state := state w; window := v;
     timers := timers w; touch := touch w; observed := observed w |}.

Definition with_timers (t : Timers) (w : World) : World :=
  {| dom := dom w; elements := elements w; state := state w; window := window w;
     timers := t; touch := touch w; observed := observed w |}.

Definition with_touch (t : Touch) (w : World) : World :=
  {| dom := dom w; elements := elements w; state := state w; window := window w;
     timers := timers w; touch := t; observed := observed w |}.

Definition with_observed (o : list node) (w : World) : World :=
  {| dom := dom w; elements := elements w; state := state w; window := window w;
     timers := timers w; touch := touch w; observed := o |}.

(** ** Completions *)

Inductive JsError := TypeError | ReferenceError.

(** How a call ends, and the world it leaves. *)
Inductive Result :=
| Normal (w : World)
| Throw (e : JsError) (w : World).

Definition world_of (r : Result) : World :=
  match r with Normal w | Throw _ w => w end.

Definition bind (r : Result) (k : World → Result) : Result :=
  match r with
  | Normal w => k w
  | Throw e w => Throw e w
  end.

Notation "r ;;; k" := (bind r k) (at level 61, left associativity).

(** Reading a property of [o]: a [TypeError] when [o] is [undefined] or
    [null]. *)
Definition deref {A} (o : option A) (k : A → World → Result) (w : World) : Result :=
  match o with
  | Some a => k a w
  | None => Throw TypeError w
  end.

Definition isMobile (w : World) : bool :=
  innerWidth (window w) <? CONFIG.mobileBreakpoint.

Definition prefersReducedMotion (w : World) : bool := reducedMotion (window w).

(** ** Screenshot gallery *)

(** The own properties of the [captions] object. *)
Definition captions : gmap string string :=
  list_to_map [
    ("home", "Target Command Center — Your central hub for all operations");
    ("stats", "Statistics Dashboard — Real-time insights and analytics");
    ("history", "Attack History — Premium timeline of your recent attacks");
    ("npc", "NPC Loot Timer — Track loot levels for Torn NPCs and bosses");
    ("bounty", "Bounty Tracker — Manage bounty targets and statistics");
    ("ratelimit", "Rate Limit Popover — Detailed API rate limit breakdown");
    ("backup", "Backup & Restore — Full data backup to file")
  ].

(** [captions] is a plain object: a lookup that finds no own property
    goes on to [Object.prototype], whose properties are functions, and
    for [__proto__] the prototype object itself. All of them are truthy. *)
Definition Object_prototype : list string :=
  ["constructor"; "hasOwnProperty"; "isPrototypeOf"; "propertyIsEnumerable";
   "toLocaleString"; "toString"; "valueOf"; "__proto__";
   "__defineGetter__"; "__defineSetter__"; "__lookupGetter__"; "__lookupSetter__"].

(** The string an inherited value becomes when it is assigned to
    [textContent]: the source text of a native function, with the white
    space V8 gives it, and the tag of the prototype object. *)
Definition inherited_text (key : string) : string :=
  if bool_decide (key = "__proto__") then "[object Object]"
  else String.append "function "
         (String.append (if bool_decide (key = "constructor") then "Object" else key)
            "() { [native code] }").

(** [captions[key]], as a string when it is truthy. *)
Definition captions_get (key : string) : option string :=
  match captions !! key with
  | Some text => Some text
  | None =>
      if bool_decide (key ∈ Object_prototype) then Some (inherited_text key) else None
  end.

Definition bool_str (b : bool) : string := if b then "true" else "false".

(** The body of the first [forEach] of [switchScreenshotTab]. *)
Definition mark_tab (index : Z) (i : nat) (_ : node) (t : Element) : Element :=
  let sel := Z.of_nat i =? index in
  setAttribute "tabindex" (if sel then "0" else "-1")
    (setAttribute "aria-selected" (bool_str sel)
       (toggle "active" sel t)).

(** The body of the second one; [target] is [undefined] when the tab has
    no [data-tab]. *)
Definition mark_screenshot (target : option string) (_ : nat) (_ : node)
    (img : Element) : Element :=
  toggle "active" (bool_decide (dataset img !! "screenshot" = target)) img.

Definition switchScreenshotTab (index : Z) (w : World) : Result :=
  let tabs := screenshotTabs (elements w) in
  if bool_decide (length tabs = 0%nat) then Normal w else
  let tab := item tabs index in
  if bool_decide (tab = None) then Normal w else
  deref tab (λ tab w,
    let target := dataset (dom w tab) !! "tab" in
    let d1 := forEach (mark_tab index) tabs (dom w) in
    let d2 := forEach (mark_screenshot target) (screenshots (elements w)) d1 in
    match screenshotCaption (elements w), target ≫= captions_get with
    | Some cap, Some text => Normal (with_dom (alter (set_textContent text) cap d2) w)
    | _, _ => Normal (with_dom d2 w)
    end) w.

Definition getActiveScreenshotIndex (w : World) : Z :=
  findIndex (λ tab, contains "active" (dom w tab)) (screenshotTabs (elements w)).

(** The listeners [initScreenshotTabs] puts on the tab at [index]. *)
Definition tab_click (index : nat) (w : World) : Result :=
  switchScreenshotTab (Z.of_nat index) w.

Definition tab_keydown (index : nat) (key : string) (w : World) : Result :=
  let tabs := screenshotTabs (elements w) in
  let len := Z.of_nat (length tabs) in
  if bool_decide (key = "ArrowRight" ∨ key = "ArrowDown") then
    let nextIndex := Z.rem (Z.of_nat index + 1) len in
    deref (item tabs nextIndex) (λ _, switchScreenshotTab nextIndex) w
  else if bool_decide (key = "ArrowLeft" ∨ key = "ArrowUp") then
    let nextIndex := Z.rem (Z.of_nat index - 1 + len) len in
    deref (item tabs nextIndex) (λ _, switchScreenshotTab nextIndex) w
  else if bool_decide (key = "Home") then
    deref (item tabs 0) (λ _, switchScreenshotTab 0) w
  else if bool_decide (key = "End") then
    deref (item tabs (len - 1)) (λ _, switchScreenshotTab (len - 1)) w
  else Normal w.

(** ** Autoplay *)

(** A handle is truthy unless it is [null] or the number [0]. *)
Definition truthy (h : option Z) : bool :=
  match h with
  | Some z => negb (z =? 0)
  | None => false
  end.

Definition setInterval (t : Timers) : Z * Timers :=
  (nextHandle t, {| nextHandle := nextHandle t + 1; alive := nextHandle t :: alive t |}).

Definition clearInterval (h : Z) (t : Timers) : Timers :=
  {| nextHandle := nextHandle t; alive := filter (λ x, x ≠ h) (alive t) |}.

Definition set_screenshotAutoplay (h : option Z) (s : State) : State :=
  {| lastScrollY := lastScrollY s; scrollDirection := scrollDirection s;
     ticking := ticking s; isNavbarHidden := isNavbarHidden s;
     screenshotAutoplay := h; hasShownBackToTop := hasShownBackToTop s |}.

Definition startScreenshotAutoplay (w : World) : Result :=
  if truthy (screenshotAutoplay (state w)) || prefersReducedMotion w then Normal w
  else
    let '(h, t) := setInterval (timers w) in
    Normal (with_state (set_screenshotAutoplay (Some h) (state w)) (with_timers t w)).

Definition stopScreenshotAutoplay (w : World) : Result :=
  match screenshotAutoplay (state w) with
  | Some h =>
      if truthy (Some h) then
        Normal (with_state (set_screenshotAutoplay None (state w))
                  (with_timers (clearInterval h (timers w)) w))
      else Normal w
  | None => Normal w
  end.

(** The callback of the autoplay interval. With no tab at all the
    remainder is [NaN] and the call returns at its first guard. *)
Definition autoplay_tick (w : World) : Result :=
  let currentIndex := getActiveScreenshotIndex w in
  let len := Z.of_nat (length (screenshotTabs (elements w))) in
  if len =? 0 then Normal w
  else switchScreenshotTab (Z.rem (currentIndex + 1) len) w.

(** ** Scroll reveal *)

Definition handleScrollRevealFallback (w : World) : Result :=
  let reveals :=
    filter (λ n, contains "visible" (dom w n) = false) (reveals (elements w)) in
  let windowHeight := innerHeight (window w) in
  Normal (with_dom
    (forEach (λ _ n el,
       if rectTop (window w) n <? windowHeight - CONFIG.revealOffset
       then add "visible" el else el) reveals (dom w)) w).

Definition initScrollReveal (w : World) : Result :=
  let reveals := reveals (elements w) in
  if prefersReducedMotion w then
    Normal (with_dom (forEach (λ _ _, add "visible") reveals (dom w)) w)
  else if hasIntersectionObserver (window w) then
    Normal (with_observed reveals w)
  else handleScrollRevealFallback w.

(** One entry handed to the observer callback: its target and
    [isIntersecting]. *)
Definition Entry : Type := node * bool.

Definition reveal_entry (w : World) (entry : Entry) : World :=
  if entry.2 then
    with_observed (filter (λ n, n ≠ entry.1) (observed w))
      (with_dom (alter (add "visible") entry.1 (dom w)) w)
  else w.

Definition revealObserver_callback (entries : list Entry) (w : World) : Result :=
  Normal (foldl reveal_entry w entries).

(** ** Scroll progress

    The arithmetic of the progress ring with exact operations: [clamp]
    is [Math.min] and [Math.max], which do not round; [getScrollPercent]
    and [strokeDashoffset] are the values that [updateScrollProgress]
    below computes with rounding. *)

Module Progress.

Local Open Scope Q_scope.

Definition clamp (value min max : Q) : Q := Qmin (Qmax value min) max.

Definition getScrollPercent (scrollTop scrollHeight innerHeight : Q) : Q :=
  let docHeight := scrollHeight - innerHeight in
  if Qlt_le_dec 0 docHeight then clamp (scrollTop / docHeight) 0 1 else 0.

Definition progressRingCircumference : Q := 125.6.

(** The [strokeDashoffset] that [updateScrollProgress] writes to the
    ring. *)
Definition strokeDashoffset (scrollTop scrollHeight innerHeight : Q) : Q :=
  progressRingCircumference * (1 - getScrollPercent scrollTop scrollHeight innerHeight).

End Progress.

(** ** Navbar auto-hide and back-to-top *)

Definition set_navbar (hide : bool) (y : Z) (s : State) : State :=
  {| lastScrollY := y; scrollDirection := scrollDirection s;
     ticking := ticking s; isNavbarHidden := hide;
     screenshotAutoplay := screenshotAutoplay s;
     hasShownBackToTop := hasShownBackToTop s |}.

Definition handleNavbarScroll (w : World) : Result :=
  match navbar (elements w) with
  | None => Normal w
  | Some nav =>
      let currentScrollY := scrollY (window w) in
      let scrollDiff := currentScrollY - lastScrollY (state w) in
      let d := alter (toggle "scrolled" (CONFIG.scrollThreshold <? currentScrollY))
                 nav (dom w) in
      let hid := isNavbarHidden (state w) in
      let '(d, hid) :=
        if negb (isMobile w) && (CONFIG.scrollThreshold * 2 <? currentScrollY) then
          if (CONFIG.navbarHideThreshold <? scrollDiff) && negb hid then
            (alter (set_transform "translateY(-100%)") nav d, true)
          else if (scrollDiff <? - CONFIG.navbarHideThreshold) && hid then
            (alter (set_transform "translateY(0)") nav d, false)
          else (d, hid)
        else (alter (set_transform "translateY(0)") nav d, false) in
      Normal (with_state (set_navbar hid currentScrollY (state w)) (with_dom d w))
  end.

Definition set_hasShownBackToTop (b : bool) (s : State) : State :=
  {| lastScrollY := lastScrollY s; scrollDirection := scrollDirection s;
     ticking := ticking s; isNavbarHidden := isNavbarHidden s;
     screenshotAutoplay := screenshotAutoplay s; hasShownBackToTop := b |}.

(** [getScrollPercent], in double arithmetic. *)
Definition getScrollPercent (w : World) : Q :=
  let scrollTop := inject_Z (scrollY (window w)) in
  let docHeight :=
    Double.sub (inject_Z (scrollHeight (window w))) (inject_Z (innerHeight (window w))) in
  if Qlt_le_dec 0 docHeight
  then Progress.clamp (Double.div scrollTop docHeight) 0 1
  else 0%Q.

Definition updateScrollProgress (w : World) : Result :=
  match progressRing (elements w) with
  | None => Normal w
  | Some ring =>
      let scrollPercent := getScrollPercent w in
      let offset :=
        Double.mul CONFIG.progressRingCircumference (Double.sub 1 scrollPercent) in
      Normal (with_dom (alter (set_strokeDashoffset offset) ring (dom w)) w)
  end.

Definition handleBackToTop (w : World) : Result :=
  match backToTopBtn (elements w) with
  | None => Normal w
  | Some btn =>
      let shouldShow := CONFIG.backToTopThreshold <? scrollY (window w) in
      (if shouldShow && negb (contains "visible" (dom w btn)) then
         let d := alter (add "visible") btn (dom w) in
         if negb (hasShownBackToTop (state w)) then
           Normal (with_state (set_hasShownBackToTop true (state w))
                     (with_dom (alter (add "pulse") btn d) w))
         else Normal (with_dom d w)
       else if negb shouldShow then
         Normal (with_dom (alter (remove "visible") btn (dom w)) w)
       else Normal w) ;;; updateScrollProgress
  end.

(** The timeout armed with the pulse. *)
Definition pulse_timeout (w : World) : Result :=
  deref (backToTopBtn (elements w))
    (λ btn w, Normal (with_dom (alter (remove "pulse") btn (dom w)) w)) w.

(** The frame callback behind [handleScroll]. *)
Definition handleScroll (w : World) : Result :=
  handleNavbarScroll w ;;; handleBackToTop.

(** ** Swipe gestures *)

Definition handleSwipe (w : World) : Result :=
  let diffX := touchStartX (touch w) - touchEndX (touch w) in
  let diffY := touchStartY (touch w) - touchEndY (touch w) in
  if (Z.abs diffX <? CONFIG.swipeThreshold) || (Z.abs diffX <? Z.abs diffY) then
    Normal w
  else
    let currentIndex := getActiveScreenshotIndex w in
    let len := Z.of_nat (length (screenshotTabs (elements w))) in
    let nextIndex :=
      if 0 <? diffX then Z.rem (currentIndex + 1) len
      else Z.rem (currentIndex - 1 + len) len in
    switchScreenshotTab nextIndex w.

Definition touchstart (x y : Z) (w : World) : Result :=
  let t := touch w in
  stopScreenshotAutoplay
    (with_touch {| touchStartX := x; touchStartY := y;
                   touchEndX := touchEndX t; touchEndY := touchEndY t |} w).

Definition touchend (x y : Z) (w : World) : Result :=
  let t := touch w in
  handleSwipe
    (with_touch {| touchStartX := touchStartX t; touchStartY := touchStartY t;
                   touchEndX := x; touchEndY := y |} w).

(** [initSwipeGestures] registers the touch listeners on the frame only
    when the frame exists and there is at least one tab. *)
Definition swipe_listening (w : World) : bool :=
  bool_decide (screenshotFrame (elements w) ≠ None) &&
  negb (bool_decide (length (screenshotTabs (elements w)) = 0%nat)).

(** ** Events *)

Definition set_scroll (y : Z) (tops : node → Z) (v : Window) : Window :=
  {| scrollY := y; innerWidth := innerWidth v; innerHeight := innerHeight v;
     scrollHeight := scrollHeight v;
     reducedMotion := reducedMotion v; hidden := hidden v;
     hasIntersectionObserver := hasIntersectionObserver v; rectTop := tops;
     complete := complete v |}.

Definition set_size (width height : Z) (v : Window) : Window :=
  {| scrollY := scrollY v; innerWidth := width; innerHeight := height;
     scrollHeight := scrollHeight v;
     reducedMotion := reducedMotion v; hidden := hidden v;
     hasIntersectionObserver := hasIntersectionObserver v; rectTop := rectTop v;
     complete := complete v |}.

Definition set_reducedMotion (b : bool) (v : Window) : Window :=
  {| scrollY := scrollY v; innerWidth := innerWidth v; innerHeight := innerHeight v;
     scrollHeight := scrollHeight v;
     reducedMotion := b; hidden := hidden v;
     hasIntersectionObserver := hasIntersectionObserver v; rectTop := rectTop v;
     complete := complete v |}.

Definition set_hidden (b : bool) (v : Window) : Window :=
  {| scrollY := scrollY v; innerWidth := innerWidth v; innerHeight := innerHeight v;
     scrollHeight := scrollHeight v;
     reducedMotion := reducedMotion v; hidden := b;
     hasIntersectionObserver := hasIntersectionObserver v; rectTop := rectTop v;
     complete := complete v |}.

(** What can happen to the page once [init] has registered the
    listeners. [Scroll] is a processed scroll: the frame in which the
    throttled handler runs, with the offset and the rectangles the
    platform reports then. [StartAutoplay] is a call of
    [startScreenshotAutoplay]. *)
Inductive Event :=
| Scroll (y : Z) (tops : node → Z)
| Resize (width height : Z)
| MotionChange (reduced : bool)
| VisibilityChange (hid : bool)
| MouseEnter
| FocusIn
| TouchStart (x y : Z)
| TouchEnd (x y : Z)
| Click (index : nat)
| KeyDown (index : nat) (key : string)
| Tick (handle : Z)
| Intersect (entries : list Entry)
| PulseTimeout
| StartAutoplay.

Definition gallery_listening (w : World) : bool :=
  bool_decide (screenshotGallery (elements w) ≠ None).

Definition has_tab (index : nat) (w : World) : bool :=
  bool_decide (index < length (screenshotTabs (elements w)))%nat.

(** One event: the platform updates what it owns, then the listener
    registered for the event runs. An event on an element that does not
    exist, or from a timer that was cleared, runs nothing; the reveal
    observer only reports targets it is observing. What the resize and
    the motion listeners do to the mobile menu and to the particles is
    in [Menu]. *)
Definition handle (ev : Event) (w : World) : Result :=
  match ev with
  | Scroll y tops => handleScroll (with_window (set_scroll y tops (window w)) w)
  | Resize width height => Normal (with_window (set_size width height (window w)) w)
  | MotionChange reduced =>
      let w := with_window (set_reducedMotion reduced (window w)) w in
      if prefersReducedMotion w then stopScreenshotAutoplay w else Normal w
  | VisibilityChange hid =>
      let w := with_window (set_hidden hid (window w)) w in
      if hidden (window w) then stopScreenshotAutoplay w else Normal w
  | MouseEnter | FocusIn =>
      if gallery_listening w then stopScreenshotAutoplay w else Normal w
  | TouchStart x y => if swipe_listening w then touchstart x y w else Normal w
  | TouchEnd x y => if swipe_listening w then touchend x y w else Normal w
  | Click index => if has_tab index w then tab_click index w else Normal w
  | KeyDown index key => if has_tab index w then tab_keydown index key w else Normal w
  | Tick h => if bool_decide (h ∈ alive (timers w)) then autoplay_tick w else Normal w
  | Intersect entries =>
      revealObserver_callback (filter (λ entry, entry.1 ∈ observed w) entries) w
  | PulseTimeout =>
      if bool_decide (backToTopBtn (elements w) ≠ None) then pulse_timeout w
      else Normal w
  | StartAutoplay => startScreenshotAutoplay w
  end.

(** The event loop: an exception escaping a listener is reported by the
    platform and the loop goes on from the world the listener left. *)
Definition run (evs : list Event) (w : World) : World :=
  foldl (λ w ev, world_of (handle ev w)) w evs.

(** ** Initialization *)

(** The calls [init] makes inside its [try] block, in source order.
    [RequestPreload] is the [requestAnimationFrame] call that defers
    [preloadImages]. *)
Inductive InitStep :=
| InitAccessibility | GenerateParticles | InitImageLoadHandlers | InitLazyLoading
| InitScreenshotTabs | InitSmoothScroll | InitDropdownMenus | InitEventListeners
| InitBackToTop | InitSwipeGestures | InitKeyboardShortcuts
| InitScrollReveal | InitActiveSectionTracking | InitParallax
| HandleNavbarScroll | HandleBackToTop
| InitAnimatedCounters | InitContextMenuPrevention | InitCopyProtection
| RequestPreload | LogPerformance.

Global Instance InitStep_eq_dec : EqDecision InitStep.
Proof. solve_decision. Defined.

Definition init_sequence : list InitStep :=
  [ InitAccessibility; GenerateParticles; InitImageLoadHandlers; InitLazyLoading;
    InitScreenshotTabs; InitSmoothScroll; InitDropdownMenus; InitEventListeners;
    InitBackToTop; InitSwipeGestures; InitKeyboardShortcuts;
    InitScrollReveal; InitActiveSectionTracking; InitParallax;
    HandleNavbarScroll; HandleBackToTop;
    InitAnimatedCounters; InitContextMenuPrevention; InitCopyProtection;
    RequestPreload; LogPerformance ].

(** What [init] leaves behind: the steps it called, in order, the world,
    and the error its [catch] clause logged, if any. *)
Record InitOutcome := mkInitOutcome {
  called : list InitStep;
  final : World;
  logged : option JsError
}.

Section Init.

(** How each routine behaves on the platform at hand. *)
Variable routine : InitStep → World → Result.

(** A statement sequence: a throw abandons the statements after it. *)
Fixpoint block (steps : list InitStep) (w : World) : list InitStep * Result :=
  match steps with
  | [] => ([], Normal w)
  | s :: rest =>
      match routine s w with
      | Normal w' => let '(tr, r) := block rest w' in (s :: tr, r)
      | Throw e w' => ([s], Throw e w')
      end
  end.

(** [try { ... } catch (error) { console.error(...) }] *)
Definition init (w : World) : InitOutcome :=
  match block init_sequence w with
  | (tr, Normal w') => {| called := tr; final := w'; logged := None |}
  | (tr, Throw e w') => {| called := tr; final := w'; logged := Some e |}
  end.

End Init.

Definition initAccessibility (w : World) : Result :=
  Normal (with_dom
    (forEach (λ index _ tab,
       setAttribute "tabindex" (if (index =? 0)%nat then "0" else "-1")
         (setAttribute "aria-selected" (bool_str (index =? 0)%nat)
            (setAttribute "role" "tab" tab)))
       (screenshotTabs (elements w)) (dom w)) w).

(** [new IntersectionObserver(...)] where the constructor may be
    undefined. *)
Definition new_IntersectionObserver (w : World) : Result :=
  if hasIntersectionObserver (window w) then Normal w else Throw ReferenceError w.

Definition initActiveSectionTracking (w : World) : Result :=
  if bool_decide (length (sections (elements w)) = 0%nat) ||
     bool_decide (length (navLinks (elements w)) = 0%nat)
  then Normal w
  else new_IntersectionObserver w.

Definition initAnimatedCounters (w : World) : Result :=
  if bool_decide (length (counters (elements w)) = 0%nat) then Normal w
  else new_IntersectionObserver w.

(** Every image of the hero and of the gallery that has finished loading
    is marked; the others get listeners for [load] and [error]. The body
    touches the visited image only, so the order of the visit does not
    matter. *)
Definition initImageLoadHandlers (w : World) : Result :=
  let allImages := heroImages (elements w) ++ screenshots (elements w) in
  Normal (with_dom
    (forEach (λ _ n img, if complete (window w) n then add "loaded" img else img)
       allImages (dom w)) w).

(** The routines on a platform that has everything the script uses
    except, possibly, [IntersectionObserver]: [initScrollReveal] and
    [initLazyLoading] test for it and fall back, the other two users
    construct it untested. The remaining routines only register
    listeners or touch state that [World] does not hold: the particles
    are in [Menu.Page], and [elements] is the table as [initBackToTop]
    completes it. *)
Definition script_routine (s : InitStep) (w : World) : Result :=
  match s with
  | InitAccessibility => initAccessibility w
  | InitImageLoadHandlers => initImageLoadHandlers w
  | InitScrollReveal => initScrollReveal w
  | InitActiveSectionTracking => initActiveSectionTracking w
  | HandleNavbarScroll => handleNavbarScroll w
  | HandleBackToTop => handleBackToTop w
  | InitAnimatedCounters => initAnimatedCounters w
  | _ => Normal w
  end.

(** ** Animated counters

    The frame callback of [animateCounter], in double arithmetic.
    [Math.pow], whose accuracy ECMAScript leaves to the engine, is a
    parameter; [Double.pow] is one such engine. The target is the integer
    [parseInt] returned, a double. *)

Module Counter.

Local Open Scope Q_scope.

Definition duration : Q := 2000.

Section Engine.

Variable pow : Q → Q → Q.

Definition progress (elapsed : Q) : Q := Qmin (Double.div elapsed duration) 1.

Definition easeOutQuart (p : Q) : Q := Double.sub 1 (pow (Double.sub 1 p) 4).

(** One frame of [updateCount]: the number written to the element and
    whether another frame is requested. *)
Definition updateCount (target : Z) (start currentTime : Q) : Z * bool :=
  let elapsed := Double.sub currentTime start in
  let p := progress elapsed in
  let current := Qfloor (Double.mul (easeOutQuart p) (inject_Z target)) in
  if Qlt_le_dec p 1 then (current, true) else (target, false).

(** The number on display once the frame at [currentTime] has run. *)
Definition displayed (target : Z) (start currentTime : Q) : Z :=
  (updateCount target start currentTime).1.

End Engine.

(** What the properties below ask of the engine's fourth power on
    [0, 1]: exact at 0 and at 1, and monotone. *)
Definition pow_ok (pow : Q → Q → Q) : Prop :=
  pow 0 4 == 0 ∧ pow 1 4 == 1 ∧
  ∀ x y, 0 <= x → x <= y → y <= 1 → pow x 4 <= pow y 4.

End Counter.

(** ** Vocabulary of the properties *)

(** What the markup guarantees about the gallery: a node list names each
    node once, and the tabs are not the gallery images. *)
Definition gallery_wf (w : World) : Prop :=
  NoDup (screenshotTabs (elements w)) ∧
  ∀ n, n ∈ screenshotTabs (elements w) → n ∉ screenshots (elements w).

(** Whether the tab at position [j] carries the class [active]. *)
Definition tab_active (w : World) (j : nat) : bool :=
  match screenshotTabs (elements w) !! j with
  | Some n => contains "active" (dom w n)
  | None => false
  end.

(** An attribute of the tab at position [j]. *)
Definition tab_attribute (name : string) (w : World) (j : nat) : option string :=
  screenshotTabs (elements w) !! j ≫= λ n, getAttribute name (dom w n).

(** The number of tabs carrying the class [active]. *)
Definition active_count (w : World) : nat :=
  length (filter (λ n, contains "active" (dom w n) = true)
            (screenshotTabs (elements w))).

(** Whether a call threw. *)
Definition threw (r : Result) : bool :=
  match r with Normal _ => false | Throw _ _ => true end.

(** Exactly one tab carries [active]: there is a position in range whose
    tab has the class while no other tab has it. *)
Definition one_active (w : World) : Prop :=
  gallery_wf w ∧
  ∃ i : nat, (i < length (screenshotTabs (elements w)))%nat ∧
    ∀ j n, screenshotTabs (elements w) !! j = Some n →
           contains "active" (dom w n) = bool_decide (j = i).

(** The autoplay handle and the platform's timers agree: handles are
    positive and below the next one, and the only interval alive, if any,
    is the one [state.screenshotAutoplay] holds. *)
Definition autoplay_ok (w : World) : Prop :=
  0 < nextHandle (timers w) ∧
  match screenshotAutoplay (state w) with
  | Some h => alive (timers w) = [h] ∧ 0 < h < nextHandle (timers w)
  | None => alive (timers w) = []
  end.


(** ** A sample page

    Seven tabs (nodes 10 to 16) named as in [captions], the first one
    active, seven images (nodes 20 to 26), a caption, a navbar, a
    back-to-top button with its progress ring, a hero image, three reveal
    elements, two sections with their links and one counter. The document
    is 3000px high in a window of 800px. *)

Definition tab_names : list string :=
  ["home"; "stats"; "history"; "npc"; "bounty"; "ratelimit"; "backup"].

Definition sample_element (cls : list string) (data : gmap string string) : Element :=
  {| classList := cls; attributes := ∅; dataset := data;
     textContent := ""; transform := ""; strokeDashoffset := None |}.

Definition sample_dom : Dom.t := λ n,
  if bool_decide (10 ≤ n < 17)%nat then
    sample_element
      (if bool_decide (n = 10%nat) then ["screenshot-tab"; "active"]
       else ["screenshot-tab"])
      (from_option (λ name, {[ "tab" := name ]}) ∅ (tab_names !! (n - 10)%nat))
  else if bool_decide (20 ≤ n < 27)%nat then
    sample_element (if bool_decide (n = 20%nat) then ["active"] else [])
      (from_option (λ name, {[ "screenshot" := name ]}) ∅ (tab_names !! (n - 20)%nat))
  else if bool_decide (40 ≤ n < 43)%nat then sample_element ["reveal"] ∅
  else sample_element [] ∅.

Definition sample_elements : Elements :=
  {| navbar := Some 1%nat; screenshotTabs := seq 10 7; screenshots := seq 20 7;
     screenshotCaption := Some 30%nat; backToTopBtn := Some 2%nat;
     progressRing := Some 3%nat; heroImages := [5%nat];
     reveals := seq 40 3; screenshotFrame := Some 50%nat;
     screenshotGallery := Some 51%nat; sections := [60; 61]%nat;
     navLinks := [70; 71]%nat; counters := [80%nat]; lazyImages := [] |}.

Definition sample_window : Window :=
  {| scrollY := 0; innerWidth := 1280; innerHeight := 800; scrollHeight := 3000;
     reducedMotion := false; hidden := false; hasIntersectionObserver := true;
     rectTop := λ n, 100 * Z.of_nat n;
     complete := λ n, bool_decide (n ≠ 26%nat) |}.

Definition sample : World :=
  {| dom := sample_dom; elements := sample_elements; state := initial_state;
     window := sample_window; timers := {| nextHandle := 1; alive := [] |};
     touch := {| touchStartX := 0; touchStartY := 0; touchEndX := 0; touchEndY := 0 |};
     observed := [] |}.

(** The sample page on a browser without [IntersectionObserver]. *)
Definition old_browser : World :=
  with_window
    {| scrollY := 0; innerWidth := 1280; innerHeight := 800; scrollHeight := 3000;
       reducedMotion := false; hidden := false; hasIntersectionObserver := false;
       rectTop := λ n, 100 * Z.of_nat n;
       complete := λ n, bool_decide (n ≠ 26%nat) |} sample.

(** ** What a switch does to one node

    The second and third steps of [switchScreenshotTab] seen from a node
    [n]: the image loop touches it when it is one of the gallery images,
    the caption update when it is the caption element and the table has a
    text for the tab. *)

Definition image_step (w : World) (target : option string) (n : node)
    (e : Element) : Element :=
  if bool_decide (n ∈ screenshots (elements w))
  then mark_screenshot target 0%nat n e else e.

Definition caption_step (w : World) (target : option string) (n : node)
    (e : Element) : Element :=
  match screenshotCaption (elements w), target ≫= captions_get with
  | Some cap, Some text => if bool_decide (cap = n) then set_textContent text e else e
  | _, _ => e
  end.

(** The world after [k] firings of the autoplay interval. *)
Definition ticks (k : nat) (w : World) : World :=
  Nat.iter k (λ w, world_of (autoplay_tick w)) w.

(** ** Input normalizers

    [rafThrottle], [throttle] and [debounce] return a wrapper that closes
    over a flag or a timer handle. Each is a small machine: the state is
    what the closure holds together with what it has armed on the
    platform, an event is a call of the wrapper or the platform running
    what was armed. The wrapped function may throw; [invoked] records the
    arguments of its invocations, in order. *)

Module Normalizer.

Section Wrapped.

(** The arguments of a call, and whether the wrapped function throws on
    them. *)
Variable A : Type.
Variable throws : A → bool.

(** [rafThrottle(func)]: [ticking], and the frame callbacks requested
    with the arguments each one captured. *)
Record Raf := mkRaf {
  raf_ticking : bool;
  raf_frames : list A;
  raf_invoked : list A
}.

Inductive RafEvent :=
| RafCall (args : A)
| RafFrame.

Definition raf_init : Raf :=
  {| raf_ticking := false; raf_frames := []; raf_invoked := [] |}.

(** In the frame callback [ticking = false] comes after the call of the
    wrapped function, so it is skipped when that throws. *)
Definition raf_step (s : Raf) (ev : RafEvent) : Raf :=
  match ev with
  | RafCall args =>
      if raf_ticking s then s
      else {| raf_ticking := true; raf_frames := raf_frames s ++ [args];
              raf_invoked := raf_invoked s |}
  | RafFrame =>
      match raf_frames s with
      | [] => s
      | args :: rest =>
          {| raf_ticking := if throws args then raf_ticking s else false;
             raf_frames := rest;
             raf_invoked := raf_invoked s ++ [args] |}
      end
  end.

Definition raf_run (evs : list RafEvent) (s : Raf) : Raf := foldl raf_step s evs.

(** [throttle(func, limit)]: [inThrottle] (initially [undefined]) and the
    number of reset timeouts armed. *)
Record Throttle := mkThrottle {
  thr_inThrottle : bool;
  thr_resets : nat;
  thr_invoked : list A
}.

Inductive ThrottleEvent :=
| ThrCall (args : A)
| ThrReset.

Definition thr_init : Throttle :=
  {| thr_inThrottle := false; thr_resets := 0; thr_invoked := [] |}.

(** The wrapped function is called first: when it throws, the flag is
    not set and no timeout is armed. *)
Definition thr_step (s : Throttle) (ev : ThrottleEvent) : Throttle :=
  match ev with
  | ThrCall args =>
      if thr_inThrottle s then s
      else if throws args then
        {| thr_inThrottle := thr_inThrottle s; thr_resets := thr_resets s;
           thr_invoked := thr_invoked s ++ [args] |}
      else
        {| thr_inThrottle := true; thr_resets := S (thr_resets s);
           thr_invoked := thr_invoked s ++ [args] |}
  | ThrReset =>
      match thr_resets s with
      | O => s
      | S k => {| thr_inThrottle := false; thr_resets := k;
                  thr_invoked := thr_invoked s |}
      end
  end.

Definition thr_run (evs : list ThrottleEvent) (s : Throttle) : Throttle :=
  foldl thr_step s evs.

(** [debounce(func, wait)]: the timeout still armed, with the arguments
    it captured. A call clears it and arms a new one. *)
Record Debounce := mkDebounce {
  deb_timer : option A;
  deb_invoked : list A
}.

Inductive DebounceEvent :=
| DebCall (args : A)
| DebFire.

Definition deb_init : Debounce := {| deb_timer := None; deb_invoked := [] |}.

Definition deb_step (s : Debounce) (ev : DebounceEvent) : Debounce :=
  match ev with
  | DebCall args => {| deb_timer := Some args; deb_invoked := deb_invoked s |}
  | DebFire =>
      match deb_timer s with
      | Some args => {| deb_timer := None; deb_invoked := deb_invoked s ++ [args] |}
      | None => s
      end
  end.

Definition deb_run (evs : list DebounceEvent) (s : Debounce) : Debounce :=
  foldl deb_step s evs.

End Wrapped.

Arguments RafCall {A} args.
Arguments RafFrame {A}.
Arguments ThrCall {A} args.
Arguments ThrReset {A}.
Arguments DebCall {A} args.
Arguments DebFire {A}.
Arguments raf_init {A}.
Arguments thr_init {A}.
Arguments deb_init {A}.
Arguments raf_ticking {A} r.
Arguments raf_frames {A} r.
Arguments raf_invoked {A} r.
Arguments thr_inThrottle {A} t.
Arguments thr_resets {A} t.
Arguments thr_invoked {A} t.
Arguments deb_timer {A} d.
Arguments deb_invoked {A} d.
Arguments raf_step {A} throws s ev.
Arguments raf_run {A} throws evs s.
Arguments thr_step {A} throws s ev.
Arguments thr_run {A} throws evs s.
Arguments deb_step {A} s ev.
Arguments deb_run {A} evs s.

(** The arguments of the calls among the events, in order. *)
Definition thr_calls {A} (evs : list (ThrottleEvent A)) : list A :=
  omap (λ ev, match ev with ThrCall a => Some a | ThrReset => None end) evs.

(** The flag of [throttle] is set exactly while one reset is armed. *)
Definition thr_ok {A} (s : Throttle A) : Prop :=
  (thr_inThrottle s = true ∧ thr_resets s = 1%nat) ∨
  (thr_inThrottle s = false ∧ thr_resets s = 0%nat).

(** At most one frame is requested, and only while [ticking] is set. *)
Definition raf_ok {A} (s : Raf A) : Prop :=
  raf_frames s = [] ∨ (∃ a, raf_frames s = [a] ∧ raf_ticking s = true).

End Normalizer.

(** ** Mobile menu and particles

    What the click, key and resize listeners of the menu touch: the menu,
    its overlay and its button, [document.body.style.overflow], the
    viewport width, and the particles container with the particles
    [generateParticles] puts in it. [Math.random] is the stream of the
    numbers it will return, read at the position [drawn]. The staggered
    transition delays of the menu items and the focus moves are left
    out. *)

Module Menu.

(** One particle: the numbers and the colour of its [style.cssText]. *)
Record Particle := mkParticle {
  leftPercent : Q;
  animationDelay : Q;
  animationDuration : Q;
  background : option string
}.

(** [particles] holds the particles that are the children of the
    container. *)
Record Page := mkPage {
  document : Dom.t;
  mobileMenu : option node;
  mobileMenuOverlay : option node;
  mobileMenuBtn : option node;
  overflow : string;
  width : Z;
  reducedMotion : bool;
  particlesContainer : option node;
  particles : list Particle;
  random : nat → Q;
  drawn : nat
}.

Definition with_document (d : Dom.t) (o : string) (p : Page) : Page :=
  {| document := d; mobileMenu := mobileMenu p;
     mobileMenuOverlay := mobileMenuOverlay p; mobileMenuBtn := mobileMenuBtn p;
     overflow := o; width := width p; reducedMotion := reducedMotion p;
     particlesContainer := particlesContainer p; particles := particles p;
     random := random p; drawn := drawn p |}.

Definition with_width (w : Z) (p : Page) : Page :=
  {| document := document p; mobileMenu := mobileMenu p;
     mobileMenuOverlay := mobileMenuOverlay p; mobileMenuBtn := mobileMenuBtn p;
     overflow := overflow p; width := w; reducedMotion := reducedMotion p;
     particlesContainer := particlesContainer p; particles := particles p;
     random := random p; drawn := drawn p |}.

Definition with_reducedMotion (b : bool) (p : Page) : Page :=
  {| document := document p; mobileMenu := mobileMenu p;
     mobileMenuOverlay := mobileMenuOverlay p; mobileMenuBtn := mobileMenuBtn p;
     overflow := overflow p; width := width p; reducedMotion := b;
     particlesContainer := particlesContainer p; particles := particles p;
     random := random p; drawn := drawn p |}.

Definition with_particles (d : Dom.t) (ps : list Particle) (n : nat) (p : Page) : Page :=
  {| document := d; mobileMenu := mobileMenu p;
     mobileMenuOverlay := mobileMenuOverlay p; mobileMenuBtn := mobileMenuBtn p;
     overflow := overflow p; width := width p; reducedMotion := reducedMotion p;
     particlesContainer := particlesContainer p; particles := ps;
     random := random p; drawn := n |}.

Definition openMobileMenu (p : Page) : Page :=
  match mobileMenu p, mobileMenuOverlay p, mobileMenuBtn p with
  | Some menu, Some overlay, Some btn =>
      with_document
        (alter (setAttribute "aria-expanded" "true") btn
           (alter (add "active") btn
              (alter (add "active") overlay
                 (alter (add "active") menu (document p)))))
        "hidden" p
  | _, _, _ => p
  end.

Definition closeMobileMenu (p : Page) : Page :=
  match mobileMenu p, mobileMenuOverlay p, mobileMenuBtn p with
  | Some menu, Some overlay, Some btn =>
      with_document
        (alter (setAttribute "aria-expanded" "false") btn
           (alter (remove "active") btn
              (alter (remove "active") overlay
                 (alter (remove "active") menu (document p)))))
        "" p
  | _, _, _ => p
  end.

Definition toggleMobileMenu (p : Page) : Page :=
  match mobileMenu p with
  | None => p
  | Some menu =>
      if contains "active" (document p menu) then closeMobileMenu p
      else openMobileMenu p
  end.

Definition isMobileMenuOpen (p : Page) : bool :=
  match mobileMenu p with
  | Some menu => contains "active" (document p menu)
  | None => false
  end.

Definition isMobile (p : Page) : bool := width p <? CONFIG.mobileBreakpoint.

(** The particle built in round [i] of the loop: four calls of
    [Math.random], in the order of the template. *)
Definition particle (rnd : nat → Q) (base i : nat) : Particle :=
  let r j := rnd (base + 4 * i + j)%nat in
  {| leftPercent := Double.mul (r 0%nat) 100;
     animationDelay := Double.mul (r 1%nat) 20;
     animationDuration := Double.add 15 (Double.mul (r 2%nat) 15);
     background := if Qlt_le_dec (1 # 2) (r 3%nat) then Some "#ff006e" else None |}.

(** The container is emptied, which also removes any text it held, and
    refilled. *)
Definition generateParticles (p : Page) : Page :=
  match particlesContainer p with
  | None => p
  | Some container =>
      if reducedMotion p then p
      else
        let count :=
          if isMobile p then CONFIG.particleCount_mobile
          else CONFIG.particleCount_desktop in
        with_particles (alter (set_textContent "") container (document p))
          (particle (random p) (drawn p) <$> seq 0 count)
          (drawn p + 4 * count) p
  end.

(** The body of the throttled resize listener. *)
Definition handleResize (p : Page) : Page :=
  generateParticles
    (if negb (isMobile p) && isMobileMenuOpen p then closeMobileMenu p else p).

(** The keyboard shortcuts on an [Escape] key: the listener returns at
    once when the target of the event is an input, a textarea, a select
    or an editable element. *)
Definition escape (inField : bool) (p : Page) : Page :=
  if inField then p
  else if isMobileMenuOpen p then closeMobileMenu p else p.

(** What can happen to the menu and the particles: a click on the
    button, on the close button or on the overlay, the timeout armed by a
    click on a link of the menu, the [Escape] key, pressed in a form field
    or elsewhere, a processed resize to a new width, and a change of the
    reduced-motion preference. A click on an element that does not exist
    runs nothing. *)
Inductive Event :=
| ClickButton
| ClickClose
| ClickOverlay
| NavLinkTimeout
| KeyEscape (inField : bool)
| Resized (w : Z)
| MotionChanged (reduced : bool).

Definition handle (p : Page) (ev : Event) : Page :=
  match ev with
  | ClickButton =>
      match mobileMenuBtn p with Some _ => toggleMobileMenu p | None => p end
  | ClickClose => closeMobileMenu p
  | ClickOverlay =>
      match mobileMenuOverlay p with Some _ => closeMobileMenu p | None => p end
  | NavLinkTimeout => closeMobileMenu p
  | KeyEscape inField => escape inField p
  | Resized w => handleResize (with_width w p)
  | MotionChanged reduced => generateParticles (with_reducedMotion reduced p)
  end.

Definition run (evs : list Event) (p : Page) : Page := foldl handle p evs.

(** The three parts exist. *)
Definition complete (p : Page) : Prop :=
  mobileMenu p ≠ None ∧ mobileMenuOverlay p ≠ None ∧ mobileMenuBtn p ≠ None.

(** Menu, overlay and button are all active or all inactive, and
    [aria-expanded] and the body's overflow say the same. *)
Definition consistent (p : Page) : Prop :=
  ∃ menu overlay btn,
    mobileMenu p = Some menu ∧ mobileMenuOverlay p = Some overlay ∧
    mobileMenuBtn p = Some btn ∧
    let open := contains "active" (document p menu) in
    contains "active" (document p overlay) = open ∧
    contains "active" (document p btn) = open ∧
    getAttribute "aria-expanded" (document p btn) = Some (bool_str open) ∧
    overflow p = (if open then "hidden" else "").

(** A sample menu, closed, on a phone, with an empty particles
    container. *)
Definition sample : Page :=
  {| document := λ _, sample_element [] ∅;
     mobileMenu := Some 3%nat; mobileMenuOverlay := Some 4%nat;
     mobileMenuBtn := Some 5%nat; overflow := ""; width := 600;
     reducedMotion := false; particlesContainer := Some 6%nat; particles := [];
     random := λ n, (Z.of_nat (n mod 10) # 10)%Q; drawn := 0 |}.

End Menu.

(** ** Dropdown menus

    Each [.nav-dropdown] with its trigger, its menu and the links of the
    menu, as the selector queries of [initDropdownMenus] find them. *)

Module Dropdown.

Record Item := mkItem {
  root : node;
  trigger : option node;
  menu : option node;
  links : list node
}.

Record Page := mkPage {
  document : Dom.t;
  dropdowns : list Item
}.

(** [classList.toggle(c)] with no second argument. *)
Definition flip (c : string) (e : Element) : Element :=
  if contains c e then remove c e else add c e.

Definition close_all (p : Page) : Dom.t :=
  forEach (λ _ _, remove "open") (root <$> dropdowns p) (document p).

(** Listeners are registered on a dropdown only when it has both a
    trigger and a menu. *)
Definition wired (it : Item) : bool :=
  bool_decide (trigger it ≠ None) && bool_decide (menu it ≠ None).

Definition trigger_click (it : Item) (p : Page) : Page :=
  let isOpen := contains "open" (document p (root it)) in
  let d := close_all p in
  {| document := if isOpen then d else alter (add "open") (root it) d;
     dropdowns := dropdowns p |}.

Definition trigger_keydown (key : string) (it : Item) (p : Page) : Page :=
  if bool_decide (key = "Enter" ∨ key = " ") then
    {| document := alter (flip "open") (root it) (document p);
       dropdowns := dropdowns p |}
  else if bool_decide (key = "ArrowDown") then
    {| document := alter (add "open") (root it) (document p);
       dropdowns := dropdowns p |}
  else if bool_decide (key = "Escape") then
    {| document := alter (remove "open") (root it) (document p);
       dropdowns := dropdowns p |}
  else p.

(** The document listener: [inside] tells whether the click landed in a
    dropdown. *)
Definition document_click (inside : bool) (p : Page) : Page :=
  if inside then p else {| document := close_all p; dropdowns := dropdowns p |}.

(** The link that gets the focus on [ArrowDown] and on [ArrowUp] pressed
    on the link at [index]. *)
Definition next_link (links : list node) (index : Z) : option node :=
  match item links (index + 1) with
  | Some l => Some l
  | None => item links 0
  end.

Definition prev_link (links : list node) (index : Z) : option node :=
  match item links (index - 1) with
  | Some l => Some l
  | None => item links (Z.of_nat (length links) - 1)
  end.

Definition is_open (p : Page) (it : Item) : bool :=
  contains "open" (document p (root it)).

(** A sample navigation with three dropdowns, the second one open. *)
Definition sample : Page :=
  {| document := λ n, sample_element
                        (if bool_decide (n = 101%nat) then ["nav-dropdown"; "open"]
                         else ["nav-dropdown"]) ∅;
     dropdowns := [ {| root := 100%nat; trigger := Some 110%nat; menu := Some 120%nat;
                       links := [130; 131]%nat |};
                    {| root := 101%nat; trigger := Some 111%nat; menu := Some 121%nat;
                       links := [132; 133; 134]%nat |};
                    {| root := 102%nat; trigger := Some 112%nat; menu := Some 122%nat;
                       links := [135%nat] |} ] |}.

End Dropdown.

(** ** Active section highlighting

    The callback of the observer that [initActiveSectionTracking] puts on
    the sections: for an intersecting entry, every navigation link is
    toggled by whether its [href] is the hash of the section's [id]. *)

Definition hash (id : option string) : string :=
  String.append "#" (default "null" id).

Definition highlight (id : option string) (_ : nat) (_ : node) (link : Element)
    : Element :=
  toggle "active" (bool_decide (getAttribute "href" link = Some (hash id))) link.

Definition section_entry (w : World) (entry : Entry) : World :=
  if entry.2 then
    let id := getAttribute "id" (dom w entry.1) in
    with_dom (forEach (highlight id) (navLinks (elements w)) (dom w)) w
  else w.

Definition sectionObserver_callback (entries : list Entry) (w : World) : Result :=
  Normal (foldl section_entry w entries).

(** The last entry reported as intersecting, if any. *)
Definition last_intersecting (entries : list Entry) : option Entry :=
  last (filter (λ entry, entry.2 = true) entries).

(** ** The click listener of version 2.0.0

    The first script of [app.js] puts this listener on each tab; it
    compares elements where [switchScreenshotTab] compares indices, and
    gives up on a tab without [data-tab]. *)

Definition mark_tab_v2 (tab : node) (_ : nat) (t : node) (e : Element) : Element :=
  let sel := bool_decide (t = tab) in
  setAttribute "tabindex" (if sel then "0" else "-1")
    (setAttribute "aria-selected" (bool_str sel)
       (toggle "active" sel e)).

Definition tab_click_v2 (tab : node) (w : World) : Result :=
  let target := dataset (dom w tab) !! "tab" in
  if bool_decide (target = None ∨ target = Some "") then Normal w else
  let d1 := forEach (mark_tab_v2 tab) (screenshotTabs (elements w)) (dom w) in
  let d2 := forEach (mark_screenshot target) (screenshots (elements w)) d1 in
  match screenshotCaption (elements w), target ≫= captions_get with
  | Some cap, Some text => Normal (with_dom (alter (set_textContent text) cap d2) w)
  | _, _ => Normal (with_dom d2 w)
  end.

(** * Properties *)

(** ** The document store *)

Section DomFacts.

Implicit Types (c : string) (e : Element) (d : Dom.t) (n : node).

Lemma contains_true c e : contains c e = true ↔ c ∈ classList e.
Proof. unfold contains. apply bool_decide_eq_true. Qed.

Lemma contains_add c e : contains c (add c e) = true.
Proof.
  unfold add. destruct (contains c e) eqn:E; [done|].
  apply contains_true. cbn. apply elem_of_app. right. apply list_elem_of_singleton. done.
Qed.

Lemma contains_add_keeps c c' e : contains c e = true → contains c (add c' e) = true.
Proof.
  intros H. unfold add. destruct (contains c' e); [done|].
  apply contains_true in H. apply contains_true. cbn.
  apply elem_of_app. by left.
Qed.

Lemma contains_remove c e : contains c (remove c e) = false.
Proof.
  unfold contains, remove. cbn. apply bool_decide_eq_false.
  rewrite list_elem_of_filter. tauto.
Qed.

Lemma contains_remove_ne c c' e :
  c ≠ c' → contains c (remove c' e) = contains c e.
Proof.
  intros Hne. unfold contains, remove. cbn. apply bool_decide_ext.
  rewrite list_elem_of_filter. tauto.
Qed.

Lemma contains_add_ne c c' e : c ≠ c' → contains c (add c' e) = contains c e.
Proof.
  intros Hne. unfold add. destruct (contains c' e); [done|].
  unfold contains. cbn. apply bool_decide_ext.
  rewrite elem_of_app, list_elem_of_singleton. tauto.
Qed.

Lemma contains_toggle c b e : contains c (toggle c b e) = b.
Proof. destruct b; cbn; [apply contains_add | apply contains_remove]. Qed.

Lemma contains_toggle_ne c c' b e :
  c ≠ c' → contains c (toggle c' b e) = contains c e.
Proof.
  intros. destruct b; cbn; [by apply contains_add_ne | by apply contains_remove_ne].
Qed.

Lemma add_attributes c e : attributes (add c e) = attributes e.
Proof. unfold add. by destruct (contains c e). Qed.

Lemma toggle_attributes c b e : attributes (toggle c b e) = attributes e.
Proof. destruct b; [apply add_attributes | done]. Qed.

Lemma alter_at (g : Element → Element) d n : alter g n d n = g (d n).
Proof. apply fn_lookup_alter. Qed.

Lemma alter_other (g : Element → Element) d n m :
  n ≠ m → alter g n d m = d m.
Proof. apply fn_lookup_alter_ne. Qed.

(** A [forEach] leaves the nodes outside its list alone. *)
Lemma forEach_from_other f ns k d n :
  n ∉ ns → forEach_from f ns k d n = d n.
Proof.
  revert k d. induction ns as [|m ns IH]; intros k d Hn; [done|].
  apply not_elem_of_cons in Hn as [Hne Hn].
  cbn [forEach_from]. rewrite IH by done.
  by apply alter_other.
Qed.

(** On a list without repetition it applies the body once, with the
    node's position. *)
Lemma forEach_from_at f ns k d n j :
  NoDup ns → ns !! j = Some n →
  forEach_from f ns k d n = f (k + j)%nat n (d n).
Proof.
  revert k d j. induction ns as [|m ns IH]; intros k d j Hnd Hj; [done|].
  apply NoDup_cons in Hnd as [Hm Hnd]. destruct j as [|j]; cbn [forEach_from].
  - cbn in Hj. simplify_eq. rewrite forEach_from_other by done.
    rewrite alter_at. by rewrite Nat.add_0_r.
  - cbn in Hj. rewrite (IH _ _ j) by done.
    rewrite alter_other.
    + f_equal. lia.
    + intros ->. apply Hm. by eapply list_elem_of_lookup_2.
Qed.

Lemma forEach_other f ns d n : n ∉ ns → forEach f ns d n = d n.
Proof. apply forEach_from_other. Qed.

Lemma forEach_at f ns d n j :
  NoDup ns → ns !! j = Some n → forEach f ns d n = f j n (d n).
Proof. intros. unfold forEach. by erewrite forEach_from_at. Qed.

(** Whatever the list, a property of elements that every body call
    preserves is preserved by the whole loop. *)
Lemma forEach_from_preserves (P : Element → Prop) f ns k d n :
  (∀ i m e, P e → P (f i m e)) → P (d n) → P (forEach_from f ns k d n).
Proof.
  intros Hf. revert k d. induction ns as [|m ns IH]; intros k d Hd; [done|].
  cbn [forEach_from]. apply IH. destruct (decide (m = n)) as [->|Hne].
  - rewrite alter_at. by apply Hf.
  - by rewrite alter_other.
Qed.

Lemma findIndex_from_spec {A} (p : A → bool) (l : list A) (k : Z) (i : nat) :
  (i < length l)%nat →
  (∀ j x, l !! j = Some x → p x = bool_decide (j = i)) →
  findIndex_from p l k = k + Z.of_nat i.
Proof.
  revert k i. induction l as [|x l IH]; intros k i Hi Hp; cbn in *; [lia|].
  pose proof (Hp 0%nat x eq_refl) as H0. destruct i as [|i].
  - rewrite H0, bool_decide_eq_true_2 by done. lia.
  - rewrite H0, bool_decide_eq_false_2 by done.
    rewrite (IH (k + 1) i); [lia | lia |].
    intros j y Hj. rewrite (Hp (S j) y Hj).
    apply bool_decide_ext. lia.
Qed.

Lemma findIndex_spec {A} (p : A → bool) (l : list A) (i : nat) :
  (i < length l)%nat →
  (∀ j x, l !! j = Some x → p x = bool_decide (j = i)) →
  findIndex p l = Z.of_nat i.
Proof. intros. unfold findIndex. by erewrite findIndex_from_spec. Qed.

Lemma findIndex_from_range {A} (p : A → bool) (l : list A) (k : Z) :
  findIndex_from p l k = -1 ∨
  k <= findIndex_from p l k < k + Z.of_nat (length l).
Proof.
  revert k. induction l as [|x l IH]; intros k; cbn; [by left|].
  destruct (p x); [right; lia|].
  destruct (IH (k + 1)) as [->|?]; [by left | right; lia].
Qed.

Lemma item_Some {A} (l : list A) (index : Z) (x : A) :
  item l index = Some x ↔ 0 <= index ∧ l !! Z.to_nat index = Some x.
Proof.
  unfold item. destruct (0 <=? index) eqn:E.
  - apply Z.leb_le in E. tauto.
  - apply Z.leb_gt in E. split; [done | lia].
Qed.

Lemma item_None {A} (l : list A) (index : Z) :
  item l index = None ↔ index < 0 ∨ Z.of_nat (length l) <= index.
Proof.
  unfold item. destruct (0 <=? index) eqn:E.
  - apply Z.leb_le in E. rewrite lookup_ge_None. lia.
  - apply Z.leb_gt in E. split; [lia | done].
Qed.

End DomFacts.

(** ** The gallery *)

Section GalleryFacts.

Implicit Types (w : World) (index : Z) (n : node).

Lemma with_dom_id w : with_dom (dom w) w = w.
Proof. by destruct w. Qed.

(** [switchScreenshotTab] never throws and writes to the document
    only. *)
Lemma switch_normal index w :
  switchScreenshotTab index w =
  Normal (with_dom (dom (world_of (switchScreenshotTab index w))) w).
Proof.
  unfold switchScreenshotTab.
  case_bool_decide; [by rewrite with_dom_id|].
  case_bool_decide as Hitem; [by rewrite with_dom_id|].
  destruct (item _ index) as [tab|]; [|done]. cbn.
  destruct (screenshotCaption (elements w)); [|done].
  by destruct (_ ≫= _).
Qed.

Lemma switch_out_of_range index w :
  index < 0 ∨ Z.of_nat (length (screenshotTabs (elements w))) <= index →
  switchScreenshotTab index w = Normal w.
Proof.
  intros Hout. unfold switchScreenshotTab.
  case_bool_decide; [done|].
  apply item_None in Hout. by rewrite Hout, bool_decide_eq_true_2.
Qed.

Lemma mark_tab_active index j n e :
  contains "active" (mark_tab index j n e) = (Z.of_nat j =? index).
Proof. unfold mark_tab, contains. cbn. apply contains_toggle. Qed.

Lemma mark_tab_selected index j n e :
  getAttribute "aria-selected" (mark_tab index j n e) =
  Some (bool_str (Z.of_nat j =? index)).
Proof.
  unfold mark_tab, getAttribute. cbn.
  rewrite lookup_insert_ne by done. by rewrite lookup_insert_eq.
Qed.

Lemma mark_tab_tabindex index j n e :
  getAttribute "tabindex" (mark_tab index j n e) =
  Some (if Z.of_nat j =? index then "0" else "-1").
Proof. unfold mark_tab, getAttribute. cbn. by rewrite lookup_insert_eq. Qed.

(** The state of a tab after a switch to an index in range: the first
    loop's body applied once, and a new text in case the tab is also the
    caption element. *)
Lemma switch_tab w index j n :
  gallery_wf w →
  0 <= index < Z.of_nat (length (screenshotTabs (elements w))) →
  screenshotTabs (elements w) !! j = Some n →
  let e := mark_tab index j n (dom w n) in
  dom (world_of (switchScreenshotTab index w)) n = e ∨
  ∃ text, dom (world_of (switchScreenshotTab index w)) n = set_textContent text e.
Proof.
  intros [Hnd Hdisj] Hrange Hj e. subst e.
  unfold switchScreenshotTab.
  rewrite bool_decide_eq_false_2 by lia.
  destruct (item _ index) as [tab|] eqn:Hitem;
    [|apply item_None in Hitem; lia].
  rewrite bool_decide_eq_false_2 by done. cbn.
  assert (Hd : ∀ target,
    forEach (mark_screenshot target) (screenshots (elements w))
      (forEach (mark_tab index) (screenshotTabs (elements w)) (dom w)) n =
    mark_tab index j n (dom w n)).
  { intros target. rewrite forEach_other.
    - by apply forEach_at.
    - apply Hdisj. by eapply list_elem_of_lookup_2. }
  destruct (screenshotCaption (elements w)) as [cap|]; [|left; apply Hd].
  destruct (_ ≫= _) as [text|]; [|left; apply Hd]. cbn.
  destruct (decide (cap = n)) as [->|Hne].
  - right. exists text. by rewrite alter_at, Hd.
  - left. by rewrite alter_other, Hd.
Qed.

Lemma switch_tab_active w index j n :
  gallery_wf w →
  0 <= index < Z.of_nat (length (screenshotTabs (elements w))) →
  screenshotTabs (elements w) !! j = Some n →
  contains "active" (dom (world_of (switchScreenshotTab index w)) n) =
  (Z.of_nat j =? index).
Proof.
  intros Hwf Hr Hj.
  destruct (switch_tab w index j n Hwf Hr Hj) as [-> | [text ->]];
    apply mark_tab_active.
Qed.

Lemma switch_tab_attribute w index j n :
  gallery_wf w →
  0 <= index < Z.of_nat (length (screenshotTabs (elements w))) →
  screenshotTabs (elements w) !! j = Some n →
  getAttribute "aria-selected" (dom (world_of (switchScreenshotTab index w)) n) =
  Some (bool_str (Z.of_nat j =? index)).
Proof.
  intros Hwf Hr Hj.
  destruct (switch_tab w index j n Hwf Hr Hj) as [-> | [text ->]];
    apply mark_tab_selected.
Qed.

Lemma switch_elements index w :
  elements (world_of (switchScreenshotTab index w)) = elements w.
Proof. by rewrite switch_normal. Qed.

Lemma switch_wf index w :
  gallery_wf w → gallery_wf (world_of (switchScreenshotTab index w)).
Proof. intros [??]. split; by rewrite switch_elements. Qed.

(** Reading the active index after a switch in range gives it back. *)
Lemma switch_getActive w (i : nat) :
  gallery_wf w →
  (i < length (screenshotTabs (elements w)))%nat →
  getActiveScreenshotIndex (world_of (switchScreenshotTab (Z.of_nat i) w)) =
  Z.of_nat i.
Proof.
  intros Hwf Hi. unfold getActiveScreenshotIndex.
  rewrite switch_elements. apply findIndex_spec; [done|].
  intros j n Hj. rewrite (switch_tab_active w _ j) by (done || lia).
  destruct (Z.eqb_spec (Z.of_nat j) (Z.of_nat i)).
  - by rewrite bool_decide_eq_true_2 by lia.
  - by rewrite bool_decide_eq_false_2 by lia.
Qed.

Lemma filter_none {A} (P : A → Prop) `{!∀ x, Decision (P x)} (l : list A) :
  (∀ j x, l !! j = Some x → ¬ P x) → filter P l = [].
Proof.
  induction l as [|x l IH]; intros HP; [done|].
  rewrite filter_cons_False by apply (HP 0%nat x eq_refl).
  apply IH. intros j y Hj. apply (HP (S j) y Hj).
Qed.

(** Counting the entries that pass a test true at exactly one
    position. *)
Lemma count_single {A} (P : A → Prop) `{!∀ x, Decision (P x)} (l : list A) (i : nat) :
  (i < length l)%nat →
  (∀ j x, l !! j = Some x → P x ↔ j = i) →
  length (filter P l) = 1%nat.
Proof.
  revert i. induction l as [|x l IH]; intros i Hi HP; cbn in Hi; [lia|].
  pose proof (HP 0%nat x eq_refl) as H0. destruct i as [|i].
  - rewrite filter_cons_True by (by apply H0). cbn. f_equal.
    rewrite filter_none; [done|].
    intros j y Hj Hy. by apply (HP (S j) y Hj) in Hy.
  - rewrite filter_cons_False by (rewrite H0; lia).
    apply (IH i); [lia|]. intros j y Hj. rewrite (HP (S j) y Hj). lia.
Qed.

Lemma switch_active_count w (i : nat) :
  gallery_wf w →
  (i < length (screenshotTabs (elements w)))%nat →
  active_count (world_of (switchScreenshotTab (Z.of_nat i) w)) = 1%nat.
Proof.
  intros Hwf Hi. unfold active_count. rewrite switch_elements.
  apply (count_single _ _ i); [done|].
  intros j n Hj. rewrite (switch_tab_active w _ j) by (done || lia).
  rewrite Z.eqb_eq. lia.
Qed.

End GalleryFacts.

(** ** What each listener leaves alone *)

Section Frames.

Implicit Types (w : World) (n : node) (c : string).

Lemma alter_keeps c (g : Element → Element) m (d : Dom.t) n :
  (∀ e, contains c (g e) = contains c e) →
  contains c (alter g m d n) = contains c (d n).
Proof.
  intros Hg. destruct (decide (m = n)) as [->|Hne].
  - by rewrite alter_at.
  - by rewrite alter_other.
Qed.

Lemma forEach_keeps c f ns (d : Dom.t) n :
  (∀ i m e, contains c (f i m e) = contains c e) →
  contains c (forEach f ns d n) = contains c (d n).
Proof.
  intros Hf.
  apply (forEach_from_preserves (λ e, contains c e = contains c (d n))); [|done].
  intros i m e <-. apply Hf.
Qed.

Lemma mark_tab_keeps c index i m e :
  c ≠ "active" → contains c (mark_tab index i m e) = contains c e.
Proof. intros. unfold mark_tab, contains. cbn. by apply contains_toggle_ne. Qed.

Lemma mark_screenshot_keeps c target i m e :
  c ≠ "active" → contains c (mark_screenshot target i m e) = contains c e.
Proof. intros. by apply contains_toggle_ne. Qed.

(** A switch writes to the document only, and of the classes only
    [active]. *)
Lemma switch_shape index w :
  ∃ d, switchScreenshotTab index w = Normal (with_dom d w) ∧
       ∀ c n, c ≠ "active" → contains c (d n) = contains c (dom w n).
Proof.
  unfold switchScreenshotTab.
  case_bool_decide; [exists (dom w); by rewrite with_dom_id|].
  case_bool_decide; [exists (dom w); by rewrite with_dom_id|].
  destruct (item _ index) as [tab|]; [|done]. cbn.
  set (d2 := forEach _ (screenshots _) _).
  assert (Hd2 : ∀ c n, c ≠ "active" → contains c (d2 n) = contains c (dom w n)).
  { intros c n Hc. subst d2. rewrite forEach_keeps, forEach_keeps; [done| |].
    - intros. by apply mark_tab_keeps.
    - intros. by apply mark_screenshot_keeps. }
  destruct (screenshotCaption (elements w)) as [cap|]; [|by exists d2].
  destruct (_ ≫= _) as [text|]; [|by exists d2].
  eexists. split; [done|]. intros c n Hc.
  rewrite alter_keeps by done. by apply Hd2.
Qed.

(** The observer callback adds [visible] to targets and forgets them;
    nothing else changes. *)
Lemma reveal_fold entries w :
  let w' := foldl reveal_entry w entries in
  elements w' = elements w ∧ state w' = state w ∧ timers w' = timers w ∧
  window w' = window w ∧ touch w' = touch w ∧
  (∀ c n, c ≠ "visible" → contains c (dom w' n) = contains c (dom w n)) ∧
  (∀ n, contains "visible" (dom w n) = true → contains "visible" (dom w' n) = true).
Proof.
  revert w. induction entries as [|[m b] entries IH]; intros w; [done|].
  cbn [foldl]. destruct (IH (reveal_entry w (m, b))) as (He & Hs & Ht & Hw & Hto & Hc & Hv).
  cbn zeta. rewrite He, Hs, Ht, Hw, Hto.
  unfold reveal_entry in *. cbn [fst snd] in *. destruct b; cbn in *.
  - repeat split; try done.
    + intros c n Hne. rewrite Hc by done. apply alter_keeps.
      intros e. by apply contains_add_ne.
    + intros n Hn. apply Hv.
      destruct (decide (m = n)) as [->|Hne].
      * rewrite alter_at. apply contains_add.
      * by rewrite alter_other.
  - repeat split; done.
Qed.

Lemma stop_shape w :
  stopScreenshotAutoplay w = Normal w ∨
  ∃ h, screenshotAutoplay (state w) = Some h ∧ h ≠ 0 ∧
    stopScreenshotAutoplay w =
    Normal (with_state (set_screenshotAutoplay None (state w))
              (with_timers (clearInterval h (timers w)) w)).
Proof.
  unfold stopScreenshotAutoplay.
  destruct (screenshotAutoplay (state w)) as [h|]; [|by left]. cbn.
  destruct (Z.eqb_spec h 0); cbn; [by left|]. right. by exists h.
Qed.

Lemma start_shape w :
  startScreenshotAutoplay w = Normal w ∨
  truthy (screenshotAutoplay (state w)) = false ∧ prefersReducedMotion w = false ∧
  startScreenshotAutoplay w =
    Normal (with_state (set_screenshotAutoplay (Some (nextHandle (timers w))) (state w))
              (with_timers (setInterval (timers w)).2 w)).
Proof.
  unfold startScreenshotAutoplay.
  destruct (truthy _) eqn:Ht; [by left|].
  destruct (prefersReducedMotion w) eqn:Hr; [by left|]. by right.
Qed.

(** The navbar handler writes the navbar's [scrolled] class and
    transform, and the two state fields it owns. *)
Lemma navbar_shape w :
  ∃ d hid, handleNavbarScroll w =
    Normal (with_state (set_navbar hid (match navbar (elements w) with
                                        | Some _ => scrollY (window w)
                                        | None => lastScrollY (state w)
                                        end) (state w))
              (with_dom d w)) ∧
    (navbar (elements w) = None → hid = isNavbarHidden (state w)) ∧
    ∀ c n, c ≠ "scrolled" → contains c (d n) = contains c (dom w n).
Proof.
  unfold handleNavbarScroll. destruct (navbar (elements w)) as [nav|].
  - set (d := alter (toggle "scrolled" _) nav (dom w)).
    assert (Hd : ∀ c n, c ≠ "scrolled" → contains c (d n) = contains c (dom w n)).
    { intros c n Hc. apply alter_keeps. intros e. by apply contains_toggle_ne. }
    assert (Ht : ∀ s c n, c ≠ "scrolled" →
      contains c (alter (set_transform s) nav d n) = contains c (dom w n)).
    { intros s c n Hc. rewrite alter_keeps by done. by apply Hd. }
    repeat case_match; simplify_eq; eexists _, _; (split; [done|]); split; try done; auto.
  - exists (dom w), (isNavbarHidden (state w)). split; [|done].
    by destruct w as [? ? [] ? ? ? ?].
Qed.

(** The ring update writes the stroke offset of the ring and nothing
    else. *)
Lemma progress_shape w :
  ∃ d, updateScrollProgress w = Normal (with_dom d w) ∧
    (∀ c n, contains c (d n) = contains c (dom w n)) ∧
    (∀ n, progressRing (elements w) ≠ Some n → d n = dom w n).
Proof.
  unfold updateScrollProgress. destruct (progressRing (elements w)) as [ring|].
  - eexists. split; [done|]. split.
    + intros c n. by apply alter_keeps.
    + intros n Hn. apply alter_other. congruence.
  - exists (dom w). by rewrite with_dom_id.
Qed.

Lemma backToTop_shape w :
  ∃ d b, handleBackToTop w =
    Normal (with_state (set_hasShownBackToTop b (state w)) (with_dom d w)) ∧
    (∀ c n, c ≠ "visible" → c ≠ "pulse" → contains c (d n) = contains c (dom w n)) ∧
    (∀ c n, backToTopBtn (elements w) ≠ Some n → contains c (d n) = contains c (dom w n)).
Proof.
  assert (Hring : ∀ d b,
    (∀ c n, c ≠ "visible" → c ≠ "pulse" → contains c (d n) = contains c (dom w n)) →
    (∀ c n, backToTopBtn (elements w) ≠ Some n → contains c (d n) = contains c (dom w n)) →
    ∃ d' b', Normal (with_state (set_hasShownBackToTop b (state w)) (with_dom d w))
               ;;; updateScrollProgress =
      Normal (with_state (set_hasShownBackToTop b' (state w)) (with_dom d' w)) ∧
      (∀ c n, c ≠ "visible" → c ≠ "pulse" → contains c (d' n) = contains c (dom w n)) ∧
      (∀ c n, backToTopBtn (elements w) ≠ Some n →
         contains c (d' n) = contains c (dom w n))).
  { intros d b H1 H2. cbn [bind].
    destruct (progress_shape (with_state (set_hasShownBackToTop b (state w)) (with_dom d w)))
      as (d' & -> & Hc & _).
    exists d', b. split; [done|]. split.
    - intros c n ??. rewrite Hc. by apply H1.
    - intros c n ?. rewrite Hc. by apply H2. }
  unfold handleBackToTop. destruct (backToTopBtn (elements w)) as [btn|].
  - assert (Hv : ∀ c g n, Some btn ≠ Some n →
      contains c (alter g btn (dom w) n) = contains c (dom w n)).
    { intros c g n Hn. rewrite alter_other; [done|congruence]. }
    match goal with |- ∃ d b, ?r ;;; _ = _ ∧ _ =>
      assert (Hr : ∃ d b, r =
        Normal (with_state (set_hasShownBackToTop b (state w)) (with_dom d w)) ∧
        (∀ c n, c ≠ "visible" → c ≠ "pulse" → contains c (d n) = contains c (dom w n)) ∧
        (∀ c n, Some btn ≠ Some n → contains c (d n) = contains c (dom w n)));
      [|destruct Hr as (d & b & -> & H1 & H2); by apply Hring]
    end.
    repeat case_match.
    + exists (alter (add "pulse") btn (alter (add "visible") btn (dom w))), true.
      split; [done|]. split.
      * intros c n ??. rewrite !alter_keeps; [done | |];
          intros e; by apply contains_add_ne.
      * intros c n Hn. rewrite alter_other by congruence. by apply Hv.
    + exists (alter (add "visible") btn (dom w)), (hasShownBackToTop (state w)).
      split; [by destruct w as [? ? [] ? ? ? ?]|]. split.
      * intros c n ??. apply alter_keeps. intros e. by apply contains_add_ne.
      * intros. by apply Hv.
    + exists (alter (remove "visible") btn (dom w)), (hasShownBackToTop (state w)).
      split; [by destruct w as [? ? [] ? ? ? ?]|]. split.
      * intros c n ??. apply alter_keeps. intros e. by apply contains_remove_ne.
      * intros. by apply Hv.
    + exists (dom w), (hasShownBackToTop (state w)).
      split; [by destruct w as [? ? [] ? ? ? ?]|]. done.
  - exists (dom w), (hasShownBackToTop (state w)).
    split; [by destruct w as [? ? [] ? ? ? ?]|]. done.
Qed.

Lemma pulse_shape w :
  backToTopBtn (elements w) ≠ None →
  ∃ d, pulse_timeout w = Normal (with_dom d w) ∧
    ∀ c n, c ≠ "pulse" → contains c (d n) = contains c (dom w n).
Proof.
  intros Hb. unfold pulse_timeout. destruct (backToTopBtn (elements w)) as [btn|]; [|done].
  cbn. eexists. split; [done|]. intros c n Hc.
  apply alter_keeps. intros e. by apply contains_remove_ne.
Qed.

End Frames.

(** ** Invariants of the event loop *)

Section Invariants.

Implicit Types (w : World) (ev : Event) (n : node).

Lemma one_active_ext w w' :
  elements w' = elements w →
  (∀ n, contains "active" (dom w' n) = contains "active" (dom w n)) →
  one_active w → one_active w'.
Proof.
  intros He Hc [[Hnd Hdisj] (i & Hi & Hact)]. split.
  - split; by rewrite He.
  - exists i. rewrite He. split; [done|]. intros j n Hj. rewrite Hc. by apply Hact.
Qed.

Lemma one_active_switch index w :
  one_active w → one_active (world_of (switchScreenshotTab index w)).
Proof.
  intros Hone.
  destruct (decide (0 <= index < Z.of_nat (length (screenshotTabs (elements w)))))
    as [Hr|Hr].
  - destruct Hone as [Hwf _]. split; [by apply switch_wf|].
    exists (Z.to_nat index). rewrite switch_elements. split; [lia|].
    intros j n Hj. rewrite (switch_tab_active w index j) by done.
    destruct (Z.eqb_spec (Z.of_nat j) index).
    + by rewrite bool_decide_eq_true_2 by lia.
    + by rewrite bool_decide_eq_false_2 by lia.
  - rewrite switch_out_of_range by lia. done.
Qed.

Lemma one_active_reads w :
  one_active w →
  active_count w = 1%nat ∧
  0 <= getActiveScreenshotIndex w < Z.of_nat (length (screenshotTabs (elements w))).
Proof.
  intros [_ (i & Hi & Hact)]. split.
  - apply (count_single _ _ i); [done|]. intros j n Hj.
    rewrite (Hact j n Hj). by rewrite bool_decide_eq_true.
  - unfold getActiveScreenshotIndex. rewrite (findIndex_spec _ _ i); [lia|done|done].
Qed.

Lemma handle_one_active ev w :
  one_active w → one_active (world_of (handle ev w)).
Proof.
  intros Hone. destruct ev; cbn [handle].
  - unfold handleScroll.
    set (w1 := with_window _ w).
    destruct (navbar_shape w1) as (d1 & hid & -> & _ & Hd1). cbn [bind].
    set (w2 := with_state _ _).
    destruct (backToTop_shape w2) as (d2 & b & -> & Hd2 & _). cbn [world_of].
    eapply one_active_ext; [| |exact Hone]; [done|]. cbn.
    intros n. rewrite Hd2 by done. by apply Hd1.
  - exact Hone.
  - case_match; [|exact Hone].
    destruct (stop_shape (with_window (set_reducedMotion reduced (window w)) w))
      as [->|(h & _ & _ & ->)]; exact Hone.
  - case_match; [|exact Hone].
    destruct (stop_shape (with_window (set_hidden hid (window w)) w))
      as [->|(h & _ & _ & ->)]; exact Hone.
  - case_match; [|exact Hone].
    destruct (stop_shape w) as [->|(h & _ & _ & ->)]; exact Hone.
  - case_match; [|exact Hone].
    destruct (stop_shape w) as [->|(h & _ & _ & ->)]; exact Hone.
  - case_match; [|exact Hone]. unfold touchstart.
    match goal with |- context [stopScreenshotAutoplay ?v] =>
      destruct (stop_shape v) as [->|(h & _ & _ & ->)] end; exact Hone.
  - case_match; [|exact Hone]. unfold touchend, handleSwipe.
    case_match; [exact Hone|]. apply one_active_switch. exact Hone.
  - case_match; [|exact Hone]. by apply one_active_switch.
  - case_match; [|exact Hone]. unfold tab_keydown, deref.
    repeat case_match; try exact Hone; by apply one_active_switch.
  - case_match; [|exact Hone]. unfold autoplay_tick. case_match; [exact Hone|].
    by apply one_active_switch.
  - unfold revealObserver_callback. cbn [world_of].
    match goal with |- context [foldl reveal_entry w ?es] =>
      destruct (reveal_fold es w) as (He & _ & _ & _ & _ & Hc & _) end.
    eapply one_active_ext; [exact He | | exact Hone].
    intros n. by apply Hc.
  - case_bool_decide as Hb; [|exact Hone].
    destruct (pulse_shape w Hb) as (d & -> & Hd).
    eapply one_active_ext; [| |exact Hone]; [done|]. intros n. by apply Hd.
  - destruct (start_shape w) as [->|(_ & _ & ->)]; exact Hone.
Qed.

Lemma run_one_active evs w : one_active w → one_active (run evs w).
Proof.
  revert w. induction evs as [|ev evs IH]; intros w Hone; [done|].
  apply IH. by apply handle_one_active.
Qed.

Lemma stop_autoplay_ok w :
  autoplay_ok w → autoplay_ok (world_of (stopScreenshotAutoplay w)).
Proof.
  intros Hok. destruct (stop_shape w) as [->|(h & Hh & Hne & ->)]; [done|].
  destruct Hok as [Hpos Hok]. rewrite Hh in Hok. split; [done|]. cbn.
  destruct Hok as [-> _]. rewrite filter_cons_False by (intros ?; done). done.
Qed.

Lemma start_autoplay_ok w :
  autoplay_ok w → autoplay_ok (world_of (startScreenshotAutoplay w)).
Proof.
  intros Hok. destruct (start_shape w) as [->|(Ht & _ & ->)]; [done|].
  destruct Hok as [Hpos Hok]. split; cbn; [lia|].
  destruct (screenshotAutoplay (state w)) as [h|].
  - cbn in Ht. destruct Hok as [_ Hh]. apply negb_false_iff, Z.eqb_eq in Ht. lia.
  - rewrite Hok. split; [done|lia].
Qed.

(** What no event changes, and what every event maintains: the
    [elements] table, [state.scrollDirection], and the agreement
    between the autoplay handle and the timers. *)
Local Ltac same_control :=
  split; [reflexivity | split; [reflexivity | intros Hok; exact Hok]].

Lemma handle_control ev w :
  let w' := world_of (handle ev w) in
  elements w' = elements w ∧
  scrollDirection (state w') = scrollDirection (state w) ∧
  (autoplay_ok w → autoplay_ok w').
Proof.
  assert (Hstop : ∀ v, let v' := world_of (stopScreenshotAutoplay v) in
    elements v' = elements v ∧
    scrollDirection (state v') = scrollDirection (state v) ∧
    (autoplay_ok v → autoplay_ok v')).
  { intros v. split; [|split]; [..|apply stop_autoplay_ok];
      by destruct (stop_shape v) as [->|(h & _ & _ & ->)]. }
  assert (Hswitch : ∀ index v, let v' := world_of (switchScreenshotTab index v) in
    elements v' = elements v ∧
    scrollDirection (state v') = scrollDirection (state v) ∧
    (autoplay_ok v → autoplay_ok v')).
  { intros index v. destruct (switch_shape index v) as (d & -> & _). same_control. }
  destruct ev; cbn [handle]; cbn zeta.
  - unfold handleScroll.
    set (w1 := with_window _ w).
    destruct (navbar_shape w1) as (d1 & hid & -> & _ & _). cbn [bind].
    set (w2 := with_state _ _).
    destruct (backToTop_shape w2) as (d2 & b & -> & _ & _). same_control.
  - same_control.
  - case_match; [|same_control]. apply (Hstop (with_window _ w)).
  - case_match; [|same_control]. apply (Hstop (with_window _ w)).
  - case_match; [|same_control]. apply Hstop.
  - case_match; [|same_control]. apply Hstop.
  - case_match; [|same_control]. apply (Hstop (with_touch _ w)).
  - case_match; [|same_control]. unfold touchend, handleSwipe.
    case_match; [same_control|]. apply (Hswitch _ (with_touch _ w)).
  - case_match; [|same_control]. apply Hswitch.
  - case_match; [|same_control]. unfold tab_keydown, deref.
    repeat case_match; try same_control; apply Hswitch.
  - case_match; [|same_control]. unfold autoplay_tick.
    case_match; [same_control|]. apply Hswitch.
  - unfold revealObserver_callback. cbn [world_of].
    match goal with |- context [foldl reveal_entry w ?es] =>
      destruct (reveal_fold es w) as (He & Hs & Ht & _) end.
    unfold autoplay_ok. by rewrite He, Hs, Ht.
  - case_bool_decide as Hb; [|same_control].
    destruct (pulse_shape w Hb) as (d & -> & _). same_control.
  - split; [|split]; [..|apply start_autoplay_ok];
      by destruct (start_shape w) as [->|(_ & _ & ->)].
Qed.

Lemma run_control evs w :
  elements (run evs w) = elements w ∧
  scrollDirection (state (run evs w)) = scrollDirection (state w) ∧
  (autoplay_ok w → autoplay_ok (run evs w)).
Proof.
  revert w. induction evs as [|ev evs IH]; intros w; [done|].
  cbn [run foldl]. destruct (IH (world_of (handle ev w))) as (He & Hd & Hok).
  destruct (handle_control ev w) as (He' & Hd' & Hok').
  fold (run evs (world_of (handle ev w))).
  rewrite He, Hd, He', Hd'. auto.
Qed.

End Invariants.

(** ** The sample page *)

Lemma sample_wf : gallery_wf sample.
Proof.
  split.
  - apply NoDup_seq.
  - intros n. cbn [sample elements sample_elements screenshotTabs screenshots].
    rewrite !list_elem_of_In, !in_seq. lia.
Qed.

Lemma sample_one_active : one_active sample.
Proof.
  split; [apply sample_wf|]. exists 0%nat. split; [cbn; lia|].
  intros j n Hj. cbn in Hj.
  do 7 (destruct j as [|j]; [injection Hj as <-; by vm_compute|]). done.
Qed.

Lemma sample_autoplay_ok : autoplay_ok sample.
Proof. by split. Qed.

(** ** Selecting a tab *)

(** C10. A call with an index outside [0, N) (negative, at least N, any
    index when there is no tab) completes normally and returns the world
    it was given: no class, attribute or caption text has changed. *)
Theorem switchScreenshotTab_out_of_range (w : World) (index : Z) :
  index < 0 ∨ Z.of_nat (length (screenshotTabs (elements w))) <= index →
  switchScreenshotTab index w = Normal w.
Proof. apply switch_out_of_range. Qed.

Lemma switchScreenshotTab_out_of_range_witness :
  switchScreenshotTab 7 sample = Normal sample ∧
  switchScreenshotTab (-1) sample = Normal sample.
Proof.
  split; apply switchScreenshotTab_out_of_range; cbn; lia.
Defined.

(** C2. On a gallery of N tabs, [switchScreenshotTab(i)] with i in
    [0, N) completes normally and leaves tab i as the only tab with the
    class [active], with [aria-selected] "true" on tab i and "false" on
    the others; reading the active index then yields i; and from then on,
    whatever events follow, exactly one tab is active and the active
    index stays in [0, N). The gallery's markup is assumed to list each
    tab once and to keep tabs and gallery images apart. *)
Theorem switchScreenshotTab_unique_active (w : World) (i : nat) :
  gallery_wf w →
  (i < length (screenshotTabs (elements w)))%nat →
  let r := switchScreenshotTab (Z.of_nat i) w in
  let N := length (screenshotTabs (elements w)) in
  threw r = false ∧
  (∀ j, (j < N)%nat →
     tab_active (world_of r) j = bool_decide (j = i) ∧
     tab_attribute "aria-selected" (world_of r) j =
       Some (if bool_decide (j = i) then "true" else "false")) ∧
  active_count (world_of r) = 1%nat ∧
  getActiveScreenshotIndex (world_of r) = Z.of_nat i ∧
  ∀ evs, let w' := run evs (world_of r) in
    length (screenshotTabs (elements w')) = N ∧
    active_count w' = 1%nat ∧
    0 <= getActiveScreenshotIndex w' < Z.of_nat N.
Proof.
  intros Hwf Hi r N. subst r N.
  assert (Hone : one_active (world_of (switchScreenshotTab (Z.of_nat i) w))).
  { split; [by apply switch_wf|]. exists i. rewrite switch_elements. split; [done|].
    intros j n Hj. rewrite (switch_tab_active w _ j) by (done || lia).
    destruct (Z.eqb_spec (Z.of_nat j) (Z.of_nat i)).
    - by rewrite bool_decide_eq_true_2 by lia.
    - by rewrite bool_decide_eq_false_2 by lia. }
  split; [by rewrite switch_normal|]. split; [|split; [|split]].
  - intros j Hj. unfold tab_active, tab_attribute. rewrite switch_elements.
    destruct (lookup_lt_is_Some_2 _ _ Hj) as [n Hn]. rewrite Hn. cbn.
    rewrite (switch_tab_active w _ j), (switch_tab_attribute w _ j) by (done || lia).
    destruct (Z.eqb_spec (Z.of_nat j) (Z.of_nat i)).
    + by rewrite !bool_decide_eq_true_2 by lia.
    + by rewrite !bool_decide_eq_false_2 by lia.
  - by apply switch_active_count.
  - by apply switch_getActive.
  - intros evs w'. subst w'.
    pose proof (run_one_active evs _ Hone) as Hrun.
    apply one_active_reads in Hrun as [Hc Hr].
    destruct (run_control evs (world_of (switchScreenshotTab (Z.of_nat i) w)))
      as (He & _ & _).
    rewrite He, switch_elements in *. done.
Qed.

Lemma switchScreenshotTab_unique_active_witness :
  gallery_wf sample ∧
  (3 < length (screenshotTabs (elements sample)))%nat ∧
  tab_active (world_of (switchScreenshotTab 3 sample)) 3 = true ∧
  tab_active (world_of (switchScreenshotTab 3 sample)) 0 = false ∧
  active_count (world_of (switchScreenshotTab 3 sample)) = 1%nat ∧
  getActiveScreenshotIndex (world_of (switchScreenshotTab 3 sample)) = 3.
Proof.
  assert (Hlt : (3 < length (screenshotTabs (elements sample)))%nat) by (cbn; lia).
  destruct (switchScreenshotTab_unique_active sample 3 sample_wf Hlt)
    as (_ & Htabs & Hcount & Hread & _).
  split; [exact sample_wf|]. split; [exact Hlt|].
  split; [apply (Htabs 3%nat); cbn; lia|].
  split; [apply (Htabs 0%nat); cbn; lia|].
  split; [exact Hcount | exact Hread].
Defined.

(** ** Keyboard navigation *)

Lemma keydown_goto (w : World) (index : Z) :
  gallery_wf w →
  0 <= index < Z.of_nat (length (screenshotTabs (elements w))) →
  let r := deref (item (screenshotTabs (elements w)) index)
             (λ _, switchScreenshotTab index) w in
  threw r = false ∧ getActiveScreenshotIndex (world_of r) = index.
Proof.
  intros Hwf Hr r. subst r.
  destruct (item _ index) as [n|] eqn:Hitem; [|apply item_None in Hitem; lia].
  cbn [deref]. split; [by rewrite switch_normal|].
  rewrite <- (Z2Nat.id index) at 1 2 by lia. rewrite switch_getActive; [lia|done|lia].
Qed.

(** C7. On a gallery of N tabs, a key pressed on the tab at index i in
    [0, N) selects: N-1 for "End", 0 for "Home", (i + 1) mod N for the
    right (or down) arrow, so 0 from N-1, and (i - 1 + N) mod N for the
    left (or up) arrow. The index i is the one of the tab whose listener
    receives the key, the [index] the listener closed over. *)
Theorem tab_keydown_selects (w : World) (i : nat) :
  gallery_wf w →
  (i < length (screenshotTabs (elements w)))%nat →
  let N := Z.of_nat (length (screenshotTabs (elements w))) in
  let selected key := getActiveScreenshotIndex (world_of (tab_keydown i key w)) in
  (∀ key, threw (tab_keydown i key w) = false) ∧
  selected "End" = N - 1 ∧
  selected "Home" = 0 ∧
  selected "ArrowRight" = (Z.of_nat i + 1) mod N ∧
  selected "ArrowDown" = (Z.of_nat i + 1) mod N ∧
  selected "ArrowLeft" = (Z.of_nat i - 1 + N) mod N ∧
  selected "ArrowUp" = (Z.of_nat i - 1 + N) mod N ∧
  (Z.of_nat i = N - 1 → selected "ArrowRight" = 0).
Proof.
  intros Hwf Hi N selected. subst selected.
  assert (Hnext : 0 <= Z.rem (Z.of_nat i + 1) N < N)
    by (rewrite Z.rem_mod_nonneg by lia; apply Z.mod_pos_bound; lia).
  assert (Hprev : 0 <= Z.rem (Z.of_nat i - 1 + N) N < N)
    by (rewrite Z.rem_mod_nonneg by lia; apply Z.mod_pos_bound; lia).
  assert (Hright : ∀ key, key = "ArrowRight" ∨ key = "ArrowDown" →
    getActiveScreenshotIndex (world_of (tab_keydown i key w)) = (Z.of_nat i + 1) mod N).
  { intros key Hk. unfold tab_keydown. rewrite bool_decide_eq_true_2 by done.
    fold N. rewrite (proj2 (keydown_goto w _ Hwf Hnext)).
    apply Z.rem_mod_nonneg; lia. }
  assert (Hleft : ∀ key, key = "ArrowLeft" ∨ key = "ArrowUp" →
    getActiveScreenshotIndex (world_of (tab_keydown i key w)) =
      (Z.of_nat i - 1 + N) mod N).
  { intros key Hk. unfold tab_keydown.
    rewrite bool_decide_eq_false_2 by (destruct Hk as [-> | ->]; intros [|]; done).
    rewrite bool_decide_eq_true_2 by done.
    fold N. rewrite (proj2 (keydown_goto w _ Hwf Hprev)).
    apply Z.rem_mod_nonneg; lia. }
  split; [|split; [|split; [|split; [|split; [|split; [|split]]]]]].
  - intros key. unfold tab_keydown. fold N.
    repeat case_bool_decide; try done; apply keydown_goto; (done || lia).
  - unfold tab_keydown. fold N. cbn -[item switchScreenshotTab getActiveScreenshotIndex N].
    apply keydown_goto; [done|lia].
  - unfold tab_keydown. cbn -[item switchScreenshotTab getActiveScreenshotIndex N].
    apply keydown_goto; [done|lia].
  - apply Hright. by left.
  - apply Hright. by right.
  - apply Hleft. by left.
  - apply Hleft. by right.
  - intros Hlast. rewrite Hright by (by left).
    replace (Z.of_nat i + 1) with N by lia. apply Z_mod_same_full.
Qed.

Lemma tab_keydown_selects_witness :
  gallery_wf sample ∧
  (6 < length (screenshotTabs (elements sample)))%nat ∧
  getActiveScreenshotIndex (world_of (tab_keydown 6 "ArrowRight" sample)) = 0 ∧
  getActiveScreenshotIndex (world_of (tab_keydown 6 "Home" sample)) = 0 ∧
  getActiveScreenshotIndex (world_of (tab_keydown 6 "End" sample)) = 6 ∧
  getActiveScreenshotIndex (world_of (tab_keydown 6 "ArrowLeft" sample)) = 5.
Proof.
  assert (Hlt : (6 < length (screenshotTabs (elements sample)))%nat) by (cbn; lia).
  destruct (tab_keydown_selects sample 6 sample_wf Hlt)
    as (_ & Hend & Hhome & _ & _ & Hleft & _ & Hwrap).
  split; [exact sample_wf|]. split; [exact Hlt|].
  split; [apply Hwrap; reflexivity|].
  split; [exact Hhome|]. split; [exact Hend | exact Hleft].
Defined.

(** ** Swipe gestures *)

Lemma touchstart_shape (x y : Z) (w : World) :
  let w' := world_of (touchstart x y w) in
  dom w' = dom w ∧ elements w' = elements w ∧
  touchStartX (touch w') = x ∧ touchStartY (touch w') = y.
Proof.
  unfold touchstart.
  match goal with |- context [stopScreenshotAutoplay ?v] =>
    destruct (stop_shape v) as [->|(h & _ & _ & ->)] end; done.
Qed.

Lemma getActive_ext (w w' : World) :
  dom w' = dom w → elements w' = elements w →
  getActiveScreenshotIndex w' = getActiveScreenshotIndex w.
Proof. unfold getActiveScreenshotIndex. by intros -> ->. Qed.

Lemma gallery_wf_ext (w w' : World) :
  elements w' = elements w → gallery_wf w → gallery_wf w'.
Proof. unfold gallery_wf. by intros ->. Qed.

(** C6, as the code has it. A touch that starts at (sx, sy) and ends at
    (ex, ey), with dx = sx - ex and dy = sy - ey, moves the gallery
    exactly when |dx| is at least the 50px threshold and |dy| does not
    exceed |dx| (both bounds inclusive). When it does, a positive dx
    (swipe left) selects (i + 1) mod N and a negative dx selects
    (i - 1 + N) mod N, where i is the active index; otherwise the
    document is left as it was. *)
Theorem swipe_resolution (w : World) (i : nat) (sx sy ex ey : Z) :
  gallery_wf w →
  swipe_listening w = true →
  (i < length (screenshotTabs (elements w)))%nat →
  getActiveScreenshotIndex w = Z.of_nat i →
  let N := Z.of_nat (length (screenshotTabs (elements w))) in
  let dx := sx - ex in
  let dy := sy - ey in
  let w' := run [TouchStart sx sy; TouchEnd ex ey] w in
  let dispatched := CONFIG.swipeThreshold <= Z.abs dx ∧ Z.abs dy <= Z.abs dx in
  (¬ dispatched → dom w' = dom w) ∧
  (dispatched → 0 < dx → getActiveScreenshotIndex w' = (Z.of_nat i + 1) mod N) ∧
  (dispatched → dx < 0 → getActiveScreenshotIndex w' = (Z.of_nat i - 1 + N) mod N) ∧
  (2 <= N → getActiveScreenshotIndex w' ≠ Z.of_nat i ↔ dispatched).
Proof.
  intros Hwf Hlisten Hi Hact N dx dy w' dispatched.
  unfold CONFIG.swipeThreshold in dispatched.
  subst w'. unfold run. cbn [foldl handle]. rewrite Hlisten.
  destruct (touchstart_shape sx sy w) as (Hd1 & He1 & Hx & Hy).
  set (w1 := world_of (touchstart sx sy w)) in *.
  assert (Hl1 : swipe_listening w1 = true) by (unfold swipe_listening; by rewrite He1).
  rewrite Hl1. unfold touchend, handleSwipe.
  set (w2 := with_touch _ w1).
  assert (Hact2 : getActiveScreenshotIndex w2 = Z.of_nat i)
    by (rewrite <- Hact; by apply getActive_ext).
  assert (Hwf2 : gallery_wf w2) by (by apply (gallery_wf_ext w)).
  change (touchStartX (touch w2)) with (touchStartX (touch w1)).
  change (touchStartY (touch w2)) with (touchStartY (touch w1)).
  change (touchEndX (touch w2)) with ex. change (touchEndY (touch w2)) with ey.
  change (elements w2) with (elements w1).
  rewrite Hx, Hy, He1, Hact2. fold dx dy N.
  unfold CONFIG.swipeThreshold.
  assert (Hnext : 0 <= Z.rem (Z.of_nat i + 1) N < N)
    by (rewrite Z.rem_mod_nonneg by lia; apply Z.mod_pos_bound; lia).
  assert (Hprev : 0 <= Z.rem (Z.of_nat i - 1 + N) N < N)
    by (rewrite Z.rem_mod_nonneg by lia; apply Z.mod_pos_bound; lia).
  assert (Hgo : ∀ index, 0 <= index < N →
    getActiveScreenshotIndex (world_of (switchScreenshotTab index w2)) = index).
  { intros index Hr. rewrite <- (Z2Nat.id index) at 1 2 by lia.
    rewrite switch_getActive; [lia|done|]. change (elements w2) with (elements w1).
    rewrite He1. fold N. lia. }
  assert (Hstay : ¬ dispatched →
    (¬ dispatched → dom w2 = dom w) ∧
    (dispatched → 0 < dx → getActiveScreenshotIndex w2 = (Z.of_nat i + 1) mod N) ∧
    (dispatched → dx < 0 → getActiveScreenshotIndex w2 = (Z.of_nat i - 1 + N) mod N) ∧
    (2 <= N → getActiveScreenshotIndex w2 ≠ Z.of_nat i ↔ dispatched)).
  { intros Hno. split; [intros _; exact Hd1|]. split; [done|]. split; [done|].
    intros _. rewrite Hact2. split; [done|]. intros Hyes. by destruct Hno. }
  destruct (Z.ltb_spec (Z.abs dx) 50) as [Hsmall|Hbig]; cbn [orb].
  { apply Hstay. unfold dispatched. lia. }
  destruct (Z.ltb_spec (Z.abs dx) (Z.abs dy)) as [Hvert|Hhoriz].
  { apply Hstay. unfold dispatched. lia. }
  assert (Hdisp : dispatched) by (unfold dispatched; lia).
  split; [done|].
  destruct (Z.ltb_spec 0 dx) as [Hpos|Hneg].
  - rewrite (Hgo _ Hnext), Z.rem_mod_nonneg by lia.
    split; [done|]. split; [lia|].
    intros HN. split; [done|]. intros _.
    destruct (decide (Z.of_nat i + 1 < N)).
    + rewrite Z.mod_small by lia. lia.
    + replace (Z.of_nat i + 1) with N by lia. rewrite Z_mod_same_full. lia.
  - rewrite (Hgo _ Hprev), Z.rem_mod_nonneg by lia.
    split; [lia|]. split; [done|].
    intros HN. split; [done|]. intros _.
    destruct (decide (Z.of_nat i = 0)) as [Hz|Hz].
    + rewrite Hz. replace (0 - 1 + N) with (N - 1) by lia.
      rewrite Z.mod_small by lia. lia.
    + replace (Z.of_nat i - 1 + N) with (Z.of_nat i - 1 + 1 * N) by lia.
      rewrite Z_mod_plus_full, Z.mod_small by lia. lia.
Qed.

Lemma swipe_resolution_witness :
  gallery_wf sample ∧
  swipe_listening sample = true ∧
  (0 < length (screenshotTabs (elements sample)))%nat ∧
  getActiveScreenshotIndex sample = 0 ∧
  getActiveScreenshotIndex (run [TouchStart 100 50; TouchEnd 40 40] sample) = 1 ∧
  dom (run [TouchStart 100 50; TouchEnd 70 50] sample) = dom sample.
Proof.
  assert (Hl : swipe_listening sample = true) by (vm_compute; reflexivity).
  assert (Hlt : (0 < length (screenshotTabs (elements sample)))%nat) by (cbn; lia).
  assert (Ha : getActiveScreenshotIndex sample = Z.of_nat 0) by (vm_compute; reflexivity).
  split; [exact sample_wf|]. split; [exact Hl|]. split; [exact Hlt|].
  split; [exact Ha|]. split.
  - destruct (swipe_resolution sample 0 100 50 40 40 sample_wf Hl Hlt Ha)
      as (_ & Hnext & _).
    apply Hnext; unfold CONFIG.swipeThreshold; lia.
  - destruct (swipe_resolution sample 0 100 50 70 50 sample_wf Hl Hlt Ha)
      as (Hstay & _).
    apply Hstay. unfold CONFIG.swipeThreshold. lia.
Defined.

(** C6 as stated asks for |dx| to exceed 50 and to exceed |dy|. A swipe of
    exactly 50px with no vertical movement is dispatched all the same. *)
Lemma swipe_at_threshold_dispatches :
  let w' := run [TouchStart 100 0; TouchEnd 50 0] sample in
  let dx := 100 - 50 in
  let dy := 0 - 0 in
  ¬ (getActiveScreenshotIndex w' ≠ getActiveScreenshotIndex sample ↔
     (Z.abs dx > 50 ∧ Z.abs dx > Z.abs dy)).
Proof.
  intros w' dx dy.
  assert (Hw' : getActiveScreenshotIndex w' = 1) by (vm_compute; reflexivity).
  assert (Hw : getActiveScreenshotIndex sample = 0) by (vm_compute; reflexivity).
  rewrite Hw', Hw. intros [Hdisp _]. subst dx. cbn in Hdisp. lia.
Qed.

(** ** Navbar auto-hide *)

(** C8. One run of [handleNavbarScroll] with previous offset p and
    current offset c, on a page that has a navbar. A shown navbar becomes
    hidden exactly when the device is not mobile, c exceeds 100px and
    c - p exceeds 5px; a hidden navbar is shown again when p - c exceeds
    5px; and whenever c is at most 100px or the device is mobile the
    navbar ends up shown. Hidden is [translateY(-100%)] with
    [state.isNavbarHidden] set, shown is [translateY(0)] with the flag
    cleared. *)
Theorem navbar_auto_hide (w : World) (nav : node) :
  navbar (elements w) = Some nav →
  let p := lastScrollY (state w) in
  let c := scrollY (window w) in
  let mobile := innerWidth (window w) < CONFIG.mobileBreakpoint in
  let w' := world_of (handleNavbarScroll w) in
  let was := isNavbarHidden (state w) in
  let now := isNavbarHidden (state w') in
  let shown := now = false ∧ transform (dom w' nav) = "translateY(0)" in
  threw (handleNavbarScroll w) = false ∧
  (was = false →
     (now = true ↔ ¬ mobile ∧ c > 2 * CONFIG.scrollThreshold ∧
                   c - p > CONFIG.navbarHideThreshold)) ∧
  (was = false → now = true → transform (dom w' nav) = "translateY(-100%)") ∧
  (was = true → p - c > CONFIG.navbarHideThreshold → shown) ∧
  (c <= 2 * CONFIG.scrollThreshold ∨ mobile → shown) ∧
  lastScrollY (state w') = c.
Proof.
  intros Hnav p c mobile w' was now shown.
  subst w' now shown was mobile. unfold handleNavbarScroll, isMobile.
  unfold CONFIG.mobileBreakpoint, CONFIG.scrollThreshold, CONFIG.navbarHideThreshold.
  rewrite Hnav. fold p c.
  destruct (Z.ltb_spec (innerWidth (window w)) 900) as [Hm|Hm]; cbn [negb andb];
    [|destruct (Z.ltb_spec (50 * 2) c) as [Hc|Hc]; cbn [andb];
      [destruct (isNavbarHidden (state w)) eqn:Hwas; cbn [negb andb];
       rewrite ?andb_false_r, ?andb_true_r;
       [destruct (Z.ltb_spec (c - p) (Z.opp 5)) as [Hup|Hup]
       |destruct (Z.ltb_spec 5 (c - p)) as [Hdown|Hdown]]|]];
    cbn [world_of threw state dom with_state with_dom isNavbarHidden
         lastScrollY set_navbar];
    rewrite ?alter_at; cbn [transform set_transform];
    intuition (done || lia).
Qed.

Lemma navbar_auto_hide_witness :
  let w := with_window (set_scroll 200 (rectTop sample_window) sample_window) sample in
  let w' := world_of (handleNavbarScroll w) in
  navbar (elements w) = Some 1%nat ∧
  isNavbarHidden (state w') = true ∧
  transform (dom w' 1%nat) = "translateY(-100%)" ∧
  lastScrollY (state w') = 200.
Proof.
  intros w w'.
  assert (Hnav : navbar (elements w) = Some 1%nat) by reflexivity.
  destruct (navbar_auto_hide w 1%nat Hnav) as (_ & Hhide & Hstyle & _ & _ & Hlast).
  assert (Hnow : isNavbarHidden (state w') = true).
  { apply Hhide; [reflexivity|]. cbn.
    unfold CONFIG.mobileBreakpoint, CONFIG.scrollThreshold, CONFIG.navbarHideThreshold.
    lia. }
  split; [exact Hnav|]. split; [exact Hnow|].
  split; [apply Hstyle; [reflexivity | exact Hnow] | exact Hlast].
Defined.

(** ** Scroll direction *)



(** ** Autoplay *)






(** ** Scroll reveal *)

Lemma forEach_from_establishes (P : Element → Prop) f ns k (d : Dom.t) n :
  (∀ i m e, P e → P (f i m e)) → (∀ i e, P (f i n e)) →
  n ∈ ns → P (forEach_from f ns k d n).
Proof.
  intros Hkeep Hset. revert k d. induction ns as [|m ns IH]; intros k d Hn.
  - by apply elem_of_nil in Hn.
  - cbn [forEach_from]. destruct (decide (n = m)) as [<-|Hne].
    + apply forEach_from_preserves; [done|]. rewrite alter_at. apply Hset.
    + apply IH. apply elem_of_cons in Hn as [|]; done.
Qed.

Lemma handle_visible (ev : Event) (w : World) (n : node) :
  backToTopBtn (elements w) ≠ Some n →
  contains "visible" (dom w n) = true →
  contains "visible" (dom (world_of (handle ev w)) n) = true.
Proof.
  intros Hbtn Hvis.
  assert (Hstop : ∀ v, dom (world_of (stopScreenshotAutoplay v)) = dom v).
  { intros v. by destruct (stop_shape v) as [->|(h & _ & _ & ->)]. }
  assert (Hswitch : ∀ index v, dom v = dom w →
    contains "visible" (dom (world_of (switchScreenshotTab index v)) n) = true).
  { intros index v Hv. destruct (switch_shape index v) as (d & -> & Hd).
    cbn. rewrite Hd by done. by rewrite Hv. }
  destruct ev; cbn [handle].
  - unfold handleScroll.
    set (w1 := with_window _ w).
    destruct (navbar_shape w1) as (d1 & hid & -> & _ & Hd1). cbn [bind].
    set (w2 := with_state _ _).
    destruct (backToTop_shape w2) as (d2 & b & -> & _ & Hd2). cbn.
    rewrite Hd2 by exact Hbtn. cbn. by rewrite Hd1.
  - exact Hvis.
  - case_match; [|exact Hvis]. by rewrite Hstop.
  - case_match; [|exact Hvis]. by rewrite Hstop.
  - case_match; [|exact Hvis]. by rewrite Hstop.
  - case_match; [|exact Hvis]. by rewrite Hstop.
  - case_match; [|exact Hvis]. unfold touchstart. by rewrite Hstop.
  - case_match; [|exact Hvis]. unfold touchend, handleSwipe.
    case_match; [exact Hvis|]. by apply Hswitch.
  - case_match; [|exact Hvis]. by apply Hswitch.
  - case_match; [|exact Hvis]. unfold tab_keydown, deref.
    repeat case_match; try exact Hvis; by apply Hswitch.
  - case_match; [|exact Hvis]. unfold autoplay_tick.
    case_match; [exact Hvis|]. by apply Hswitch.
  - unfold revealObserver_callback. cbn [world_of].
    match goal with |- context [foldl reveal_entry w ?es] =>
      destruct (reveal_fold es w) as (_ & _ & _ & _ & _ & _ & Hv) end.
    by apply Hv.
  - case_bool_decide as Hb; [|exact Hvis].
    destruct (pulse_shape w Hb) as (d & -> & Hd). cbn. by rewrite Hd.
  - by destruct (start_shape w) as [->|(_ & _ & ->)].
Qed.

(** C4. On a page whose back-to-top button is not itself a reveal element
    (each trigger owns its own elements), a reveal element that carries
    [visible] carries it after any sequence of scroll events, observer
    callbacks, reduced-motion changes and any other event; and when
    reduced motion is preferred as [initScrollReveal] runs, every reveal
    element carries [visible] when it returns. *)
Theorem reveal_is_one_way (w : World) :
  (∀ n, n ∈ reveals (elements w) → backToTopBtn (elements w) ≠ Some n) →
  (∀ evs n, n ∈ reveals (elements w) →
     contains "visible" (dom w n) = true →
     contains "visible" (dom (run evs w) n) = true) ∧
  (prefersReducedMotion w = true →
     threw (initScrollReveal w) = false ∧
     ∀ n, n ∈ reveals (elements w) →
       contains "visible" (dom (world_of (initScrollReveal w)) n) = true).
Proof.
  intros Hown. split.
  - intros evs. revert w Hown. induction evs as [|ev evs IH]; intros w Hown n Hn Hvis;
      [done|].
    cbn [run foldl]. fold (run evs (world_of (handle ev w))).
    destruct (handle_control ev w) as (He & _ & _).
    apply IH.
    + intros m. rewrite He. apply Hown.
    + by rewrite He.
    + apply handle_visible; [by apply Hown | done].
  - intros Hreduced. unfold initScrollReveal. rewrite Hreduced. split; [done|].
    intros n Hn. cbn [world_of with_dom dom]. unfold forEach.
    apply (forEach_from_establishes (λ e, contains "visible" e = true)); [| |done].
    + intros _ _ e He. by apply contains_add_keeps.
    + intros _ e. apply contains_add.
Qed.

Lemma sample_button_not_revealed (w : World) :
  elements w = sample_elements →
  ∀ n, n ∈ reveals (elements w) → backToTopBtn (elements w) ≠ Some n.
Proof.
  intros -> n Hn [= <-]. apply list_elem_of_In in Hn. cbn in Hn. intuition lia.
Qed.

Lemma reveal_is_one_way_witness :
  let tops := rectTop sample_window in
  let w1 := run [Intersect [(41%nat, true)]] (world_of (initScrollReveal sample)) in
  let evs := [Scroll 5000 tops; MotionChange true; Intersect [(41%nat, false)];
              Scroll 0 tops] in
  let wr := with_window (set_reducedMotion true sample_window) sample in
  (∀ n, n ∈ reveals (elements w1) → backToTopBtn (elements w1) ≠ Some n) ∧
  41%nat ∈ reveals (elements w1) ∧
  contains "visible" (dom w1 41%nat) = true ∧
  contains "visible" (dom (run evs w1) 41%nat) = true ∧
  prefersReducedMotion wr = true ∧
  contains "visible" (dom (world_of (initScrollReveal wr)) 42%nat) = true.
Proof.
  intros tops w1 evs wr.
  assert (Hown1 : ∀ n, n ∈ reveals (elements w1) → backToTopBtn (elements w1) ≠ Some n)
    by (apply sample_button_not_revealed; reflexivity).
  assert (Hownr : ∀ n, n ∈ reveals (elements wr) → backToTopBtn (elements wr) ≠ Some n)
    by (apply sample_button_not_revealed; reflexivity).
  assert (Hin1 : 41%nat ∈ reveals (elements w1))
    by (apply list_elem_of_In; vm_compute; tauto).
  assert (Hinr : 42%nat ∈ reveals (elements wr))
    by (apply list_elem_of_In; vm_compute; tauto).
  assert (Hvis : contains "visible" (dom w1 41%nat) = true) by (vm_compute; reflexivity).
  assert (Hred : prefersReducedMotion wr = true) by reflexivity.
  split; [exact Hown1|]. split; [exact Hin1|]. split; [exact Hvis|].
  split; [|split; [exact Hred|]].
  - exact (proj1 (reveal_is_one_way w1 Hown1) evs 41%nat Hin1 Hvis).
  - exact (proj2 (proj2 (reveal_is_one_way wr Hownr) Hred) 42%nat Hinr).
Defined.

(** ** Initialization *)

Section InitFacts.

Variable routine : InitStep → World → Result.

(** A block runs its steps up to the first one that throws, that one
    included. *)
Lemma block_spec (steps : list InitStep) (w : World) :
  (∃ w', block routine steps w = (steps, Normal w')) ∨
  (∃ (before : list InitStep) s after e w1 w2,
     steps = before ++ s :: after ∧
     routine s w1 = Throw e w2 ∧
     block routine steps w = (before ++ [s], Throw e w2)).
Proof.
  revert w. induction steps as [|s steps IH]; intros w; cbn [block].
  - left. by exists w.
  - destruct (routine s w) as [w'|e w'] eqn:Hs.
    + destruct (IH w') as [[w'' ->]|(before & s' & after & e & w1 & w2 & -> & Hthrow & ->)].
      * left. by exists w''.
      * right. by exists (s :: before), s', after, e, w1, w2.
    + right. by exists [], s, steps, e, w, w'.
Qed.

Lemma block_no_throw (steps : list InitStep) (w : World) :
  (∀ s v, threw (routine s v) = false) →
  ∃ w', block routine steps w = (steps, Normal w').
Proof.
  intros Hno. destruct (block_spec steps w)
    as [?|(before & s & after & e & w1 & w2 & _ & Hthrow & _)]; [done|].
  specialize (Hno s w1). by rewrite Hthrow in Hno.
Qed.

End InitFacts.

Lemma init_sequence_NoDup : NoDup init_sequence.
Proof. by apply (bool_decide_unpack _); vm_compute. Qed.

(** C1 as stated: whichever step fails, the steps after it still run. On
    a browser without [IntersectionObserver] the sample page's
    [initActiveSectionTracking] throws, and [init] then never calls
    [handleNavbarScroll] or [initAnimatedCounters]. *)
Lemma init_skips_the_steps_after_a_throw :
  let o := init script_routine old_browser in
  logged o = Some ReferenceError ∧
  called o = take 13 init_sequence ∧
  last (called o) = Some InitActiveSectionTracking ∧
  ¬ (∀ s, s ∈ init_sequence → s ∈ called o).
Proof.
  intros o.
  assert (Hcalled : called o = take 13 init_sequence) by (vm_compute; reflexivity).
  split; [vm_compute; reflexivity|]. split; [exact Hcalled|].
  split; [vm_compute; reflexivity|].
  intros Hall. specialize (Hall HandleNavbarScroll).
  rewrite Hcalled in Hall.
  assert (Hin : HandleNavbarScroll ∈ init_sequence)
    by (apply list_elem_of_In; vm_compute; tauto).
  apply Hall, list_elem_of_In in Hin. vm_compute in Hin.
  repeat (destruct Hin as [Hin|Hin]; [discriminate Hin|]). exact Hin.
Qed.

(** C1, as the code has it. [init] runs its steps in order inside one
    [try] block. Whatever the routines do, [init] itself returns. If no
    step throws, every step is called and nothing is logged. If a step
    throws, the error is caught and logged, the steps before it have been
    called, and no step after it is called. *)
Theorem init_stops_at_first_throw (routine : InitStep → World → Result) (w : World) :
  let o := init routine w in
  ((∀ s v, threw (routine s v) = false) →
     logged o = None ∧ called o = init_sequence) ∧
  ((logged o = None ∧ called o = init_sequence) ∨
   (∃ e (before : list InitStep) s after w1,
      logged o = Some e ∧
      init_sequence = before ++ s :: after ∧
      called o = before ++ [s] ∧
      routine s w1 = Throw e (final o) ∧
      ∀ s', s' ∈ after → s' ∉ called o)).
Proof.
  intros o. subst o. unfold init. split.
  { intros Hno. by destruct (block_no_throw routine init_sequence w Hno) as [w' ->]. }
  destruct (block_spec routine init_sequence w)
    as [[w' ->]|(before & s & after & e & w1 & w2 & Hseq & Hthrow & ->)].
  - by left.
  - right. exists e, before, s, after, w1. cbn. repeat split; try done.
    intros s' Hafter Hcalled.
    pose proof init_sequence_NoDup as Hnd. rewrite Hseq in Hnd.
    apply NoDup_app in Hnd as (_ & Hdisj & Hnd).
    apply NoDup_cons in Hnd as [Hs _].
    apply elem_of_app in Hcalled as [Hb|Hs'].
    + apply (Hdisj s' Hb). apply elem_of_cons. by right.
    + apply list_elem_of_singleton in Hs' as ->. done.
Qed.

(** ** Double arithmetic *)

Section DoubleFacts.

Import Double.
Local Open Scope Q_scope.

Lemma pow2_pos (k : Z) : 0 < pow2 k.
Proof. apply Qpower_0_lt. reflexivity. Qed.

Lemma pow2_le (a b : Z) : (a <= b)%Z → pow2 a <= pow2 b.
Proof. intros. apply Qpower_le_compat_l; [done | discriminate]. Qed.

Lemma pow2_plus (a b : Z) : pow2 (a + b) == pow2 a * pow2 b.
Proof. apply Qpower_plus. discriminate. Qed.

Lemma pow2_Z (a : Z) : (0 <= a)%Z → pow2 a == inject_Z (2 ^ a).
Proof. intros. unfold pow2. by rewrite Zpower_Qpower. Qed.

Lemma ilog2_bounds (n : Z) (d : positive) :
  (0 < n)%Z →
  let e := (Z.log2 n - Z.log2 (Zpos d))%Z in
  pow2 (e - 1) <= n # d ∧ n # d < pow2 (e + 1).
Proof.
  intros Hn e. subst e.
  destruct (Z.log2_spec n Hn) as [Ha1 Ha2].
  destruct (Z.log2_spec (Zpos d) eq_refl) as [Hb1 Hb2].
  pose proof (Z.log2_nonneg n) as Ha0. pose proof (Z.log2_nonneg (Zpos d)) as Hb0.
  set (a := Z.log2 n) in *. set (b := Z.log2 (Zpos d)) in *.
  pose proof (pow2_pos b) as Hpb. pose proof (pow2_pos (b + 1)) as Hpb1.
  split.
  - apply Qmult_le_r with (z := pow2 (b + 1)); [done|].
    rewrite <- pow2_plus. replace (a - b - 1 + (b + 1))%Z with a by lia.
    rewrite !pow2_Z by lia.
    clearbody a b. unfold Qle, Qmult, inject_Z. cbn [Qnum Qden].
    rewrite Pos.mul_1_r, Z.mul_1_r. replace (Z.succ b) with (b + 1)%Z in Hb2 by lia. nia.
  - apply Qmult_lt_r with (z := pow2 b); [done|].
    rewrite <- pow2_plus. replace (a - b + 1 + b)%Z with (a + 1)%Z by lia.
    rewrite !pow2_Z by lia.
    clearbody a b. unfold Qlt, Qmult, inject_Z. cbn [Qnum Qden].
    rewrite Pos.mul_1_r, Z.mul_1_r. replace (Z.succ a) with (a + 1)%Z in Ha2 by lia. nia.
Qed.

Lemma ilog2_spec (x : Q) : 0 < x → pow2 (ilog2 x) <= x ∧ x < pow2 (ilog2 x + 1).
Proof.
  intros Hx. destruct x as [n d].
  assert (Hn : (0 < n)%Z) by (unfold Qlt in Hx; cbn in Hx; lia).
  destruct (ilog2_bounds n d Hn) as [Hlo Hup]. cbn zeta in Hlo, Hup.
  unfold ilog2. cbn [Qnum Qden].
  destruct (Qle_bool _ (n # d)) eqn:E.
  - apply Qle_bool_iff in E. done.
  - split; [done|].
    match goal with |- _ < pow2 ?k => replace k with (Z.log2 n - Z.log2 (Z.pos d))%Z by lia end.
    apply Qnot_le_lt. intros H. apply Qle_bool_iff in H. congruence.
Qed.

Lemma ilog2_le (x y : Q) : 0 < x → x <= y → (ilog2 x <= ilog2 y)%Z.
Proof.
  intros Hx Hxy. assert (Hy : 0 < y) by lra.
  destruct (ilog2_spec x Hx) as [Hlo _]. destruct (ilog2_spec y Hy) as [_ Hup].
  assert (Hlt : pow2 (ilog2 x) < pow2 (ilog2 y + 1)) by lra.
  apply Qpower_lt_compat_l_inv in Hlt; [lia | reflexivity].
Qed.

Lemma rne_cases (x : Q) :
  let f := Qfloor x in
  inject_Z f <= x ∧ x < inject_Z f + 1 ∧
  ((x - inject_Z f < 1 # 2 ∧ rne x = f) ∨
   (x - inject_Z f == 1 # 2 ∧ rne x = if Z.even f then f else (f + 1)%Z) ∨
   (1 # 2 < x - inject_Z f ∧ rne x = (f + 1)%Z)).
Proof.
  intros f. subst f. split; [apply Qfloor_le|]. split.
  - pose proof (Qlt_floor x) as H. rewrite inject_Z_plus in H. exact H.
  - unfold rne. destruct (Qcompare_spec (x - inject_Z (Qfloor x)) (1 # 2)); auto.
Qed.

Lemma rne_le (x y : Q) : x <= y → (rne x <= rne y)%Z.
Proof.
  intros Hxy. pose proof (Qfloor_resp_le x y Hxy) as Hf.
  destruct (rne_cases x) as (Hx1 & Hx2 & Hx). destruct (rne_cases y) as (Hy1 & Hy2 & Hy).
  cbn zeta in *.
  destruct (Z.eq_dec (Qfloor x) (Qfloor y)) as [E|E].
  - rewrite E in *.
    destruct Hx as [[? ->]|[[? ->]|[? ->]]], Hy as [[? ->]|[[? ->]|[? ->]]];
      try lia; try lra; destruct (Z.even (Qfloor y)); lia.
  - assert (rne x <= Qfloor x + 1)%Z
      by (destruct Hx as [[? ->]|[[? ->]|[? ->]]]; [lia| |lia]; destruct (Z.even (Qfloor x)); lia).
    assert (Qfloor y <= rne y)%Z
      by (destruct Hy as [[? ->]|[[? ->]|[? ->]]]; [lia| |lia]; destruct (Z.even (Qfloor y)); lia).
    lia.
Qed.

Lemma rne_Z (n : Z) : rne (inject_Z n) = n.
Proof.
  destruct (rne_cases (inject_Z n)) as (_ & _ & H). cbn zeta in H.
  rewrite Qfloor_Z in H. set (q := inject_Z n) in *.
  destruct H as [[? ->]|[[? ->]|[? ->]]]; [done|lra|lra].
Qed.

Lemma rne_comp (x y : Q) : x == y → rne x = rne y.
Proof.
  intros E. apply Z.le_antisymm; apply rne_le; rewrite E; apply Qle_refl.
Qed.

Lemma scale_le (x y : Q) (k : Z) : x <= y → x / pow2 k <= y / pow2 k.
Proof.
  intros H. unfold Qdiv. apply Qmult_le_compat_r; [done|].
  apply Qlt_le_weak, Qinv_lt_0_compat, pow2_pos.
Qed.

Lemma scale_pow2 (a k : Z) : pow2 a / pow2 k == pow2 (a - k).
Proof. unfold pow2. rewrite Qpower_minus; [reflexivity | discriminate]. Qed.

Lemma round_magnitude_nonneg (x : Q) : 0 <= x → 0 <= round_magnitude x.
Proof.
  intros Hx. unfold round_magnitude. cbn zeta.
  pose proof (pow2_pos (exponent x)) as Hp.
  assert (0 <= rne (x / pow2 (exponent x)))%Z.
  { rewrite <- (rne_Z 0). apply rne_le. change (inject_Z 0) with 0.
    apply Qle_shift_div_l; [done|]. lra. }
  apply Qmult_le_0_compat; [|lra]. change 0 with (inject_Z 0). by rewrite <- Zle_Qle.
Qed.

Lemma round_magnitude_0 (x : Q) : x <= 0 → round_magnitude x <= 0.
Proof.
  intros Hx. unfold round_magnitude. cbn zeta.
  pose proof (pow2_pos (exponent x)) as Hp.
  assert (rne (x / pow2 (exponent x)) <= 0)%Z.
  { rewrite <- (rne_Z 0). apply rne_le. change (inject_Z 0) with 0.
    apply Qle_shift_div_r; [done|]. lra. }
  assert (inject_Z (rne (x / pow2 (exponent x))) <= 0)
    by (change 0 with (inject_Z 0); by rewrite <- Zle_Qle).
  nra.
Qed.

Lemma round_magnitude_le (x y : Q) :
  0 <= x → x <= y → round_magnitude x <= round_magnitude y.
Proof.
  intros Hx Hxy. destruct (Qlt_le_dec 0 x) as [Hpos|Hzero].
  2:{ apply Qle_trans with 0; [by apply round_magnitude_0 | apply round_magnitude_nonneg; lra]. }
  assert (Hy : 0 < y) by lra.
  pose proof (ilog2_le x y Hpos Hxy) as Hlog.
  destruct (ilog2_spec x Hpos) as [_ Hxup]. destruct (ilog2_spec y Hy) as [Hylo _].
  unfold round_magnitude, exponent. cbn zeta.
  set (kx := Z.max (ilog2 x - 52) (-1074)). set (ky := Z.max (ilog2 y - 52) (-1074)).
  pose proof (pow2_pos kx) as Hpx. pose proof (pow2_pos ky) as Hpy.
  destruct (Z.eq_dec kx ky) as [E|E].
  - rewrite E. apply Qmult_le_compat_r; [|lra].
    rewrite <- Zle_Qle. apply rne_le. by apply scale_le.
  - assert (Hk : (kx < ky)%Z) by lia.
    assert (Hky : ky = (ilog2 y - 52)%Z) by lia.
    apply Qle_trans with (pow2 (kx + 53)).
    + assert (Hr : (rne (x / pow2 kx) <= 2 ^ 53)%Z).
      { rewrite <- (rne_Z (2 ^ 53)). apply rne_le.
        rewrite <- pow2_Z by lia. apply Qle_shift_div_r; [done|].
        rewrite <- pow2_plus.
        apply Qle_trans with (pow2 (ilog2 x + 1)); [lra|]. apply pow2_le. lia. }
      rewrite Zle_Qle in Hr. rewrite <- pow2_Z in Hr by lia.
      rewrite (Z.add_comm kx 53), pow2_plus.
      apply Qmult_le_compat_r; [done|lra].
    + apply Qle_trans with (pow2 (ky + 52)); [apply pow2_le; lia|].
      assert (Hr : (2 ^ 52 <= rne (y / pow2 ky))%Z).
      { rewrite <- (rne_Z (2 ^ 52)). apply rne_le.
        rewrite <- pow2_Z by lia. apply Qle_shift_div_l; [done|].
        rewrite <- pow2_plus.
        apply Qle_trans with (pow2 (ilog2 y)); [|lra]. apply pow2_le. lia. }
      rewrite Zle_Qle in Hr. rewrite <- pow2_Z in Hr by lia.
      rewrite (Z.add_comm ky 52), pow2_plus.
      apply Qmult_le_compat_r; [done|lra].
Qed.

(** Rounding is monotone. *)
Lemma round_le (x y : Q) : x <= y → round x <= round y.
Proof.
  intros Hxy. unfold round. rewrite !Qred_correct.
  destruct (Qlt_le_dec x 0) as [Hx|Hx], (Qlt_le_dec y 0) as [Hy|Hy].
  - apply Qopp_le_compat. apply round_magnitude_le; lra.
  - apply Qle_trans with 0; [|by apply round_magnitude_nonneg].
    assert (0 <= round_magnitude (- x)) by (apply round_magnitude_nonneg; lra). lra.
  - lra.
  - by apply round_magnitude_le.
Qed.

(** The result only depends on the number rounded, and is in lowest
    terms. *)
Lemma round_comp (x y : Q) : x == y → round x = round y.
Proof.
  intros E.
  assert (H : round x == round y)
    by (apply Qle_antisym; apply round_le; rewrite E; apply Qle_refl).
  unfold round in *. apply Qred_complete. by rewrite !Qred_correct in H.
Qed.

Lemma round_nonneg (x : Q) : 0 <= x → 0 <= round x.
Proof. intros H. apply (round_le 0 x H). Qed.

Lemma is_double_round (x : Q) : is_double x → round x = Qred x.
Proof.
  unfold is_double. intros H. unfold round in *.
  apply Qred_complete. by rewrite Qred_correct in H.
Qed.

Lemma round_magnitude_Z (m : Z) :
  (0 <= m <= 2 ^ 53)%Z → round_magnitude (inject_Z m) == inject_Z m.
Proof.
  intros Hm. destruct (Z.eq_dec m 0%Z) as [->|Hne]; [vm_compute; reflexivity|].
  assert (Hpos : 0 < inject_Z m) by (change 0 with (inject_Z 0); rewrite <- Zlt_Qlt; lia).
  destruct (ilog2_spec _ Hpos) as [Hlo Hup].
  assert (H1 : 1 <= inject_Z m) by (change 1 with (inject_Z 1); rewrite <- Zle_Qle; lia).
  assert (H53 : inject_Z m <= pow2 53) by (rewrite pow2_Z by lia; rewrite <- Zle_Qle; lia).
  assert (He0 : (0 <= ilog2 (inject_Z m))%Z).
  { assert (Hlt : pow2 0 < pow2 (ilog2 (inject_Z m) + 1)) by (change (pow2 0) with 1; lra).
    apply (Qpower_lt_compat_l_inv 2 0 (ilog2 (inject_Z m) + 1)) in Hlt; [lia | reflexivity]. }
  assert (He53 : (ilog2 (inject_Z m) <= 53)%Z).
  { assert (Hle : pow2 (ilog2 (inject_Z m)) <= pow2 53) by lra.
    apply (Qpower_le_compat_l_inv 2 (ilog2 (inject_Z m)) 53) in Hle; [lia | reflexivity]. }
  destruct (Z.eq_dec (ilog2 (inject_Z m)) 53%Z) as [E|E].
  - rewrite E in Hlo. rewrite pow2_Z in Hlo by lia. rewrite <- Zle_Qle in Hlo.
    assert (m = 2 ^ 53)%Z as -> by lia. vm_compute. reflexivity.
  - unfold round_magnitude, exponent. cbn zeta.
    set (k := Z.max (ilog2 (inject_Z m) - 52) (-1074)).
    assert (Hk : (-52 <= k <= 0)%Z) by lia. clearbody k.
    pose proof (pow2_pos k) as Hp.
    assert (Hq : pow2 k * inject_Z (2 ^ (- k)) == 1).
    { rewrite <- pow2_Z by lia. rewrite <- pow2_plus.
      replace (k + - k)%Z with 0%Z by lia. reflexivity. }
    assert (Hscaled : inject_Z m / pow2 k == inject_Z (m * 2 ^ (- k))).
    { rewrite inject_Z_mult.
      apply (Qmult_inj_r _ _ (pow2 k)); [lra|].
      rewrite <- Qmult_assoc, (Qmult_comm (inject_Z (2 ^ (- k)))), Hq.
      unfold Qdiv. rewrite <- Qmult_assoc, (Qmult_comm (/ pow2 k)), Qmult_inv_r by lra.
      reflexivity. }
    rewrite (rne_comp _ _ Hscaled), rne_Z, inject_Z_mult.
    rewrite <- Qmult_assoc, (Qmult_comm (inject_Z (2 ^ (- k)))), Hq. apply Qmult_1_r.
Qed.

(** Every integer up to 2^53 in magnitude is a double. *)
Lemma is_double_Z (n : Z) : (Z.abs n <= 2 ^ 53)%Z → is_double (inject_Z n).
Proof.
  intros Hn. unfold is_double, round. rewrite Qred_correct.
  destruct (Qlt_le_dec (inject_Z n) 0) as [Hneg|Hpos].
  - change 0 with (inject_Z 0) in Hneg. rewrite <- Zlt_Qlt in Hneg.
    change (- inject_Z n) with (inject_Z (- n)).
    rewrite round_magnitude_Z by lia. rewrite inject_Z_opp. apply Qopp_involutive.
  - change 0 with (inject_Z 0) in Hpos. rewrite <- Zle_Qle in Hpos.
    apply round_magnitude_Z. lia.
Qed.

End DoubleFacts.

Lemma round_0 : Double.round 0 = 0%Q.
Proof. vm_compute. reflexivity. Qed.

Lemma round_1 : Double.round 1 = 1%Q.
Proof. vm_compute. reflexivity. Qed.

(** Rounding does not cross a double. *)
Lemma round_le_double (x b : Q) :
  Double.round b = b → (x <= b)%Q → (Double.round x <= b)%Q.
Proof. intros E H. apply round_le in H. by rewrite E in H. Qed.

Lemma round_ge_double (x b : Q) :
  Double.round b = b → (b <= x)%Q → (b <= Double.round x)%Q.
Proof. intros E H. apply round_le in H. by rewrite E in H. Qed.

Lemma round_le_1 (x : Q) : (x <= 1)%Q → (Double.round x <= 1)%Q.
Proof. intros H. apply round_le in H. by rewrite round_1 in H. Qed.

Lemma round_ge_1 (x : Q) : (1 <= x)%Q → (1 <= Double.round x)%Q.
Proof. intros H. apply round_le in H. by rewrite round_1 in H. Qed.

(** ** Animated counters *)

Lemma fourth_power_le (a b : Q) : (0 <= b)%Q → (b <= a)%Q → (b ^ 4 <= a ^ 4)%Q.
Proof.
  intros Hb Hab. simpl.
  assert (H2 : (b * b <= a * a)%Q) by nra.
  assert (H0 : (0 <= b * b)%Q) by nra. nra.
Qed.

(** The correctly rounded power is an engine of the kind the properties
    ask for. *)
Lemma Double_pow_ok : Counter.pow_ok Double.pow.
Proof.
  split; [vm_compute; reflexivity|]. split; [vm_compute; reflexivity|].
  intros x y Hx Hxy Hy. unfold Double.pow. apply round_le.
  change (Qfloor 4) with 4%Z. by apply fourth_power_le.
Qed.

Section CounterFacts.

Import Counter.
Local Open Scope Q_scope.

Variable pow : Q → Q → Q.
Hypothesis pow_good : pow_ok pow.

Lemma progress_le_1 (e : Q) : progress e <= 1.
Proof. apply Q.le_min_r. Qed.

Lemma progress_nonneg (e : Q) : 0 <= e → 0 <= progress e.
Proof.
  intros He. unfold progress, duration. apply Q.min_glb; [|lra].
  apply round_nonneg. apply Qle_shift_div_l; [reflexivity|lra].
Qed.

Lemma progress_mono (e1 e2 : Q) : e1 <= e2 → progress e1 <= progress e2.
Proof.
  intros Hle. apply Q.min_le_compat_r. apply round_le. unfold Qdiv.
  apply Qmult_le_compat_r; [done|discriminate].
Qed.

Lemma progress_done (e : Q) : 2000 <= e → 1 <= progress e.
Proof.
  intros He. unfold progress, duration. apply Q.min_glb; [|lra].
  apply round_ge_1. apply Qle_shift_div_l; [reflexivity|lra].
Qed.

(** [1 - x], rounded, stays in [0, 1] and turns the order round. *)
Lemma complement_range (x : Q) : 0 <= x → x <= 1 → 0 <= Double.sub 1 x <= 1.
Proof.
  intros H0 H1. unfold Double.sub. split.
  - apply round_nonneg. lra.
  - apply round_le_1. lra.
Qed.

Lemma complement_mono (x y : Q) : x <= y → Double.sub 1 y <= Double.sub 1 x.
Proof. intros H. apply round_le. lra. Qed.

Lemma pow_range (x : Q) : 0 <= x → x <= 1 → 0 <= pow x 4 <= 1.
Proof.
  intros H0 H1. destruct pow_good as (E0 & E1 & Hmono). split.
  - rewrite <- E0. apply Hmono; lra.
  - rewrite <- E1. apply Hmono; lra.
Qed.

Lemma easeOutQuart_range (p : Q) : 0 <= p → p <= 1 → 0 <= easeOutQuart pow p <= 1.
Proof.
  intros H0 H1. unfold easeOutQuart.
  destruct (complement_range p H0 H1) as [Hc0 Hc1].
  destruct (pow_range _ Hc0 Hc1) as [Hp0 Hp1]. by apply complement_range.
Qed.

Lemma easeOutQuart_mono (p q : Q) :
  0 <= p → p <= q → q <= 1 → easeOutQuart pow p <= easeOutQuart pow q.
Proof.
  intros H0 Hpq H1. unfold easeOutQuart. apply complement_mono.
  destruct pow_good as (_ & _ & Hmono).
  destruct (complement_range q) as [Hq0 Hq1]; [lra|lra|].
  destruct (complement_range p) as [Hp0 Hp1]; [lra|lra|].
  apply Hmono; [done| |done]. by apply complement_mono.
Qed.

Lemma easeOutQuart_1 (p : Q) : p == 1 → easeOutQuart pow p = 1.
Proof.
  intros Hp. unfold easeOutQuart, Double.sub. destruct pow_good as (E0 & _ & _).
  rewrite (round_comp (1 - p) 0) by lra. rewrite round_0.
  rewrite (round_comp (1 - pow 0 4) 1) by lra. apply round_1.
Qed.

(** Whichever branch writes it, the number on display is the floor of
    the eased fraction of the target, as the double operations give
    it. *)
Lemma displayed_formula (target : Z) (start now : Q) :
  Double.is_double (inject_Z target) →
  displayed pow target start now =
  Qfloor (Double.mul (easeOutQuart pow (progress (Double.sub now start)))
            (inject_Z target)).
Proof.
  intros Htarget. unfold displayed, updateCount.
  destruct (Qlt_le_dec (progress (Double.sub now start)) 1) as [Hlt|Hge]; [done|].
  cbn [fst]. rewrite easeOutQuart_1
    by (apply Qle_antisym; [apply progress_le_1 | done]).
  unfold Double.mul. rewrite (round_comp (1 * inject_Z target) (inject_Z target)) by lra.
  rewrite <- (Qfloor_Z target) at 1. apply Qfloor_comp. symmetry. exact Htarget.
Qed.

Lemma displayed_range (target : Z) (start now : Q) :
  Double.is_double (inject_Z target) → (0 <= target)%Z → 0 <= now - start →
  (0 <= displayed pow target start now <= target)%Z.
Proof.
  intros Htarget H0 Hnow. rewrite displayed_formula by done.
  set (p := progress (Double.sub now start)).
  assert (Hp : 0 <= p <= 1).
  { split; [|apply progress_le_1]. apply progress_nonneg, round_nonneg. lra. }
  destruct (easeOutQuart_range p) as [He0 He1]; [lra|lra|].
  assert (Ht : 0 <= inject_Z target)
    by (change 0 with (inject_Z 0); by rewrite <- Zle_Qle).
  split.
  - rewrite <- (Qfloor_Z 0). apply Qfloor_resp_le. apply round_nonneg.
    by apply Qmult_le_0_compat.
  - rewrite <- (Qfloor_Z target) at 2. apply Qfloor_resp_le.
    apply Qle_trans with (Double.round (inject_Z target)); [apply round_le; nra|].
    unfold Double.is_double in Htarget. rewrite Htarget. apply Qle_refl.
Qed.

Lemma displayed_mono (target : Z) (start now1 now2 : Q) :
  Double.is_double (inject_Z target) → (0 <= target)%Z →
  0 <= now1 - start → now1 <= now2 →
  (displayed pow target start now1 <= displayed pow target start now2)%Z.
Proof.
  intros Htarget H0 Hnow Hle. rewrite !displayed_formula by done.
  apply Qfloor_resp_le, round_le.
  assert (Ht : 0 <= inject_Z target)
    by (change 0 with (inject_Z 0); by rewrite <- Zle_Qle).
  apply Qmult_le_compat_r; [|done].
  apply easeOutQuart_mono.
  - apply progress_nonneg, round_nonneg. lra.
  - apply progress_mono, round_le. lra.
  - apply progress_le_1.
Qed.

Lemma displayed_done (target : Z) (start now : Q) :
  2000 <= now - start → displayed pow target start now = target.
Proof.
  intros Hdone. unfold displayed, updateCount.
  destruct (Qlt_le_dec (progress (Double.sub now start)) 1) as [Hlt|Hge]; [|done].
  assert (1 <= progress (Double.sub now start)); [|lra].
  apply progress_done. unfold Double.sub.
  assert (E : Double.round 2000 = 2000) by (vm_compute; reflexivity).
  rewrite <- E. by apply round_le.
Qed.

End CounterFacts.

(** C5 as stated gives the display as the exact value of
    floor(target * (1 - (1 - t)^4)). The script computes it in doubles:
    with the target 5000 the display at 400ms is 2951, the exact value is
    2952. *)
Lemma displayed_below_exact_formula :
  ¬ (∀ (target : Z) (e : Q), (0 <= e)%Q →
       Counter.displayed Double.pow target 0 e =
       Qfloor (inject_Z target * (1 - (1 - Qmin (e / 2000) 1) ^ 4))%Q).
Proof.
  intros Hformula. specialize (Hformula 5000 400%Q).
  assert (H0 : Counter.displayed Double.pow 5000 0 400 = 2951) by (vm_compute; reflexivity).
  assert (H1 : Qfloor (inject_Z 5000 * (1 - (1 - Qmin (400 / 2000) 1) ^ 4))%Q = 2952)
    by (vm_compute; reflexivity).
  rewrite H0, H1 in Hformula. discriminate Hformula. discriminate.
Qed.

(** C5 as stated also promises a display that never decreases for every
    integer target. With the target -5 the display is -2 at 200ms and -5
    at the end. *)
Lemma negative_target_counts_down :
  ¬ (∀ (target : Z) (e1 e2 : Q),
       (0 <= e1)%Q → (e1 <= e2)%Q → (e2 <= 2000)%Q →
       Counter.displayed Double.pow target 0 e1 <=
       Counter.displayed Double.pow target 0 e2).
Proof.
  intros Hmono.
  specialize (Hmono (-5) 200%Q 2000%Q).
  assert (H0 : Counter.displayed Double.pow (-5) 0 200 = -2) by (vm_compute; reflexivity).
  assert (H1 : Counter.displayed Double.pow (-5) 0 2000 = -5) by (vm_compute; reflexivity).
  rewrite H0, H1 in Hmono.
  assert (-2 <= -5) by (apply Hmono; discriminate). lia.
Qed.

(** C5, as the code has it. For an integer target of magnitude at most
    2^53 (which [parseInt] returns exactly) and a frame at the time
    [now], with e = now - start and e >= 0: the number on display is
    floor(target * (1 - (1 - t)^4)) with t = min(e / 2000, 1), every
    operation being the rounded double operation, whatever the engine's
    [Math.pow] as long as its fourth power is exact at 0 and 1 and
    monotone between them; from e = 2000 on it is the target itself, so
    1000 for the target 1000; and for a target that is not negative it
    lies between 0 and the target and never decreases as time goes
    on. *)
Theorem counter_animation (pow : Q → Q → Q) (target : Z) (start : Q) :
  Counter.pow_ok pow →
  Z.abs target <= 2 ^ 53 →
  (∀ now, (0 <= now - start)%Q →
     let t := Qmin (Double.div (Double.sub now start) 2000) 1 in
     Counter.displayed pow target start now =
     Qfloor (Double.mul (Double.sub 1 (pow (Double.sub 1 t) 4%Q)) (inject_Z target))) ∧
  (∀ now, (2000 <= now - start)%Q → Counter.displayed pow target start now = target) ∧
  (0 <= target →
   ∀ now1 now2, (0 <= now1 - start)%Q → (now1 <= now2)%Q →
     0 <= Counter.displayed pow target start now1 ∧
     Counter.displayed pow target start now1 <= Counter.displayed pow target start now2 ∧
     Counter.displayed pow target start now2 <= target).
Proof.
  intros Hpow Hsafe.
  assert (Htarget : Double.is_double (inject_Z target)) by (by apply is_double_Z).
  split; [|split].
  - intros now _ t. by apply displayed_formula.
  - intros now. apply displayed_done.
  - intros H0 now1 now2 Hnow Hle.
    split; [by apply displayed_range|]. split; [by apply displayed_mono|].
    apply displayed_range; [done..|lra].
Qed.

Lemma counter_animation_witness :
  Counter.pow_ok Double.pow ∧
  Z.abs 1000 <= 2 ^ 53 ∧
  Counter.displayed Double.pow 1000 0 1000 = 937 ∧
  Counter.displayed Double.pow 1000 0 2000 = 1000 ∧
  Counter.displayed Double.pow 1000 0 2016.7 = 1000 ∧
  Counter.displayed Double.pow 1000 0 500 <= Counter.displayed Double.pow 1000 0 1000.
Proof.
  assert (Htarget : Z.abs 1000 <= 2 ^ 53) by lia.
  destruct (counter_animation Double.pow 1000 0 Double_pow_ok Htarget)
    as (Hformula & Hdone & Hmono).
  split; [exact Double_pow_ok|]. split; [exact Htarget|].
  split; [|split; [|split]].
  - rewrite (Hformula 1000%Q) by discriminate. vm_compute. reflexivity.
  - apply Hdone. discriminate.
  - apply Hdone. discriminate.
  - apply (Hmono ltac:(lia) 500%Q 1000%Q); discriminate.
Defined.

(** * Further properties of the script *)

(** ** More on the document store *)

Section MoreDomFacts.

Implicit Types (c : string) (e : Element) (d : Dom.t) (n : node).

Lemma filter_twice {A} (P : A → Prop) `{!∀ x, Decision (P x)} (l : list A) :
  filter P (filter P l) = filter P l.
Proof.
  induction l as [|x l IH]; [done|].
  destruct (decide (P x)) as [Hx|Hx].
  - rewrite !filter_cons_True by done. by rewrite IH.
  - by rewrite filter_cons_False.
Qed.

Lemma toggle_twice c b e : toggle c b (toggle c b e) = toggle c b e.
Proof.
  destruct b; cbn [toggle].
  - unfold add at 1. by rewrite contains_add.
  - unfold remove, set_classList. cbn. by rewrite filter_twice.
Qed.

Lemma toggle_dataset c b e : dataset (toggle c b e) = dataset e.
Proof. destruct b; cbn [toggle]; [unfold add; by destruct (contains c e) | done]. Qed.

Lemma toggle_textContent c b e : textContent (toggle c b e) = textContent e.
Proof. destruct b; cbn [toggle]; [unfold add; by destruct (contains c e) | done]. Qed.

Lemma toggle_transform c b e : transform (toggle c b e) = transform e.
Proof. destruct b; cbn [toggle]; [unfold add; by destruct (contains c e) | done]. Qed.

Lemma toggle_set_textContent c b s e :
  toggle c b (set_textContent s e) = set_textContent s (toggle c b e).
Proof.
  destruct b; cbn [toggle]; [|done].
  unfold add. change (contains c (set_textContent s e)) with (contains c e).
  by destruct (contains c e).
Qed.

Lemma toggle_setAttribute c b k v e :
  toggle c b (setAttribute k v e) = setAttribute k v (toggle c b e).
Proof.
  destruct b; cbn [toggle]; [|done].
  unfold add. change (contains c (setAttribute k v e)) with (contains c e).
  by destruct (contains c e).
Qed.

Lemma setAttribute_twice k v v' e :
  setAttribute k v (setAttribute k v' e) = setAttribute k v e.
Proof. unfold setAttribute. cbn. by rewrite insert_insert_eq. Qed.

Lemma setAttribute_comm k k' v v' e :
  k ≠ k' →
  setAttribute k v (setAttribute k' v' e) = setAttribute k' v' (setAttribute k v e).
Proof. intros. unfold setAttribute. cbn. by rewrite insert_insert_ne. Qed.

(** A loop whose body ignores the index and is idempotent applies the
    body to every listed node, however often the list names it. *)
Lemma forEach_from_uniform f (g : Element → Element) ns k d n :
  (∀ i e, f i n e = g e) → (∀ e, g (g e) = g e) →
  forEach_from f ns k d n = if bool_decide (n ∈ ns) then g (d n) else d n.
Proof.
  intros Hf Hg. revert k d. induction ns as [|m ns IH]; intros k d; [done|].
  cbn [forEach_from]. rewrite IH. destruct (decide (m = n)) as [->|Hne].
  - rewrite alter_at, Hf. rewrite (bool_decide_eq_true_2 (n ∈ n :: ns)) by left.
    case_bool_decide; [apply Hg | done].
  - rewrite alter_other by done.
    rewrite (bool_decide_ext (n ∈ m :: ns) (n ∈ ns)); [done|].
    rewrite elem_of_cons. split; [intros [Heq|?]; [by destruct Hne|done] | by right].
Qed.

(** Two stores that agree at a node still agree there after the same
    loop. *)
Lemma forEach_from_agree f ns k d d' n :
  d n = d' n → forEach_from f ns k d n = forEach_from f ns k d' n.
Proof.
  revert k d d'. induction ns as [|m ns IH]; intros k d d' Hn; [done|].
  cbn [forEach_from]. apply IH. destruct (decide (m = n)) as [->|Hne].
  - by rewrite !alter_at, Hn.
  - by rewrite !alter_other.
Qed.

Lemma findIndex_from_first {A} (p : A → bool) (l : list A) (k : Z) :
  (findIndex_from p l k = -1 ∧ ∀ j x, l !! j = Some x → p x = false) ∨
  (∃ r x, findIndex_from p l k = k + Z.of_nat r ∧ l !! r = Some x ∧ p x = true ∧
          ∀ j y, (j < r)%nat → l !! j = Some y → p y = false).
Proof.
  revert k. induction l as [|x l IH]; intros k; cbn [findIndex_from].
  - left. split; [done|]. intros j y Hj. by rewrite lookup_nil in Hj.
  - destruct (p x) eqn:Hx.
    + right. exists 0%nat, x. repeat split; [lia|done|lia].
    + destruct (IH (k + 1)) as [[-> Hnone]|(r & y & -> & Hr & Hy & Hbefore)].
      * left. split; [done|]. intros [|j] z Hj; cbn in Hj; [by simplify_eq|eauto].
      * right. exists (S r), y. repeat split; [lia|done|done|].
        intros [|j] z Hlt Hj; cbn in Hj; [by simplify_eq|].
        apply (Hbefore j z); [lia|done].
Qed.

End MoreDomFacts.

(** ** More on the gallery *)

Section MoreGalleryFacts.

Implicit Types (w : World) (index : Z) (n : node) (e : Element).

Lemma mark_screenshot_twice target i j n m e :
  mark_screenshot target i n (mark_screenshot target j m e) =
  mark_screenshot target j m e.
Proof.
  unfold mark_screenshot. rewrite toggle_dataset. apply toggle_twice.
Qed.

Lemma mark_tab_twice index j n e :
  mark_tab index j n (mark_tab index j n e) = mark_tab index j n e.
Proof.
  unfold mark_tab. cbn zeta.
  rewrite !toggle_setAttribute, toggle_twice.
  rewrite (setAttribute_comm "aria-selected" "tabindex") by done.
  by rewrite !setAttribute_twice.
Qed.

Lemma mark_tab_dataset index j n e : dataset (mark_tab index j n e) = dataset e.
Proof. unfold mark_tab. cbn. apply toggle_dataset. Qed.

Lemma mark_tab_textContent index j n e :
  textContent (mark_tab index j n e) = textContent e.
Proof. unfold mark_tab. cbn. apply toggle_textContent. Qed.

Lemma mark_tab_set_textContent index j n s e :
  mark_tab index j n (set_textContent s e) = set_textContent s (mark_tab index j n e).
Proof. unfold mark_tab, setAttribute. cbn. by rewrite toggle_set_textContent. Qed.

Lemma mark_screenshot_set_textContent target j n s e :
  mark_screenshot target j n (set_textContent s e) =
  set_textContent s (mark_screenshot target j n e).
Proof. unfold mark_screenshot. cbn. by rewrite toggle_set_textContent. Qed.

Lemma image_step_dataset w target n e : dataset (image_step w target n e) = dataset e.
Proof. unfold image_step. case_bool_decide; [apply toggle_dataset | done]. Qed.

Lemma caption_step_dataset w target n e : dataset (caption_step w target n e) = dataset e.
Proof. unfold caption_step. repeat case_match; done. Qed.

(** The document after a switch to an index in range, node by node: the
    three steps in order, the first one at the node's position among the
    tabs when it is a tab. *)
Lemma switch_dom_at w index tab n :
  NoDup (screenshotTabs (elements w)) →
  item (screenshotTabs (elements w)) index = Some tab →
  let target := dataset (dom w tab) !! "tab" in
  let d' := dom (world_of (switchScreenshotTab index w)) in
  (∀ j, screenshotTabs (elements w) !! j = Some n →
     d' n = caption_step w target n (image_step w target n (mark_tab index j n (dom w n)))) ∧
  (n ∉ screenshotTabs (elements w) →
     d' n = caption_step w target n (image_step w target n (dom w n))).
Proof.
  intros Hnd Hitem target d'. subst d'.
  assert (Hlen : length (screenshotTabs (elements w)) ≠ 0%nat).
  { apply item_Some in Hitem as [_ Hl]. apply lookup_lt_Some in Hl. lia. }
  unfold switchScreenshotTab.
  rewrite bool_decide_eq_false_2 by done. rewrite Hitem.
  rewrite bool_decide_eq_false_2 by done. cbn [deref]. fold target.
  set (d1 := forEach (mark_tab index) _ (dom w)).
  set (d2 := forEach (mark_screenshot target) _ d1).
  assert (Hd2 : ∀ m, d2 m = image_step w target m (d1 m)).
  { intros m. subst d2. unfold forEach, image_step.
    apply (forEach_from_uniform _ (mark_screenshot target 0%nat m)); [done|].
    intros e. apply mark_screenshot_twice. }
  assert (Hfinal : ∀ m,
    dom (world_of
      match screenshotCaption (elements w), target ≫= captions_get with
      | Some cap, Some text => Normal (with_dom (alter (set_textContent text) cap d2) w)
      | _, _ => Normal (with_dom d2 w)
      end) m = caption_step w target m (d2 m)).
  { intros m. unfold caption_step.
    destruct (screenshotCaption (elements w)) as [cap|]; [|done].
    destruct (target ≫= _) as [text|]; [|done]. cbn.
    case_bool_decide as Hc; [subst; by rewrite alter_at | by rewrite alter_other]. }
  rewrite Hfinal, Hd2. split.
  - intros j Hj. subst d1. by rewrite (forEach_at _ _ _ n j).
  - intros Hn. subst d1. by rewrite forEach_other.
Qed.

End MoreGalleryFacts.

Section SwitchAgain.

Implicit Types (w : World) (index : Z) (n : node) (e : Element).

Lemma caption_step_twice w target n e :
  caption_step w target n (caption_step w target n e) = caption_step w target n e.
Proof. unfold caption_step. repeat case_match; done. Qed.

Lemma caption_step_mark_tab w target index j n e :
  mark_tab index j n (caption_step w target n e) =
  caption_step w target n (mark_tab index j n e).
Proof.
  unfold caption_step. repeat case_match; try done. apply mark_tab_set_textContent.
Qed.

Lemma caption_step_image_step w target n e :
  image_step w target n (caption_step w target n e) =
  caption_step w target n (image_step w target n e).
Proof.
  unfold caption_step, image_step.
  repeat case_match; try done. apply mark_screenshot_set_textContent.
Qed.

Lemma image_step_twice w target n e :
  image_step w target n (image_step w target n e) = image_step w target n e.
Proof.
  unfold image_step. case_bool_decide; [apply mark_screenshot_twice | done].
Qed.

Lemma caption_step_classList w target n e :
  classList (caption_step w target n e) = classList e.
Proof. unfold caption_step. repeat case_match; done. Qed.

Lemma step_world w w' target n e :
  elements w' = elements w →
  image_step w' target n e = image_step w target n e ∧
  caption_step w' target n e = caption_step w target n e.
Proof. intros He. unfold image_step, caption_step. by rewrite He. Qed.

Lemma switch_keeps_dataset w index n :
  dataset (dom (world_of (switchScreenshotTab index w)) n) = dataset (dom w n).
Proof.
  unfold switchScreenshotTab.
  case_bool_decide; [done|]. case_bool_decide; [done|].
  destruct (item _ index) as [tab|]; [|done]. cbn [deref].
  set (d2 := forEach _ (screenshots _) _).
  assert (Hd2 : dataset (d2 n) = dataset (dom w n)).
  { subst d2. unfold forEach.
    apply (forEach_from_preserves (λ e, dataset e = dataset (dom w n))).
    - intros i m e <-. apply toggle_dataset.
    - apply (forEach_from_preserves (λ e, dataset e = dataset (dom w n))); [|done].
      intros i m e <-. apply mark_tab_dataset. }
  destruct (screenshotCaption (elements w)) as [cap|]; [|done].
  destruct (_ ≫= _) as [text|]; [|done]. cbn.
  destruct (decide (cap = n)) as [->|Hne]; [by rewrite alter_at | by rewrite alter_other].
Qed.

End SwitchAgain.

(** X1. Selecting the same index twice in a row leaves the document
    exactly as the first selection left it, for any index, in range or
    not. *)
Theorem switchScreenshotTab_idempotent (w : World) (index : Z) :
  gallery_wf w →
  let w1 := world_of (switchScreenshotTab index w) in
  let w2 := world_of (switchScreenshotTab index w1) in
  threw (switchScreenshotTab index w1) = false ∧
  ∀ n, dom w2 n = dom w1 n.
Proof.
  intros Hwf w1 w2. split; [by rewrite switch_normal|]. intros n. subst w2.
  destruct (item (screenshotTabs (elements w)) index) as [tab|] eqn:Hitem.
  - assert (He : elements w1 = elements w) by apply switch_elements.
    assert (Hitem1 : item (screenshotTabs (elements w1)) index = Some tab)
      by (by rewrite He).
    destruct Hwf as [Hnd Hdisj].
    assert (Hnd1 : NoDup (screenshotTabs (elements w1))) by (by rewrite He).
    destruct (switch_dom_at w index tab n Hnd Hitem) as [Htab Hother].
    destruct (switch_dom_at w1 index tab n Hnd1 Hitem1) as [Htab1 Hother1].
    assert (Htarget : dataset (dom w1 tab) !! "tab" = dataset (dom w tab) !! "tab")
      by (unfold w1; by rewrite switch_keeps_dataset).
    rewrite Htarget, He in Htab1, Hother1. fold w1 in Htab, Hother.
    set (target := dataset (dom w tab) !! "tab") in *.
    destruct (step_world w w1 target n (dom w1 n) He) as [His Hcs].
    destruct (decide (n ∈ screenshotTabs (elements w))) as [Hin|Hout].
    + apply list_elem_of_lookup in Hin as [j Hj].
      rewrite (Htab1 j Hj), (Htab j Hj).
      assert (Hnot : n ∉ screenshots (elements w))
        by (apply Hdisj; by eapply list_elem_of_lookup_2).
      destruct (step_world w w1 target n
                  (mark_tab index j n (caption_step w target n
                     (image_step w target n (mark_tab index j n (dom w n))))) He)
        as [-> _].
      destruct (step_world w w1 target n
                  (image_step w target n (mark_tab index j n (caption_step w target n
                     (image_step w target n (mark_tab index j n (dom w n)))))) He)
        as [_ ->].
      unfold image_step. rewrite !bool_decide_eq_false_2 by done.
      by rewrite caption_step_mark_tab, caption_step_twice, mark_tab_twice.
    + rewrite (Hother1 Hout), (Hother Hout).
      destruct (step_world w w1 target n
                  (caption_step w target n (image_step w target n (dom w n))) He)
        as [-> _].
      destruct (step_world w w1 target n
                  (image_step w target n
                     (caption_step w target n (image_step w target n (dom w n)))) He)
        as [_ ->].
      by rewrite caption_step_image_step, caption_step_twice, image_step_twice.
  - apply item_None in Hitem.
    assert (Hsame : w1 = w) by (unfold w1; by rewrite switch_out_of_range).
    rewrite Hsame. by rewrite switch_out_of_range.
Qed.

Lemma switchScreenshotTab_idempotent_witness :
  gallery_wf sample ∧
  let w1 := world_of (switchScreenshotTab 4 sample) in
  dom (world_of (switchScreenshotTab 4 w1)) 14%nat = dom w1 14%nat ∧
  dom (world_of (switchScreenshotTab 4 w1)) 30%nat = dom w1 30%nat.
Proof.
  split; [exact sample_wf|]. intros w1.
  destruct (switchScreenshotTab_idempotent sample 4 sample_wf) as [_ Hsame].
  split; apply Hsame.
Defined.

(** X2. After a switch to the tab at index i, whose [data-tab] is
    [target]: a gallery image is active exactly when its
    [data-screenshot] equals [target]; the caption shows what the lookup
    [captions[target]] finds and keeps its text when the lookup finds
    nothing; and no [data-*] attribute of any element has changed. The
    lookup finds the table's text for one of its seven names, and for a
    name inherited from [Object.prototype] (such as [constructor]) the
    inherited value, whose text then replaces the caption; for any other
    name, and for a tab without [data-tab], it finds nothing. *)
Theorem switchScreenshotTab_images_and_caption (w : World) (i : nat) (tab : node) :
  gallery_wf w →
  screenshotTabs (elements w) !! i = Some tab →
  let target := dataset (dom w tab) !! "tab" in
  let w' := world_of (switchScreenshotTab (Z.of_nat i) w) in
  (∀ img, img ∈ screenshots (elements w) →
     contains "active" (dom w' img) =
     bool_decide (dataset (dom w img) !! "screenshot" = target)) ∧
  (∀ cap, screenshotCaption (elements w) = Some cap →
     textContent (dom w' cap) =
     match target with
     | None => textContent (dom w cap)
     | Some name =>
         match captions !! name with
         | Some text => text
         | None =>
             if bool_decide (name ∈ Object_prototype) then inherited_text name
             else textContent (dom w cap)
         end
     end) ∧
  (∀ n, dataset (dom w' n) = dataset (dom w n)).
Proof.
  intros [Hnd Hdisj] Hi target w'.
  assert (Hitem : item (screenshotTabs (elements w)) (Z.of_nat i) = Some tab).
  { apply item_Some. rewrite Nat2Z.id. split; [lia|done]. }
  split; [|split].
  - intros img Himg.
    destruct (switch_dom_at w (Z.of_nat i) tab img Hnd Hitem) as [_ Hother].
    fold target w' in Hother. rewrite Hother by (intros Hin; by apply (Hdisj img)).
    unfold contains at 1. rewrite caption_step_classList.
    unfold image_step.
    rewrite (bool_decide_eq_true_2 (img ∈ screenshots (elements w))) by done.
    exact (contains_toggle "active" _ _).
  - intros cap Hcap.
    destruct (switch_dom_at w (Z.of_nat i) tab cap Hnd Hitem) as [Htab Hother].
    fold target w' in Htab, Hother.
    assert (Hlookup :
      default (textContent (dom w cap)) (target ≫= captions_get) =
      match target with
      | None => textContent (dom w cap)
      | Some name =>
          match captions !! name with
          | Some text => text
          | None =>
              if bool_decide (name ∈ Object_prototype) then inherited_text name
              else textContent (dom w cap)
          end
      end).
    { clearbody target. destruct target as [name|]; [|done].
      change (Some name ≫= captions_get) with (captions_get name).
      unfold captions_get.
      destruct (captions !! name); [done|]. by case_bool_decide. }
    rewrite <- Hlookup.
    assert (Htext : ∀ e, textContent e = textContent (dom w cap) →
      textContent (caption_step w target cap e) =
      default (textContent (dom w cap)) (target ≫= captions_get)).
    { intros e He. unfold caption_step. rewrite Hcap.
      destruct (target ≫= _) as [text|]; cbn; [|done].
      by rewrite bool_decide_eq_true_2. }
    assert (Himage : ∀ e, textContent (image_step w target cap e) = textContent e).
    { intros e. unfold image_step. case_bool_decide; [apply toggle_textContent|done]. }
    destruct (decide (cap ∈ screenshotTabs (elements w))) as [Hin|Hout].
    + apply list_elem_of_lookup in Hin as [j Hj]. rewrite (Htab j Hj).
      apply Htext. rewrite Himage. apply mark_tab_textContent.
    + rewrite (Hother Hout). apply Htext, Himage.
  - intros n. apply switch_keeps_dataset.
Qed.

Lemma switchScreenshotTab_images_and_caption_witness :
  gallery_wf sample ∧
  screenshotTabs (elements sample) !! 3%nat = Some 13%nat ∧
  let w' := world_of (switchScreenshotTab 3 sample) in
  let odd := with_dom (alter (λ e, sample_element (classList e) {[ "tab" := "constructor" ]})
                         13%nat sample_dom) sample in
  contains "active" (dom w' 23%nat) = true ∧
  contains "active" (dom w' 20%nat) = false ∧
  textContent (dom w' 30%nat) =
    "NPC Loot Timer — Track loot levels for Torn NPCs and bosses" ∧
  gallery_wf odd ∧
  textContent (dom (world_of (switchScreenshotTab 3 odd)) 30%nat) =
    "function Object() { [native code] }".
Proof.
  split; [exact sample_wf|]. split; [reflexivity|]. intros w' odd.
  assert (Hodd : gallery_wf odd) by exact sample_wf.
  destruct (switchScreenshotTab_images_and_caption sample 3 13%nat sample_wf eq_refl)
    as (Himg & Hcap & _).
  destruct (switchScreenshotTab_images_and_caption odd 3 13%nat Hodd eq_refl)
    as (_ & Hcap' & _).
  assert (Hin : ∀ img, In img (seq 20 7) → img ∈ screenshots (elements sample))
    by (intros img; apply list_elem_of_In).
  split; [|split; [|split; [|split]]].
  - etrans; [exact (Himg 23%nat (Hin 23%nat ltac:(vm_compute; tauto)))|].
    vm_compute. reflexivity.
  - etrans; [exact (Himg 20%nat (Hin 20%nat ltac:(vm_compute; tauto)))|].
    vm_compute. reflexivity.
  - etrans; [exact (Hcap 30%nat eq_refl)|]. vm_compute. reflexivity.
  - exact Hodd.
  - etrans; [exact (Hcap' 30%nat eq_refl)|]. vm_compute. reflexivity.
Defined.

(** ** Reading the active index, and the autoplay rotation *)

Lemma getActive_range (w : World) :
  getActiveScreenshotIndex w = -1 ∨
  0 <= getActiveScreenshotIndex w < Z.of_nat (length (screenshotTabs (elements w))).
Proof.
  unfold getActiveScreenshotIndex, findIndex.
  destruct (findIndex_from_range (λ tab, contains "active" (dom w tab))
              (screenshotTabs (elements w)) 0) as [->|?]; [by left | right; lia].
Qed.

(** X3. [getActiveScreenshotIndex] returns -1 exactly when no tab carries
    [active]; otherwise it returns the position of the first tab that
    does, whatever the tabs after it carry. *)
Theorem getActiveScreenshotIndex_first_active (w : World) :
  let r := getActiveScreenshotIndex w in
  let N := length (screenshotTabs (elements w)) in
  (r = -1 ∧ ∀ j, (j < N)%nat → tab_active w j = false) ∨
  (0 <= r < Z.of_nat N ∧ tab_active w (Z.to_nat r) = true ∧
   ∀ j, (j < Z.to_nat r)%nat → tab_active w j = false).
Proof.
  intros r N. subst r N. unfold getActiveScreenshotIndex, findIndex, tab_active.
  destruct (findIndex_from_first (λ tab, contains "active" (dom w tab))
              (screenshotTabs (elements w)) 0)
    as [[-> Hnone]|(r & x & -> & Hr & Hx & Hbefore)].
  - left. split; [done|]. intros j Hj.
    destruct (lookup_lt_is_Some_2 _ _ Hj) as [n Hn]. rewrite Hn. by apply (Hnone j).
  - right. pose proof (lookup_lt_Some _ _ _ Hr) as Hlt.
    replace (Z.to_nat (0 + Z.of_nat r)) with r by lia.
    split; [lia|]. rewrite Hr. split; [done|].
    intros j Hj. destruct (screenshotTabs (elements w) !! j) as [n|] eqn:Hn; [|done].
    by apply (Hbefore j).
Qed.

Lemma tick_step (w : World) :
  gallery_wf w →
  0 < Z.of_nat (length (screenshotTabs (elements w))) →
  let w' := world_of (autoplay_tick w) in
  gallery_wf w' ∧ elements w' = elements w ∧
  getActiveScreenshotIndex w' =
    (getActiveScreenshotIndex w + 1) mod Z.of_nat (length (screenshotTabs (elements w))).
Proof.
  intros Hwf HN w'. subst w'. unfold autoplay_tick.
  destruct (Z.eqb_spec (Z.of_nat (length (screenshotTabs (elements w)))) 0); [lia|].
  pose proof (getActive_range w) as Hc.
  remember (Z.of_nat (length (screenshotTabs (elements w)))) as N eqn:HeqN.
  split; [by apply switch_wf|]. split; [apply switch_elements|].
  rewrite Z.rem_mod_nonneg by lia.
  pose proof (Z.mod_pos_bound (getActiveScreenshotIndex w + 1) N HN) as Hr.
  rewrite <- (Z2Nat.id (_ mod N)) at 1 2 by lia.
  rewrite switch_getActive; [lia|done|lia].
Qed.

(** X4. On a gallery with at least one tab, the k-th firing of the
    autoplay interval (k >= 1) leaves the tab (c + k) mod N active, where
    c is the index read before the first firing, -1 when no tab was
    active: the rotation starts at tab 0 in that case, wraps from N-1 to
    0, and is back at c after N firings. *)
Theorem autoplay_ticks_rotate (w : World) (k : nat) :
  gallery_wf w →
  (0 < length (screenshotTabs (elements w)))%nat →
  let N := Z.of_nat (length (screenshotTabs (elements w))) in
  let c := getActiveScreenshotIndex w in
  getActiveScreenshotIndex (ticks (S k) w) = (c + 1 + Z.of_nat k) mod N ∧
  (0 <= c → getActiveScreenshotIndex (ticks (length (screenshotTabs (elements w))) w) = c).
Proof.
  intros Hwf Hpos N c.
  pose proof (getActive_range w) as Hrange.
  assert (Hall : ∀ k, gallery_wf (ticks (S k) w) ∧
    elements (ticks (S k) w) = elements w ∧
    getActiveScreenshotIndex (ticks (S k) w) = (c + 1 + Z.of_nat k) mod N).
  { clear k. intros k. induction k as [|k (IHwf & IHe & IH)].
    - change (ticks 1 w) with (world_of (autoplay_tick w)).
      destruct (tick_step w Hwf) as (Hwf' & He' & Hget'); [lia|].
      split; [done|]. split; [done|]. rewrite Hget'. subst N c. f_equal. lia.
    - change (ticks (S (S k)) w) with (world_of (autoplay_tick (ticks (S k) w))).
      destruct (tick_step (ticks (S k) w) IHwf) as (Hwf' & He' & Hget');
        [rewrite IHe; lia|].
      split; [done|]. split; [by rewrite He'|].
      rewrite Hget', IHe, IH. subst N.
      rewrite Zplus_mod_idemp_l. f_equal. lia. }
  split; [apply Hall|].
  intros Hc. subst N c.
  destruct (length (screenshotTabs (elements w))) as [|m] eqn:Hlen; [lia|].
  destruct (Hall m) as (_ & _ & ->).
  replace (getActiveScreenshotIndex w + 1 + Z.of_nat m)
    with (getActiveScreenshotIndex w + 1 * Z.of_nat (S m)) by lia.
  rewrite Z_mod_plus_full. apply Z.mod_small. lia.
Qed.

Lemma autoplay_ticks_rotate_witness :
  gallery_wf sample ∧
  (0 < length (screenshotTabs (elements sample)))%nat ∧
  getActiveScreenshotIndex (ticks 3 sample) = 3 ∧
  getActiveScreenshotIndex (ticks 7 sample) = 0.
Proof.
  assert (Hpos : (0 < length (screenshotTabs (elements sample)))%nat) by (cbn; lia).
  split; [exact sample_wf|]. split; [exact Hpos|]. split.
  - exact (proj1 (autoplay_ticks_rotate sample 2 sample_wf Hpos)).
  - apply (proj2 (autoplay_ticks_rotate sample 0 sample_wf Hpos)).
    vm_compute. discriminate.
Defined.

(** ** More on the autoplay *)

(** X5. Starting the autoplay on a page with no timer and no reduced
    motion arms exactly one interval whose handle is the one stored;
    stopping it clears both, leaves the document alone and does not hand
    the handle out again; and once stopped, no late firing of any
    interval moves the gallery. *)
Theorem autoplay_start_stop_round_trip (w : World) :
  autoplay_ok w →
  screenshotAutoplay (state w) = None →
  prefersReducedMotion w = false →
  let h := nextHandle (timers w) in
  let w1 := world_of (startScreenshotAutoplay w) in
  let w2 := world_of (stopScreenshotAutoplay w1) in
  screenshotAutoplay (state w1) = Some h ∧ alive (timers w1) = [h] ∧
  screenshotAutoplay (state w2) = None ∧ alive (timers w2) = [] ∧
  h < nextHandle (timers w2) ∧ dom w2 = dom w ∧
  ∀ h', handle (Tick h') w2 = Normal w2.
Proof.
  intros [Hpos Hok] Hnone Hmotion h w1 w2. rewrite Hnone in Hok.
  assert (Hw1 : w1 = with_state (set_screenshotAutoplay (Some h) (state w))
                       (with_timers (setInterval (timers w)).2 w)).
  { unfold w1, startScreenshotAutoplay. by rewrite Hnone, Hmotion. }
  assert (Hh : (h =? 0) = false) by (apply Z.eqb_neq; unfold h; lia).
  assert (Hw2 : w2 = with_state (set_screenshotAutoplay None (state w1))
                       (with_timers (clearInterval h (timers w1)) w1)).
  { unfold w2, stopScreenshotAutoplay. rewrite Hw1. cbn. by rewrite Hh. }
  assert (Halive1 : alive (timers w1) = [h]) by (rewrite Hw1; cbn; by rewrite Hok).
  assert (Halive2 : alive (timers w2) = []).
  { rewrite Hw2. cbn [alive timers with_state with_timers clearInterval].
    rewrite Halive1. by rewrite filter_cons_False by (intros ?; done). }
  split; [by rewrite Hw1|]. split; [done|].
  split; [by rewrite Hw2|]. split; [done|].
  split; [rewrite Hw2, Hw1; cbn; lia|]. split; [by rewrite Hw2, Hw1|].
  intros h'. cbn [handle]. rewrite Halive2.
  rewrite bool_decide_eq_false_2; [done|]. apply not_elem_of_nil.
Qed.

Lemma autoplay_start_stop_round_trip_witness :
  autoplay_ok sample ∧ screenshotAutoplay (state sample) = None ∧
  prefersReducedMotion sample = false ∧
  let w1 := world_of (startScreenshotAutoplay sample) in
  let w2 := world_of (stopScreenshotAutoplay w1) in
  alive (timers w1) = [1] ∧ alive (timers w2) = [] ∧
  handle (Tick 1) w2 = Normal w2.
Proof.
  split; [exact sample_autoplay_ok|]. split; [reflexivity|]. split; [reflexivity|].
  intros w1 w2.
  destruct (autoplay_start_stop_round_trip sample sample_autoplay_ok eq_refl eq_refl)
    as (_ & H1 & _ & H2 & _ & _ & Htick).
  split; [exact H1|]. split; [exact H2 | exact (Htick 1)].
Defined.

(** ** More on the scroll reveal *)

(** X6. The fallback check never hides anything and touches reveal
    elements only: afterwards a reveal element carries [visible] exactly
    when it carried it before or its top is less than the window height
    minus the 100px offset; every other class, and every other element,
    is as before. *)
Theorem handleScrollRevealFallback_marks (w : World) :
  let w' := world_of (handleScrollRevealFallback w) in
  threw (handleScrollRevealFallback w) = false ∧
  (∀ n, n ∈ reveals (elements w) →
     contains "visible" (dom w' n) =
     contains "visible" (dom w n) ||
     (rectTop (window w) n <? innerHeight (window w) - CONFIG.revealOffset)) ∧
  (∀ n, n ∉ reveals (elements w) → dom w' n = dom w n) ∧
  (∀ n c, c ≠ "visible" → contains c (dom w' n) = contains c (dom w n)).
Proof.
  intros w'. subst w'. unfold handleScrollRevealFallback. cbn [world_of threw dom with_dom].
  set (pending := filter _ (reveals (elements w))).
  match goal with |- context [forEach ?f pending] => set (body := f) end.
  assert (Hpending : ∀ n, n ∈ pending ↔
    n ∈ reveals (elements w) ∧ contains "visible" (dom w n) = false)
    by (intros n; unfold pending; rewrite list_elem_of_filter; tauto).
  assert (Hat : ∀ n, forEach body pending (dom w) n =
    if bool_decide (n ∈ pending) then body 0%nat n (dom w n) else dom w n).
  { intros n. unfold forEach. apply forEach_from_uniform; [done|].
    intros e. unfold body. case_match; [|done]. unfold add at 1.
    by rewrite contains_add. }
  split; [done|]. split; [|split].
  - intros n Hn. rewrite Hat. case_bool_decide as Hp.
    + apply Hpending in Hp as [_ Hv]. rewrite Hv. unfold body. cbn [orb].
      case_match; [apply contains_add | done].
    + destruct (contains "visible" (dom w n)) eqn:Hv; [done|].
      destruct Hp. by apply Hpending.
  - intros n Hn. rewrite Hat. rewrite bool_decide_eq_false_2; [done|].
    rewrite Hpending. tauto.
  - intros n c Hc. rewrite Hat. case_bool_decide; [|done].
    unfold body. case_match; [by apply contains_add_ne | done].
Qed.

Lemma reveal_entries_spec (entries : list Entry) (w : World) :
  let w' := foldl reveal_entry w entries in
  (∀ n, n ∈ observed w' ↔ n ∈ observed w ∧ (n, true) ∉ entries) ∧
  ∀ n, dom w' n = if bool_decide ((n, true) ∈ entries)
                  then add "visible" (dom w n) else dom w n.
Proof.
  revert w. induction entries as [|[m b] entries IH]; intros w; cbn [foldl].
  - split.
    + intros n. split; [intros Hn; split; [done|apply not_elem_of_nil] | by intros [? _]].
    + intros n. rewrite bool_decide_eq_false_2; [done|]. apply not_elem_of_nil.
  - destruct (IH (reveal_entry w (m, b))) as [Hobs Hdom]. cbn zeta.
    assert (Hcons : ∀ n, (n, true) ∈ (m, b) :: entries ↔
      (m = n ∧ b = true) ∨ (n, true) ∈ entries).
    { intros n. rewrite elem_of_cons. split.
      - intros [[= -> ->]|Hin]; [by left | by right].
      - intros [[-> ->]|Hin]; [by left | by right]. }
    unfold reveal_entry in Hobs, Hdom. cbn [fst snd] in Hobs, Hdom. split.
    + intros n. rewrite Hobs, Hcons. destruct b; cbn [observed with_observed with_dom].
      * rewrite list_elem_of_filter. split.
        -- intros [[Hne Ho] Hno]. split; [done|]. intros [[-> _]|Hin]; done.
        -- intros [Ho Hno]. split; [split; [|done]|].
           ++ intros ->. apply Hno. by left.
           ++ intros Hin. apply Hno. by right.
      * split.
        -- intros [Ho Hno]. split; [done|]. intros [[_ [=]]|Hin]. done.
        -- intros [Ho Hno]. split; [done|]. intros Hin. apply Hno. by right.
    + intros n. rewrite Hdom. destruct b; cbn [dom with_dom with_observed].
      * destruct (decide (m = n)) as [->|Hne].
        -- rewrite alter_at.
           rewrite (bool_decide_eq_true_2 (_ ∈ (n, true) :: _)) by left.
           case_bool_decide; [|done]. unfold add at 1. by rewrite contains_add.
        -- rewrite alter_other by done.
           apply (f_equal (λ b : bool, if b then _ else _)).
           apply bool_decide_ext. rewrite Hcons. split; [by right|].
           intros [[? _]|?]; done.
      * apply (f_equal (λ b : bool, if b then _ else _)).
        apply bool_decide_ext. rewrite Hcons. split; [by right|].
        intros [[_ [=]]|?]. done.
Qed.

(** X7. One delivery of the reveal observer: every observed target
    reported as intersecting gets [visible] and is no longer observed, so
    the script reveals each element once; targets not so reported keep
    their state; and the observed set only shrinks. *)
Theorem revealObserver_reveals_once (w : World) (entries : list Entry) :
  let w' := world_of (handle (Intersect entries) w) in
  (∀ n, (n, true) ∈ entries → n ∈ observed w →
     contains "visible" (dom w' n) = true ∧ n ∉ observed w') ∧
  (∀ n, (n, true) ∉ entries ∨ n ∉ observed w → dom w' n = dom w n) ∧
  (∀ n, n ∈ observed w' → n ∈ observed w ∧ (n, true) ∉ entries).
Proof.
  intros w'. subst w'. cbn [handle]. unfold revealObserver_callback. cbn [world_of].
  set (es := filter _ entries).
  assert (Hes : ∀ n b, (n, b) ∈ es ↔ (n, b) ∈ entries ∧ n ∈ observed w)
    by (intros n b; unfold es; rewrite list_elem_of_filter; cbn; tauto).
  destruct (reveal_entries_spec es w) as [Hobs Hdom]. cbn zeta in Hobs, Hdom.
  split; [|split].
  - intros n Hn Ho. split.
    + rewrite Hdom, bool_decide_eq_true_2 by (by apply Hes). apply contains_add.
    + rewrite Hobs. intros [_ Hno]. apply Hno. by apply Hes.
  - intros n Hn. rewrite Hdom, bool_decide_eq_false_2; [done|].
    rewrite Hes. tauto.
  - intros n. rewrite Hobs. intros [Ho Hno].
    split; [done|]. intros Hin. apply Hno. by apply Hes.
Qed.

(** ** Back-to-top button and navbar background *)

(** The two halves of [handleBackToTop]: the button, then the ring. *)
Lemma handleBackToTop_button (w : World) (btn : node) :
  backToTopBtn (elements w) = Some btn →
  let show := CONFIG.backToTopThreshold <? scrollY (window w) in
  let appears := show && negb (contains "visible" (dom w btn)) in
  ∃ w0, handleBackToTop w = updateScrollProgress w0 ∧
    elements w0 = elements w ∧ window w0 = window w ∧
    contains "visible" (dom w0 btn) = show ∧
    contains "pulse" (dom w0 btn) =
      contains "pulse" (dom w btn) || (appears && negb (hasShownBackToTop (state w))) ∧
    hasShownBackToTop (state w0) = hasShownBackToTop (state w) || appears ∧
    ∀ n, n ≠ btn → dom w0 n = dom w n.
Proof.
  intros Hbtn show appears. subst appears. unfold handleBackToTop.
  rewrite Hbtn. fold show.
  destruct show eqn:Hshow, (contains "visible" (dom w btn)) eqn:Hvis,
    (hasShownBackToTop (state w)) eqn:Hshown; cbn [andb negb orb bind];
    (eexists; split; [reflexivity|]);
    cbn [world_of threw dom state elements window with_dom with_state
         hasShownBackToTop set_hasShownBackToTop];
    rewrite ?alter_at, ?orb_false_r, ?orb_true_r;
    repeat split; try done;
    try (intros n Hn; by rewrite ?alter_other);
    rewrite ?contains_add, ?contains_remove, ?contains_add_ne, ?contains_remove_ne,
      ?contains_add by done; done.
Qed.

Lemma updateScrollProgress_spec (w : World) :
  let offset :=
    Double.mul CONFIG.progressRingCircumference (Double.sub 1 (getScrollPercent w)) in
  let w' := world_of (updateScrollProgress w) in
  threw (updateScrollProgress w) = false ∧
  state w' = state w ∧
  (∀ n, progressRing (elements w) = Some n →
     dom w' n = set_strokeDashoffset offset (dom w n)) ∧
  (∀ n, progressRing (elements w) ≠ Some n → dom w' n = dom w n).
Proof.
  intros offset w'. subst w'. unfold updateScrollProgress.
  destruct (progressRing (elements w)) as [ring|]; cbn.
  - split; [done|]. split; [done|]. split.
    + intros n [= <-]. by rewrite alter_at.
    + intros n Hn. apply alter_other. congruence.
  - done.
Qed.

(** X8. One run of [handleBackToTop] on a page that has the button: the
    button ends up carrying [visible] exactly when the offset exceeds
    300px; [pulse] is added only when the button becomes visible for the
    first time in the session, which is then recorded in
    [state.hasShownBackToTop]; the progress ring, if the page has one,
    gets the stroke offset 125.6 * (1 - scroll percent), in double
    arithmetic, and keeps everything else; no other element is
    written. *)
Theorem handleBackToTop_visibility (w : World) (btn : node) :
  backToTopBtn (elements w) = Some btn →
  let w' := world_of (handleBackToTop w) in
  let show := CONFIG.backToTopThreshold <? scrollY (window w) in
  let appears := show && negb (contains "visible" (dom w btn)) in
  let offset :=
    Double.mul CONFIG.progressRingCircumference (Double.sub 1 (getScrollPercent w)) in
  threw (handleBackToTop w) = false ∧
  contains "visible" (dom w' btn) = show ∧
  contains "pulse" (dom w' btn) =
    contains "pulse" (dom w btn) || (appears && negb (hasShownBackToTop (state w))) ∧
  hasShownBackToTop (state w') = hasShownBackToTop (state w) || appears ∧
  (∀ ring, progressRing (elements w) = Some ring →
     strokeDashoffset (dom w' ring) = Some offset ∧
     (ring ≠ btn → dom w' ring = set_strokeDashoffset offset (dom w ring))) ∧
  ∀ n, n ≠ btn → progressRing (elements w) ≠ Some n → dom w' n = dom w n.
Proof.
  intros Hbtn w' show appears offset. subst w'.
  destruct (handleBackToTop_button w btn Hbtn)
    as (w0 & -> & He & Hw & Hvis & Hpulse & Hshown & Hframe).
  destruct (updateScrollProgress_spec w0) as (Hthrew & Hstate & Hring & Hother).
  cbn zeta in Hring, Hother. rewrite He in Hring, Hother.
  assert (Hsame : getScrollPercent w0 = getScrollPercent w)
    by (unfold getScrollPercent; by rewrite Hw).
  rewrite Hsame in Hring. fold offset in Hring.
  assert (Hclass : ∀ c n, contains c (dom (world_of (updateScrollProgress w0)) n) =
                          contains c (dom w0 n)).
  { intros c n. destruct (decide (progressRing (elements w) = Some n)) as [E|E].
    - by rewrite (Hring n E).
    - by rewrite (Hother n E). }
  split; [done|]. split; [by rewrite Hclass|]. split; [by rewrite Hclass|].
  split; [by rewrite Hstate|]. split.
  - intros ring Hr. rewrite (Hring ring Hr). split; [done|].
    intros Hne. by rewrite Hframe.
  - intros n Hn Hr. rewrite (Hother n Hr). by apply Hframe.
Qed.

Lemma handleBackToTop_visibility_witness :
  let w := with_window (set_scroll 400 (rectTop sample_window) sample_window) sample in
  let w1 := world_of (handleBackToTop w) in
  let w2 := world_of (handleBackToTop w1) in
  backToTopBtn (elements w) = Some 2%nat ∧
  contains "visible" (dom w1 2%nat) = true ∧
  contains "pulse" (dom w1 2%nat) = true ∧
  hasShownBackToTop (state w1) = true ∧
  hasShownBackToTop (state w2) = true ∧
  strokeDashoffset (dom w1 3%nat) =
    Some (Double.mul (Double.round 125.6) (Double.sub 1 (Double.div 400 2200))).
Proof.
  intros w w1 w2.
  destruct (handleBackToTop_visibility w 2%nat eq_refl) as (_ & Hv & Hp & Hs & Hr & _).
  destruct (handleBackToTop_visibility w1 2%nat eq_refl) as (_ & _ & _ & Hs2 & _).
  split; [reflexivity|]. split; [exact Hv|]. split; [exact Hp|].
  split; [exact Hs|]. split.
  - fold w1 in Hs. fold w2 in Hs2. rewrite Hs2, Hs. reflexivity.
  - etrans; [exact (proj1 (Hr 3%nat eq_refl))|]. vm_compute. reflexivity.
Defined.

Lemma handleBackToTop_no_pulse (w : World) :
  hasShownBackToTop (state w) = true →
  let w' := world_of (handleBackToTop w) in
  hasShownBackToTop (state w') = true ∧
  ∀ n, contains "pulse" (dom w' n) = contains "pulse" (dom w n).
Proof.
  intros Hshown w'. subst w'.
  destruct (backToTop_shape w) as (d & b & E & _ & Hother).
  destruct (backToTopBtn (elements w)) as [btn|] eqn:Hbtn.
  - destruct (handleBackToTop_button w btn Hbtn)
      as (w0 & -> & He & _ & _ & Hpulse & Hs & Hframe).
    destruct (progress_shape w0) as (d' & -> & Hc & _). cbn.
    rewrite Hshown in Hs, Hpulse. cbn in Hs. rewrite andb_false_r, orb_false_r in Hpulse.
    split; [done|]. intros n. rewrite Hc.
    destruct (decide (n = btn)) as [->|Hne]; [done | by rewrite Hframe].
  - unfold handleBackToTop. by rewrite Hbtn.
Qed.

Lemma handle_pulse (ev : Event) (w : World) :
  hasShownBackToTop (state w) = true →
  let w' := world_of (handle ev w) in
  hasShownBackToTop (state w') = true ∧
  ∀ n, contains "pulse" (dom w' n) = true → contains "pulse" (dom w n) = true.
Proof.
  intros Hshown.
  assert (Hstop : ∀ v, let v' := world_of (stopScreenshotAutoplay v) in
    hasShownBackToTop (state v') = hasShownBackToTop (state v) ∧ dom v' = dom v).
  { intros v. by destruct (stop_shape v) as [->|(h & _ & _ & ->)]. }
  assert (Hswitch : ∀ index v, let v' := world_of (switchScreenshotTab index v) in
    hasShownBackToTop (state v') = hasShownBackToTop (state v) ∧
    ∀ n, contains "pulse" (dom v' n) = contains "pulse" (dom v n)).
  { intros index v. destruct (switch_shape index v) as (d & -> & Hd).
    split; [done|]. intros n. by apply Hd. }
  assert (Hsame : hasShownBackToTop (state w) = true ∧
    ∀ n, contains "pulse" (dom w n) = true → contains "pulse" (dom w n) = true) by done.
  assert (Hvia_stop : ∀ v, state v = state w → dom v = dom w →
    let v' := world_of (stopScreenshotAutoplay v) in
    hasShownBackToTop (state v') = true ∧
    ∀ n, contains "pulse" (dom v' n) = true → contains "pulse" (dom w n) = true).
  { intros v Hs Hd v'. subst v'. destruct (Hstop v) as [-> ->]. by rewrite Hs, Hd. }
  assert (Hvia_switch : ∀ index v, state v = state w → dom v = dom w →
    let v' := world_of (switchScreenshotTab index v) in
    hasShownBackToTop (state v') = true ∧
    ∀ n, contains "pulse" (dom v' n) = true → contains "pulse" (dom w n) = true).
  { intros index v Hs Hd v'. subst v'. destruct (Hswitch index v) as [-> Hp].
    rewrite Hs. split; [done|]. intros n. by rewrite Hp, Hd. }
  destruct ev; cbn [handle]; cbn zeta.
  - unfold handleScroll.
    set (w1 := with_window _ w).
    destruct (navbar_shape w1) as (d1 & hid & -> & _ & Hd1). cbn [bind].
    set (w2 := with_state _ _).
    destruct (handleBackToTop_no_pulse w2 Hshown) as [Hs2 Hp2].
    split; [done|]. intros n. rewrite Hp2. cbn. by rewrite Hd1.
  - exact Hsame.
  - case_match; [|exact Hsame]. by apply Hvia_stop.
  - case_match; [|exact Hsame]. by apply Hvia_stop.
  - case_match; [|exact Hsame]. by apply Hvia_stop.
  - case_match; [|exact Hsame]. by apply Hvia_stop.
  - case_match; [|exact Hsame]. unfold touchstart. by apply Hvia_stop.
  - case_match; [|exact Hsame]. unfold touchend, handleSwipe.
    case_match; [exact Hsame|]. by apply Hvia_switch.
  - case_match; [|exact Hsame]. by apply Hvia_switch.
  - case_match; [|exact Hsame]. unfold tab_keydown, deref.
    repeat case_match; try exact Hsame; by apply Hvia_switch.
  - case_match; [|exact Hsame]. unfold autoplay_tick.
    case_match; [exact Hsame|]. by apply Hvia_switch.
  - unfold revealObserver_callback. cbn [world_of].
    match goal with |- context [foldl reveal_entry w ?es] =>
      destruct (reveal_fold es w) as (_ & Hs & _ & _ & _ & Hc & _) end.
    rewrite Hs. split; [done|]. intros n. by rewrite Hc.
  - case_bool_decide as Hb; [|exact Hsame]. unfold pulse_timeout.
    destruct (backToTopBtn (elements w)) as [btn|]; [|done]. cbn.
    split; [done|]. intros n. destruct (decide (btn = n)) as [->|Hne].
    + by rewrite alter_at, contains_remove.
    + by rewrite alter_other.
  - by destruct (start_shape w) as [->|(_ & _ & ->)].
Qed.

(** X9. The attention pulse plays at most once per session: once
    [state.hasShownBackToTop] is set it stays set, and from then on no
    event, scroll or other, puts the class [pulse] on any element. *)
Theorem pulse_at_most_once (w : World) (evs : list Event) :
  hasShownBackToTop (state w) = true →
  hasShownBackToTop (state (run evs w)) = true ∧
  ∀ n, contains "pulse" (dom (run evs w) n) = true → contains "pulse" (dom w n) = true.
Proof.
  revert w. induction evs as [|ev evs IH]; intros w Hshown; [done|].
  cbn [run foldl]. fold (run evs (world_of (handle ev w))).
  destruct (handle_pulse ev w Hshown) as [Hs Hp].
  destruct (IH _ Hs) as [Hs' Hp']. split; [done|].
  intros n Hn. by apply Hp, Hp'.
Qed.

Lemma pulse_at_most_once_witness :
  let tops := rectTop sample_window in
  let w := run [Scroll 400 tops; PulseTimeout] sample in
  hasShownBackToTop (state w) = true ∧
  contains "pulse" (dom w 2%nat) = false ∧
  contains "pulse" (dom (run [Scroll 0 tops; Scroll 900 tops] w) 2%nat) = false.
Proof.
  intros tops w.
  assert (Hshown : hasShownBackToTop (state w) = true) by (vm_compute; reflexivity).
  assert (Hno : contains "pulse" (dom w 2%nat) = false) by (vm_compute; reflexivity).
  split; [exact Hshown|]. split; [exact Hno|].
  destruct (pulse_at_most_once w [Scroll 0 tops; Scroll 900 tops] Hshown) as [_ Hp].
  destruct (contains "pulse" (dom (run [Scroll 0 tops; Scroll 900 tops] w) 2%nat)) eqn:E;
    [|reflexivity].
  rewrite <- Hno. symmetry. apply Hp. exact E.
Defined.

(** X10. One run of [handleNavbarScroll] on a page that has a navbar: the
    navbar carries [scrolled] afterwards exactly when the offset exceeds
    50px; if [state.isNavbarHidden] agreed with the navbar's transform
    before (set exactly when the transform is [translateY(-100%)]), it
    agrees after; and no other element is written. *)
Theorem navbar_scrolled_and_style (w : World) (nav : node) :
  navbar (elements w) = Some nav →
  let w' := world_of (handleNavbarScroll w) in
  let agrees v := isNavbarHidden (state v) = true ↔
                  transform (dom v nav) = "translateY(-100%)" in
  contains "scrolled" (dom w' nav) = (CONFIG.scrollThreshold <? scrollY (window w)) ∧
  (agrees w → agrees w') ∧
  ∀ n, n ≠ nav → dom w' n = dom w n.
Proof.
  intros Hnav w' agrees. subst w' agrees. unfold handleNavbarScroll. rewrite Hnav.
  set (b := CONFIG.scrollThreshold <? scrollY (window w)).
  assert (Hsc : ∀ s, contains "scrolled"
      (alter (set_transform s) nav (alter (toggle "scrolled" b) nav (dom w)) nav) = b).
  { intros s. rewrite !alter_at. exact (contains_toggle "scrolled" b _). }
  assert (Htr : transform (alter (toggle "scrolled" b) nav (dom w) nav) =
                transform (dom w nav))
    by (rewrite alter_at; apply toggle_transform).
  repeat case_match; simplify_eq;
    cbn [world_of dom state with_dom with_state isNavbarHidden set_navbar];
    (split; [first [apply Hsc | rewrite alter_at; apply contains_toggle]|]);
    (split; [|intros n Hn; by rewrite ?alter_other]);
    rewrite ?Htr, ?alter_at; cbn [transform set_transform]; try done;
    intros _; split; done.
Qed.

Lemma navbar_scrolled_and_style_witness :
  let w := with_window (set_scroll 60 (rectTop sample_window) sample_window) sample in
  navbar (elements w) = Some 1%nat ∧
  contains "scrolled" (dom (world_of (handleNavbarScroll w)) 1%nat) = true.
Proof.
  intros w. split; [reflexivity|].
  exact (proj1 (navbar_scrolled_and_style w 1%nat eq_refl)).
Defined.

(** ** Swipes back and forth *)

Lemma swipe_step (w : World) (c sx sy ex ey : Z) :
  gallery_wf w →
  swipe_listening w = true →
  0 <= c < Z.of_nat (length (screenshotTabs (elements w))) →
  getActiveScreenshotIndex w = c →
  CONFIG.swipeThreshold <= Z.abs (sx - ex) →
  Z.abs (sy - ey) <= Z.abs (sx - ex) →
  let N := Z.of_nat (length (screenshotTabs (elements w))) in
  let w' := run [TouchStart sx sy; TouchEnd ex ey] w in
  gallery_wf w' ∧ swipe_listening w' = true ∧ elements w' = elements w ∧
  getActiveScreenshotIndex w' =
    if 0 <? sx - ex then (c + 1) mod N else (c - 1 + N) mod N.
Proof.
  intros Hwf Hlisten Hc Hact Hbig Hhoriz N w'. unfold CONFIG.swipeThreshold in Hbig.
  subst w'. unfold run. cbn [foldl handle]. rewrite Hlisten.
  destruct (touchstart_shape sx sy w) as (Hd1 & He1 & Hx & Hy).
  set (w1 := world_of (touchstart sx sy w)) in *.
  assert (Hl1 : swipe_listening w1 = true) by (unfold swipe_listening; by rewrite He1).
  rewrite Hl1. unfold touchend, handleSwipe.
  set (w2 := with_touch _ w1).
  assert (Hact2 : getActiveScreenshotIndex w2 = c)
    by (rewrite <- Hact; by apply getActive_ext).
  assert (Hwf2 : gallery_wf w2) by (by apply (gallery_wf_ext w)).
  change (touchStartX (touch w2)) with (touchStartX (touch w1)).
  change (touchStartY (touch w2)) with (touchStartY (touch w1)).
  change (touchEndX (touch w2)) with ex. change (touchEndY (touch w2)) with ey.
  change (elements w2) with (elements w1).
  rewrite Hx, Hy, He1, Hact2. fold N. unfold CONFIG.swipeThreshold.
  destruct (Z.ltb_spec (Z.abs (sx - ex)) 50) as [?|_]; [lia|].
  destruct (Z.ltb_spec (Z.abs (sx - ex)) (Z.abs (sy - ey))) as [?|_]; [lia|].
  cbn [orb].
  set (next := if 0 <? sx - ex then Z.rem (c + 1) N else Z.rem (c - 1 + N) N).
  assert (Hnext : 0 <= next < N ∧
    next = if 0 <? sx - ex then (c + 1) mod N else (c - 1 + N) mod N).
  { subst next. destruct (0 <? sx - ex); rewrite Z.rem_mod_nonneg by lia;
      (split; [apply Z.mod_pos_bound; lia | done]). }
  destruct Hnext as [Hr Hn].
  assert (He2 : elements w2 = elements w) by exact He1.
  split; [by apply switch_wf|].
  split; [unfold swipe_listening; by rewrite switch_elements, He2|].
  split; [by rewrite switch_elements|].
  rewrite <- Hn. rewrite <- (Z2Nat.id next) at 1 2 by lia.
  rewrite switch_getActive; [lia|done|].
  rewrite He2. fold N. lia.
Qed.

(** X11. Any dispatched swipe to the left followed by any dispatched
    swipe to the right (and the other way round) brings the gallery back
    to the tab it started from, also across the wraparound, wherever the
    two touches start and however long and slanted they are. *)
Theorem swipe_back_and_forth (w : World) (i : nat)
    (lsx lsy lex ley rsx rsy rex rey : Z) :
  gallery_wf w →
  swipe_listening w = true →
  (i < length (screenshotTabs (elements w)))%nat →
  getActiveScreenshotIndex w = Z.of_nat i →
  CONFIG.swipeThreshold <= lsx - lex → Z.abs (lsy - ley) <= lsx - lex →
  CONFIG.swipeThreshold <= rex - rsx → Z.abs (rsy - rey) <= rex - rsx →
  let left := [TouchStart lsx lsy; TouchEnd lex ley] in
  let right := [TouchStart rsx rsy; TouchEnd rex rey] in
  getActiveScreenshotIndex (run (left ++ right) w) = Z.of_nat i ∧
  getActiveScreenshotIndex (run (right ++ left) w) = Z.of_nat i.
Proof.
  intros Hwf Hlisten Hi Hact Hl Hlv Hr Hrv left right.
  unfold CONFIG.swipeThreshold in Hl, Hr.
  set (N := Z.of_nat (length (screenshotTabs (elements w)))).
  assert (Hrun : ∀ a b, run (a ++ b) w = run b (run a w))
    by (intros a b; unfold run; apply foldl_app).
  assert (Hlbig : CONFIG.swipeThreshold <= Z.abs (lsx - lex))
    by (unfold CONFIG.swipeThreshold; lia).
  assert (Hlflat : Z.abs (lsy - ley) <= Z.abs (lsx - lex)) by lia.
  assert (Hrbig : CONFIG.swipeThreshold <= Z.abs (rsx - rex))
    by (unfold CONFIG.swipeThreshold; lia).
  assert (Hrflat : Z.abs (rsy - rey) <= Z.abs (rsx - rex)) by lia.
  assert (Hc : 0 <= Z.of_nat i < N) by (subst N; lia).
  rewrite !Hrun. split.
  - destruct (swipe_step w (Z.of_nat i) lsx lsy lex ley Hwf Hlisten Hc Hact Hlbig Hlflat)
      as (Hwf1 & Hl1 & He1 & Hg1).
    fold left in Hwf1, Hl1, He1, Hg1.
    destruct (Z.ltb_spec 0 (lsx - lex)); [|lia]. fold N in Hg1.
    pose proof (Z.mod_pos_bound (Z.of_nat i + 1) N ltac:(lia)) as Hb.
    assert (Hc1 : 0 <= (Z.of_nat i + 1) mod N <
                  Z.of_nat (length (screenshotTabs (elements (run left w)))))
      by (rewrite He1; fold N; lia).
    destruct (swipe_step (run left w) _ rsx rsy rex rey Hwf1 Hl1 Hc1 Hg1 Hrbig Hrflat)
      as (_ & _ & _ & Hg2).
    fold right in Hg2. rewrite Hg2, He1. fold N.
    destruct (Z.ltb_spec 0 (rsx - rex)); [lia|].
    destruct (decide (Z.of_nat i + 1 < N)).
    + rewrite (Z.mod_small (Z.of_nat i + 1)) by lia.
      replace (Z.of_nat i + 1 - 1 + N) with (Z.of_nat i + 1 * N) by lia.
      rewrite Z_mod_plus_full. apply Z.mod_small. lia.
    + replace (Z.of_nat i + 1) with N by lia. rewrite Z_mod_same_full.
      rewrite Z.mod_small by lia. lia.
  - destruct (swipe_step w (Z.of_nat i) rsx rsy rex rey Hwf Hlisten Hc Hact Hrbig Hrflat)
      as (Hwf1 & Hl1 & He1 & Hg1).
    fold right in Hwf1, Hl1, He1, Hg1.
    destruct (Z.ltb_spec 0 (rsx - rex)); [lia|]. fold N in Hg1.
    pose proof (Z.mod_pos_bound (Z.of_nat i - 1 + N) N ltac:(lia)) as Hb.
    assert (Hc1 : 0 <= (Z.of_nat i - 1 + N) mod N <
                  Z.of_nat (length (screenshotTabs (elements (run right w)))))
      by (rewrite He1; fold N; lia).
    destruct (swipe_step (run right w) _ lsx lsy lex ley Hwf1 Hl1 Hc1 Hg1 Hlbig Hlflat)
      as (_ & _ & _ & Hg2).
    fold left in Hg2. rewrite Hg2, He1. fold N.
    destruct (Z.ltb_spec 0 (lsx - lex)); [|lia].
    destruct (decide (Z.of_nat i = 0)) as [Hz|Hz].
    + rewrite Hz. replace (0 - 1 + N) with (N - 1) by lia.
      rewrite (Z.mod_small (N - 1)) by lia.
      replace (N - 1 + 1) with N by lia. apply Z_mod_same_full.
    + replace (Z.of_nat i - 1 + N) with (Z.of_nat i - 1 + 1 * N) by lia.
      rewrite Z_mod_plus_full, (Z.mod_small (Z.of_nat i - 1)) by lia.
      replace (Z.of_nat i - 1 + 1) with (Z.of_nat i) by lia. apply Z.mod_small. lia.
Qed.

Lemma swipe_back_and_forth_witness :
  gallery_wf sample ∧ swipe_listening sample = true ∧
  (0 < length (screenshotTabs (elements sample)))%nat ∧
  getActiveScreenshotIndex sample = 0 ∧
  getActiveScreenshotIndex
    (run [TouchStart 200 10; TouchEnd 280 40; TouchStart 300 90; TouchEnd 150 20]
       sample) = 0.
Proof.
  assert (Hl : swipe_listening sample = true) by (vm_compute; reflexivity).
  assert (Hlt : (0 < length (screenshotTabs (elements sample)))%nat) by (cbn; lia).
  assert (Ha : getActiveScreenshotIndex sample = Z.of_nat 0) by (vm_compute; reflexivity).
  split; [exact sample_wf|]. split; [exact Hl|]. split; [exact Hlt|]. split; [exact Ha|].
  refine (proj2 (swipe_back_and_forth sample 0 300 90 150 20 200 10 280 40
                   sample_wf Hl Hlt Ha _ _ _ _));
    unfold CONFIG.swipeThreshold; lia.
Defined.

(** ** Input normalizers *)

Section NormalizerFacts.

Import Normalizer.

Context {A : Type} (throws : A → bool).

Lemma thr_step_ok (s : Throttle A) (ev : ThrottleEvent A) :
  thr_ok s → thr_ok (thr_step throws s ev).
Proof.
  destruct s as [f r inv]. unfold thr_ok. cbn.
  intros [[-> ->]|[-> ->]]; destruct ev as [a|]; cbn.
  - by left.
  - by right.
  - destruct (throws a); cbn; [by right | by left].
  - by right.
Qed.

Lemma thr_run_ok (evs : list (ThrottleEvent A)) (s : Throttle A) :
  thr_ok s → thr_ok (thr_run throws evs s).
Proof.
  revert s. induction evs as [|ev evs IH]; intros s Hs; [done|].
  apply IH. by apply thr_step_ok.
Qed.

Lemma thr_run_invoked (evs : list (ThrottleEvent A)) (s : Throttle A) :
  ∃ l, thr_invoked (thr_run throws evs s) = thr_invoked s ++ l ∧
       l `sublist_of` thr_calls evs.
Proof.
  revert s. induction evs as [|ev evs IH]; intros s.
  - exists []. by rewrite app_nil_r.
  - destruct (IH (thr_step throws s ev)) as (l & Hl & Hsub).
    unfold thr_run in *. cbn [foldl]. rewrite Hl.
    destruct ev as [a|]; cbn [thr_step thr_calls omap].
    + destruct (thr_inThrottle s); [exists l; split; [done|by apply sublist_cons]|].
      destruct (throws a); cbn [thr_invoked]; exists (a :: l);
        (split; [by rewrite <- app_assoc | by apply sublist_skip]).
    + exists l. split; [|done]. by destruct (thr_resets s).
Qed.

Lemma thr_burst_dropped (rest : list A) (s : Throttle A) :
  thr_inThrottle s = true → thr_run throws (map ThrCall rest) s = s.
Proof.
  intros Hs. induction rest as [|a rest IH]; [done|].
  unfold thr_run in *. cbn [map foldl thr_step]. by rewrite Hs.
Qed.

Lemma raf_stuck (evs : list (RafEvent A)) (s : Raf A) :
  raf_ticking s = true → raf_frames s = [] → raf_run throws evs s = s.
Proof.
  intros Ht Hf. induction evs as [|ev evs IH]; [done|].
  unfold raf_run in *. cbn [foldl]. destruct ev; cbn [raf_step]; by rewrite ?Ht, ?Hf.
Qed.

Lemma raf_step_ok (s : Raf A) (ev : RafEvent A) : raf_ok s → raf_ok (raf_step throws s ev).
Proof.
  destruct s as [t fr inv]. unfold raf_ok. cbn.
  intros [->|(a & -> & ->)]; destruct ev as [b|]; cbn.
  - destruct t; cbn; [by left|]. right. by exists b.
  - by left.
  - right. by exists a.
  - by left.
Qed.

Lemma raf_run_ok (evs : list (RafEvent A)) (s : Raf A) :
  raf_ok s → raf_ok (raf_run throws evs s).
Proof.
  revert s. induction evs as [|ev evs IH]; intros s Hs; [done|].
  apply IH. by apply raf_step_ok.
Qed.

Lemma raf_burst_dropped (rest : list A) (s : Raf A) :
  raf_ticking s = true → raf_run throws (map RafCall rest) s = s.
Proof.
  intros Hs. induction rest as [|a rest IH]; [done|].
  unfold raf_run in *. cbn [map foldl raf_step]. by rewrite Hs.
Qed.

Lemma deb_burst (burst : list A) (a : A) (s : Debounce A) :
  deb_run (map DebCall burst ++ [DebCall a]) s =
  {| deb_timer := Some a; deb_invoked := deb_invoked s |}.
Proof.
  revert s. induction burst as [|b burst IH]; intros s; [done|].
  unfold deb_run in *. cbn [map app foldl]. by rewrite IH.
Qed.

End NormalizerFacts.

(** X12. [throttle] is leading-edge. Whatever the calls and timeouts, at
    most one reset timeout is armed, and it is armed exactly while the
    flag is set; the wrapped function is only ever invoked with the
    arguments of calls, in their order; and when the flag is clear, a
    burst of calls invokes it once, with the arguments of the first call
    (provided that invocation returns), the rest of the burst being
    dropped for good. *)
Theorem throttle_leading_edge {A : Type} (throws : A → bool)
    (evs : list (Normalizer.ThrottleEvent A)) :
  let s := Normalizer.thr_run throws evs Normalizer.thr_init in
  (Normalizer.thr_resets s ≤ 1)%nat ∧
  (Normalizer.thr_inThrottle s = true ↔ Normalizer.thr_resets s = 1%nat) ∧
  Normalizer.thr_invoked s `sublist_of` Normalizer.thr_calls evs ∧
  (Normalizer.thr_inThrottle s = false →
   ∀ a rest, throws a = false →
     Normalizer.thr_invoked
       (Normalizer.thr_run throws (map Normalizer.ThrCall (a :: rest)) s) =
     Normalizer.thr_invoked s ++ [a]).
Proof.
  intros s.
  assert (Hok : Normalizer.thr_ok s) by (apply thr_run_ok; by right).
  destruct (thr_run_invoked throws evs Normalizer.thr_init) as (l & Hl & Hsub).
  fold s in Hl. cbn in Hl. split; [|split; [|split]].
  - destruct Hok as [[_ ->]|[_ ->]]; lia.
  - destruct Hok as [[-> ->]|[-> ->]]; split; done.
  - by rewrite Hl.
  - intros Hclear a rest Ha. unfold Normalizer.thr_run at 1. cbn [map foldl].
    fold (Normalizer.thr_run throws (map Normalizer.ThrCall rest)
            (Normalizer.thr_step throws s (Normalizer.ThrCall a))).
    rewrite thr_burst_dropped; cbn; by rewrite Hclear, Ha.
Qed.

(** X13. [rafThrottle] keeps at most one frame requested, and only while
    [ticking] is set. When [ticking] is clear, a burst of calls followed
    by the frame invokes the wrapped function once, with the arguments of
    the first call of the burst. If that invocation throws, [ticking]
    stays set with no frame requested, and from then on no call ever
    reaches the wrapped function again. *)
Theorem rafThrottle_one_frame {A : Type} (throws : A → bool)
    (evs : list (Normalizer.RafEvent A)) :
  let s := Normalizer.raf_run throws evs Normalizer.raf_init in
  (length (Normalizer.raf_frames s) ≤ 1)%nat ∧
  (Normalizer.raf_frames s ≠ [] → Normalizer.raf_ticking s = true) ∧
  (Normalizer.raf_ticking s = false →
   ∀ a rest,
     let s' := Normalizer.raf_run throws
                 (map Normalizer.RafCall (a :: rest) ++ [Normalizer.RafFrame]) s in
     Normalizer.raf_invoked s' = Normalizer.raf_invoked s ++ [a] ∧
     Normalizer.raf_frames s' = [] ∧
     Normalizer.raf_ticking s' = throws a ∧
     (throws a = true → ∀ later, Normalizer.raf_run throws later s' = s')).
Proof.
  intros s.
  assert (Hok : Normalizer.raf_ok s) by (apply raf_run_ok; by left).
  split; [|split].
  - destruct Hok as [->|(a & -> & _)]; cbn; lia.
  - destruct Hok as [->|(a & _ & ->)]; done.
  - intros Hclear a rest s'.
    assert (Hempty : Normalizer.raf_frames s = []).
    { destruct Hok as [?|(b & _ & Ht)]; [done|]. by rewrite Ht in Hclear. }
    assert (Hs' : s' = {| Normalizer.raf_ticking := throws a;
                          Normalizer.raf_frames := [];
                          Normalizer.raf_invoked := Normalizer.raf_invoked s ++ [a] |}).
    { unfold s', Normalizer.raf_run. rewrite foldl_app. cbn [map foldl].
      fold (Normalizer.raf_run throws (map Normalizer.RafCall rest)
              (Normalizer.raf_step throws s (Normalizer.RafCall a))).
      rewrite raf_burst_dropped by (cbn; by rewrite Hclear).
      cbn. rewrite Hclear, Hempty. cbn. by destruct (throws a). }
    rewrite Hs'. cbn. repeat split; try done.
    intros Ha later. apply raf_stuck; cbn; done.
Qed.

(** X14. [debounce] is trailing-edge. A burst of calls followed by the
    timeout invokes the wrapped function exactly once, with the arguments
    of the last call of the burst, and leaves no timeout armed; a timeout
    that a later call has cleared invokes nothing. *)
Theorem debounce_trailing_edge {A : Type} (s : Normalizer.Debounce A)
    (burst : list A) (a : A) :
  let s' := Normalizer.deb_run
              (map Normalizer.DebCall burst ++
               [Normalizer.DebCall a; Normalizer.DebFire]) s in
  Normalizer.deb_invoked s' = Normalizer.deb_invoked s ++ [a] ∧
  Normalizer.deb_timer s' = None ∧
  Normalizer.deb_step s' Normalizer.DebFire = s'.
Proof.
  intros s'.
  assert (Hs' : s' = {| Normalizer.deb_timer := None;
                        Normalizer.deb_invoked := Normalizer.deb_invoked s ++ [a] |}).
  { unfold s'.
    change [Normalizer.DebCall a; Normalizer.DebFire]
      with ([Normalizer.DebCall a] ++ [@Normalizer.DebFire A]).
    rewrite app_assoc. unfold Normalizer.deb_run. rewrite foldl_app.
    fold (Normalizer.deb_run (map Normalizer.DebCall burst ++ [Normalizer.DebCall a]) s).
    by rewrite deb_burst. }
  by rewrite Hs'.
Qed.

(** ** Scroll progress *)

Section ProgressFacts.

Import Progress.
Local Open Scope Q_scope.

Lemma clamp_cases (v lo hi : Q) :
  lo <= hi →
  (v <= lo ∧ clamp v lo hi == lo) ∨
  (lo <= v ∧ v <= hi ∧ clamp v lo hi == v) ∨
  (hi <= v ∧ clamp v lo hi == hi).
Proof.
  intros Hle. unfold clamp.
  destruct (Q.max_spec v lo) as [[H1 E1]|[H1 E1]];
  destruct (Q.min_spec (Qmax v lo) hi) as [[H2 E2]|[H2 E2]];
  rewrite E1 in *; rewrite E2.
  - left. split; [lra|reflexivity].
  - left. split; lra.
  - right. left. repeat split; lra.
  - right. right. split; [lra|reflexivity].
Qed.


Lemma quotient_mono (t t' d : Q) : 0 < d → t <= t' → t / d <= t' / d.
Proof.
  intros Hd Ht. unfold Qdiv. apply Qmult_le_compat_r; [done|].
  by apply Qlt_le_weak, Qinv_lt_0_compat.
Qed.



End ProgressFacts.

Section ProgressTheorems.

Local Open Scope Q_scope.

(** X15. [clamp(value, min, max)] with min <= max returns a number
    between the two, the value itself when that already lies between
    them; with the bounds the wrong way round (max < min) it returns
    max whatever the value. *)
Theorem clamp_within (value lo hi : Q) :
  ((lo <= hi)%Q →
     (lo <= Progress.clamp value lo hi <= hi)%Q ∧
     ((lo <= value <= hi)%Q → (Progress.clamp value lo hi == value)%Q)) ∧
  ((hi < lo)%Q → (Progress.clamp value lo hi == hi)%Q).
Proof.
  split.
  - intros Hle.
    destruct (clamp_cases value lo hi Hle) as [[? E]|[(? & ? & E)|[? E]]];
      rewrite E; (split; [lra|]); intros ?; lra.
  - intros Hlt. unfold Progress.clamp. apply Q.min_r.
    pose proof (Q.le_max_r value lo). lra.
Qed.



End ProgressTheorems.

(** ** Mobile menu *)

Section MenuFacts.

Implicit Types (p : Menu.Page) (d : Dom.t) (n : node) (c : string).

Lemma alter_sets c (g : Element → Element) (b : bool) k d n :
  (∀ e, contains c (g e) = b) → contains c (d n) = b ∨ k = n →
  contains c (alter g k d n) = b.
Proof.
  intros Hg Hn. destruct (decide (k = n)) as [->|Hne].
  - by rewrite alter_at.
  - rewrite alter_other by done. by destruct Hn.
Qed.

Lemma menu_open_spec p menu overlay btn :
  Menu.mobileMenu p = Some menu → Menu.mobileMenuOverlay p = Some overlay →
  Menu.mobileMenuBtn p = Some btn →
  let p' := Menu.openMobileMenu p in
  contains "active" (Menu.document p' menu) = true ∧
  contains "active" (Menu.document p' overlay) = true ∧
  contains "active" (Menu.document p' btn) = true ∧
  getAttribute "aria-expanded" (Menu.document p' btn) = Some "true" ∧
  Menu.overflow p' = "hidden".
Proof.
  intros Hm Ho Hb p'. subst p'. unfold Menu.openMobileMenu. rewrite Hm, Ho, Hb. cbn.
  assert (Hadd : ∀ e, contains "active" (add "active" e) = true)
    by (intros e; apply contains_add).
  repeat split.
  - rewrite alter_keeps by done. apply alter_sets; [done|left].
    apply alter_sets; [done|left]. apply alter_sets; [done|by right].
  - rewrite alter_keeps by done. apply alter_sets; [done|left].
    apply alter_sets; [done|by right].
  - rewrite alter_keeps by done. apply alter_sets; [done|by right].
  - rewrite alter_at. unfold getAttribute, setAttribute. cbn. by rewrite lookup_insert_eq.
Qed.

Lemma menu_close_spec p menu overlay btn :
  Menu.mobileMenu p = Some menu → Menu.mobileMenuOverlay p = Some overlay →
  Menu.mobileMenuBtn p = Some btn →
  let p' := Menu.closeMobileMenu p in
  contains "active" (Menu.document p' menu) = false ∧
  contains "active" (Menu.document p' overlay) = false ∧
  contains "active" (Menu.document p' btn) = false ∧
  getAttribute "aria-expanded" (Menu.document p' btn) = Some "false" ∧
  Menu.overflow p' = "".
Proof.
  intros Hm Ho Hb p'. subst p'. unfold Menu.closeMobileMenu. rewrite Hm, Ho, Hb. cbn.
  assert (Hrem : ∀ e, contains "active" (remove "active" e) = false)
    by (intros e; apply contains_remove).
  repeat split.
  - rewrite alter_keeps by done. apply alter_sets; [done|left].
    apply alter_sets; [done|left]. apply alter_sets; [done|by right].
  - rewrite alter_keeps by done. apply alter_sets; [done|left].
    apply alter_sets; [done|by right].
  - rewrite alter_keeps by done. apply alter_sets; [done|by right].
  - rewrite alter_at. unfold getAttribute, setAttribute. cbn. by rewrite lookup_insert_eq.
Qed.

Lemma menu_open_consistent p : Menu.complete p → Menu.consistent (Menu.openMobileMenu p).
Proof.
  intros (Hm & Ho & Hb).
  destruct (Menu.mobileMenu p) as [menu|] eqn:Em; [|done].
  destruct (Menu.mobileMenuOverlay p) as [overlay|] eqn:Eo; [|done].
  destruct (Menu.mobileMenuBtn p) as [btn|] eqn:Eb; [|done].
  destruct (menu_open_spec p menu overlay btn Em Eo Eb) as (H1 & H2 & H3 & H4 & H5).
  exists menu, overlay, btn.
  assert (Hparts : Menu.mobileMenu (Menu.openMobileMenu p) = Some menu ∧
    Menu.mobileMenuOverlay (Menu.openMobileMenu p) = Some overlay ∧
    Menu.mobileMenuBtn (Menu.openMobileMenu p) = Some btn)
    by (unfold Menu.openMobileMenu; by rewrite Em, Eo, Eb).
  destruct Hparts as (-> & -> & ->). cbn zeta. by rewrite H1, H2, H3, H4, H5.
Qed.

Lemma menu_close_consistent p : Menu.complete p → Menu.consistent (Menu.closeMobileMenu p).
Proof.
  intros (Hm & Ho & Hb).
  destruct (Menu.mobileMenu p) as [menu|] eqn:Em; [|done].
  destruct (Menu.mobileMenuOverlay p) as [overlay|] eqn:Eo; [|done].
  destruct (Menu.mobileMenuBtn p) as [btn|] eqn:Eb; [|done].
  destruct (menu_close_spec p menu overlay btn Em Eo Eb) as (H1 & H2 & H3 & H4 & H5).
  exists menu, overlay, btn.
  assert (Hparts : Menu.mobileMenu (Menu.closeMobileMenu p) = Some menu ∧
    Menu.mobileMenuOverlay (Menu.closeMobileMenu p) = Some overlay ∧
    Menu.mobileMenuBtn (Menu.closeMobileMenu p) = Some btn)
    by (unfold Menu.closeMobileMenu; by rewrite Em, Eo, Eb).
  destruct Hparts as (-> & -> & ->). cbn zeta. by rewrite H1, H2, H3, H4, H5.
Qed.

Lemma menu_consistent_complete p : Menu.consistent p → Menu.complete p.
Proof. intros (m & o & b & Hm & Ho & Hb & _). unfold Menu.complete. by rewrite Hm, Ho, Hb. Qed.

(** [generateParticles] writes the particles, and of the existing
    elements only the text of the container. *)
Lemma generateParticles_frame p :
  let p' := Menu.generateParticles p in
  Menu.mobileMenu p' = Menu.mobileMenu p ∧
  Menu.mobileMenuOverlay p' = Menu.mobileMenuOverlay p ∧
  Menu.mobileMenuBtn p' = Menu.mobileMenuBtn p ∧
  Menu.particlesContainer p' = Menu.particlesContainer p ∧
  Menu.overflow p' = Menu.overflow p ∧
  Menu.width p' = Menu.width p ∧
  (∀ n, classList (Menu.document p' n) = classList (Menu.document p n) ∧
        attributes (Menu.document p' n) = attributes (Menu.document p n)) ∧
  (∀ n, Menu.particlesContainer p ≠ Some n → Menu.document p' n = Menu.document p n).
Proof.
  unfold Menu.generateParticles.
  destruct (Menu.particlesContainer p) as [c|] eqn:Hc; [|done].
  destruct (Menu.reducedMotion p); [done|]. cbn. rewrite Hc.
  repeat split; try done.
  - destruct (decide (c = n)) as [->|Hne]; [by rewrite alter_at | by rewrite alter_other].
  - destruct (decide (c = n)) as [->|Hne]; [by rewrite alter_at | by rewrite alter_other].
  - intros n Hn. apply alter_other. congruence.
Qed.

Lemma generateParticles_consistent p :
  Menu.consistent p → Menu.consistent (Menu.generateParticles p).
Proof.
  destruct (generateParticles_frame p) as (Hm & Ho & Hb & _ & Hov & _ & Hd & _).
  cbn zeta in *. intros (menu & overlay & btn & Em & Eo & Eb & H).
  exists menu, overlay, btn. rewrite Hm, Ho, Hb, Hov.
  split; [done|]. split; [done|]. split; [done|].
  cbn zeta in *. unfold contains, getAttribute in *.
  destruct (Hd menu) as [Hc1 _], (Hd overlay) as [Hc2 _], (Hd btn) as [Hc3 Ha3].
  rewrite Hc1, Hc2, Hc3, Ha3. exact H.
Qed.

Lemma generateParticles_isOpen p :
  Menu.isMobileMenuOpen (Menu.generateParticles p) = Menu.isMobileMenuOpen p.
Proof.
  destruct (generateParticles_frame p) as (Hm & _ & _ & _ & _ & _ & Hd & _).
  cbn zeta in *. unfold Menu.isMobileMenuOpen. rewrite Hm.
  destruct (Menu.mobileMenu p) as [menu|]; [|done].
  unfold contains. by destruct (Hd menu) as [-> _].
Qed.

Lemma menu_handle_consistent p ev :
  Menu.consistent p → Menu.consistent (Menu.handle p ev).
Proof.
  intros Hc. pose proof (menu_consistent_complete p Hc) as Hcomplete.
  pose proof Hcomplete as (Hm & Ho & Hb).
  destruct ev; cbn [Menu.handle].
  - destruct (Menu.mobileMenuBtn p); [|done]. unfold Menu.toggleMobileMenu.
    destruct (Menu.mobileMenu p); [|done].
    case_match; [by apply menu_close_consistent | by apply menu_open_consistent].
  - by apply menu_close_consistent.
  - destruct (Menu.mobileMenuOverlay p); [|done]. by apply menu_close_consistent.
  - by apply menu_close_consistent.
  - unfold Menu.escape. destruct inField; [exact Hc|].
    case_match; [by apply menu_close_consistent | done].
  - unfold Menu.handleResize. apply generateParticles_consistent.
    case_match; [by apply (menu_close_consistent (Menu.with_width w p)) | exact Hc].
  - apply generateParticles_consistent. exact Hc.
Qed.

End MenuFacts.

(** X17. On a page that has the menu, its overlay and its button:
    opening, closing or toggling the menu leaves the three of them in
    step (all active or all inactive, with [aria-expanded] and the body's
    overflow saying the same), whatever state they were in; and once in
    step they stay in step through any sequence of clicks, link
    timeouts, [Escape] keys, resizes and changes of the motion
    preference. *)
Theorem menu_parts_stay_in_step (p : Menu.Page) :
  Menu.complete p →
  Menu.consistent (Menu.openMobileMenu p) ∧
  Menu.consistent (Menu.closeMobileMenu p) ∧
  Menu.consistent (Menu.toggleMobileMenu p) ∧
  (Menu.consistent p → ∀ evs, Menu.consistent (Menu.run evs p)).
Proof.
  intros Hcomplete. split; [by apply menu_open_consistent|].
  split; [by apply menu_close_consistent|]. split.
  - unfold Menu.toggleMobileMenu. pose proof Hcomplete as (Hm & _).
    destruct (Menu.mobileMenu p) eqn:Em; [|done].
    case_match; [by apply menu_close_consistent | by apply menu_open_consistent].
  - intros Hc evs. revert p Hc Hcomplete.
    induction evs as [|ev evs IH]; intros p Hc Hcomplete; [done|].
    cbn [Menu.run foldl]. apply IH.
    + by apply menu_handle_consistent.
    + by apply menu_consistent_complete, menu_handle_consistent.
Qed.

Lemma menu_parts_stay_in_step_witness :
  Menu.complete Menu.sample ∧
  Menu.consistent (Menu.toggleMobileMenu Menu.sample) ∧
  Menu.isMobileMenuOpen (Menu.toggleMobileMenu Menu.sample) = true.
Proof.
  assert (Hc : Menu.complete Menu.sample) by (repeat split; discriminate).
  split; [exact Hc|]. split.
  - exact (proj1 (proj2 (proj2 (menu_parts_stay_in_step Menu.sample Hc)))).
  - vm_compute. reflexivity.
Defined.

(** X18. On a page that has the three parts: after [openMobileMenu] the
    menu is open and after [closeMobileMenu] it is closed;
    [toggleMobileMenu] inverts [isMobileMenuOpen]; [Escape] pressed
    outside a form field leaves the menu closed, pressed in an input, a
    textarea, a select or an editable element it changes nothing; and a
    processed resize closes the menu when the new width is at least the
    900px breakpoint, and below it leaves the overflow and every element
    but the particles container as they were. *)
Theorem menu_open_close_toggle (p : Menu.Page) (w : Z) :
  Menu.complete p →
  Menu.isMobileMenuOpen (Menu.openMobileMenu p) = true ∧
  Menu.isMobileMenuOpen (Menu.closeMobileMenu p) = false ∧
  Menu.isMobileMenuOpen (Menu.toggleMobileMenu p) = negb (Menu.isMobileMenuOpen p) ∧
  Menu.isMobileMenuOpen (Menu.handle p (Menu.KeyEscape false)) = false ∧
  Menu.handle p (Menu.KeyEscape true) = p ∧
  (CONFIG.mobileBreakpoint <= w →
     Menu.isMobileMenuOpen (Menu.handle p (Menu.Resized w)) = false) ∧
  (w < CONFIG.mobileBreakpoint →
     let p' := Menu.handle p (Menu.Resized w) in
     Menu.isMobileMenuOpen p' = Menu.isMobileMenuOpen p ∧
     Menu.overflow p' = Menu.overflow p ∧
     ∀ n, Menu.particlesContainer p ≠ Some n → Menu.document p' n = Menu.document p n).
Proof.
  intros (Hm & Ho & Hb).
  destruct (Menu.mobileMenu p) as [menu|] eqn:Em; [|done].
  destruct (Menu.mobileMenuOverlay p) as [overlay|] eqn:Eo; [|done].
  destruct (Menu.mobileMenuBtn p) as [btn|] eqn:Eb; [|done].
  destruct (menu_open_spec p menu overlay btn Em Eo Eb) as (Hopen & _).
  destruct (menu_close_spec p menu overlay btn Em Eo Eb) as (Hclose & _).
  assert (Hio : Menu.isMobileMenuOpen (Menu.openMobileMenu p) = true).
  { unfold Menu.isMobileMenuOpen.
    replace (Menu.mobileMenu (Menu.openMobileMenu p)) with (Some menu); [done|].
    unfold Menu.openMobileMenu. by rewrite Em, Eo, Eb. }
  assert (Hic : Menu.isMobileMenuOpen (Menu.closeMobileMenu p) = false).
  { unfold Menu.isMobileMenuOpen.
    replace (Menu.mobileMenu (Menu.closeMobileMenu p)) with (Some menu); [done|].
    unfold Menu.closeMobileMenu. by rewrite Em, Eo, Eb. }
  assert (Hnow : Menu.isMobileMenuOpen p = contains "active" (Menu.document p menu))
    by (unfold Menu.isMobileMenuOpen; by rewrite Em).
  split; [done|]. split; [done|]. split; [|split; [|split; [|split]]].
  - unfold Menu.toggleMobileMenu. rewrite Em, Hnow.
    destruct (contains "active" (Menu.document p menu)); cbn; done.
  - cbn [Menu.handle]. unfold Menu.escape.
    destruct (Menu.isMobileMenuOpen p) eqn:E; done.
  - done.
  - intros Hw. cbn [Menu.handle]. unfold Menu.handleResize.
    rewrite generateParticles_isOpen. unfold Menu.isMobile. cbn [Menu.width Menu.with_width].
    destruct (Z.ltb_spec w CONFIG.mobileBreakpoint) as [?|_]; [lia|]. cbn [negb andb].
    set (q := Menu.with_width w p).
    assert (Hq : Menu.isMobileMenuOpen q = Menu.isMobileMenuOpen p) by done.
    destruct (Menu.isMobileMenuOpen q) eqn:E; [|by rewrite E].
    unfold Menu.isMobileMenuOpen.
    replace (Menu.mobileMenu (Menu.closeMobileMenu q)) with (Some menu)
      by (unfold Menu.closeMobileMenu, q; cbn; by rewrite Em, Eo, Eb).
    by destruct (menu_close_spec q menu overlay btn Em Eo Eb) as (-> & _).
  - intros Hw p'. subst p'. cbn [Menu.handle]. unfold Menu.handleResize, Menu.isMobile.
    cbn [Menu.width Menu.with_width].
    destruct (Z.ltb_spec w CONFIG.mobileBreakpoint) as [_|?]; [|lia]. cbn [negb andb].
    destruct (generateParticles_frame (Menu.with_width w p))
      as (_ & _ & _ & _ & Hov & _ & _ & Hd).
    split; [exact (generateParticles_isOpen (Menu.with_width w p))|].
    split; [exact Hov|]. exact Hd.
Qed.

Lemma menu_open_close_toggle_witness :
  Menu.complete Menu.sample ∧
  let opened := Menu.toggleMobileMenu Menu.sample in
  Menu.isMobileMenuOpen opened = true ∧
  Menu.isMobileMenuOpen (Menu.toggleMobileMenu opened) = false ∧
  Menu.isMobileMenuOpen (Menu.handle opened (Menu.KeyEscape true)) = true ∧
  Menu.isMobileMenuOpen (Menu.handle opened (Menu.KeyEscape false)) = false ∧
  Menu.isMobileMenuOpen (Menu.handle opened (Menu.Resized 1280)) = false.
Proof.
  assert (Hc : Menu.complete Menu.sample) by (repeat split; discriminate).
  split; [exact Hc|]. intros opened.
  assert (Hc' : Menu.complete opened) by (repeat split; discriminate).
  destruct (menu_open_close_toggle Menu.sample 0 Hc) as (_ & _ & Htoggle & _).
  destruct (menu_open_close_toggle opened 1280 Hc')
    as (_ & _ & Htoggle' & Hesc & Hfield & Hwide & _).
  split; [exact Htoggle|]. split; [|split; [|split]].
  - rewrite Htoggle'. unfold opened. rewrite Htoggle. reflexivity.
  - rewrite Hfield. exact Htoggle.
  - exact Hesc.
  - apply Hwide. unfold CONFIG.mobileBreakpoint. lia.
Defined.

(** X19. On a page where the overlay or the button is missing, the menu
    functions give up before touching anything: no click, timeout,
    [Escape], resize or change of the motion preference changes the
    body's overflow, a class or an attribute of any element, or anything
    of an element other than the particles container (which the last two
    events empty and refill), so a menu that is marked open there can
    never be closed. *)
Theorem menu_without_parts_is_inert (p : Menu.Page) (evs : list Menu.Event) :
  Menu.mobileMenuOverlay p = None ∨ Menu.mobileMenuBtn p = None →
  (∀ n, Menu.particlesContainer p ≠ Some n →
     Menu.document (Menu.run evs p) n = Menu.document p n) ∧
  (∀ n, classList (Menu.document (Menu.run evs p) n) = classList (Menu.document p n) ∧
        attributes (Menu.document (Menu.run evs p) n) = attributes (Menu.document p n)) ∧
  Menu.overflow (Menu.run evs p) = Menu.overflow p ∧
  Menu.isMobileMenuOpen (Menu.run evs p) = Menu.isMobileMenuOpen p.
Proof.
  intros Hmissing.
  assert (Hopen : ∀ q, Menu.mobileMenuOverlay q = None ∨ Menu.mobileMenuBtn q = None →
    Menu.openMobileMenu q = q).
  { intros q [H|H]; unfold Menu.openMobileMenu; rewrite H; by repeat case_match. }
  assert (Hclose : ∀ q, Menu.mobileMenuOverlay q = None ∨ Menu.mobileMenuBtn q = None →
    Menu.closeMobileMenu q = q).
  { intros q [H|H]; unfold Menu.closeMobileMenu; rewrite H; by repeat case_match. }
  assert (Hstep : ∀ q ev, Menu.mobileMenuOverlay q = None ∨ Menu.mobileMenuBtn q = None →
    let q' := Menu.handle q ev in
    (Menu.mobileMenuOverlay q' = None ∨ Menu.mobileMenuBtn q' = None) ∧
    Menu.particlesContainer q' = Menu.particlesContainer q ∧
    (∀ n, Menu.particlesContainer q ≠ Some n → Menu.document q' n = Menu.document q n) ∧
    (∀ n, classList (Menu.document q' n) = classList (Menu.document q n) ∧
          attributes (Menu.document q' n) = attributes (Menu.document q n)) ∧
    Menu.overflow q' = Menu.overflow q ∧
    Menu.mobileMenu q' = Menu.mobileMenu q).
  { intros q ev Hq.
    assert (Htoggle : Menu.toggleMobileMenu q = q).
    { unfold Menu.toggleMobileMenu. destruct (Menu.mobileMenu q); [|done].
      destruct (contains _ _); [by apply Hclose | by apply Hopen]. }
    assert (Hescape : ∀ inField, Menu.escape inField q = q).
    { intros inField. unfold Menu.escape. destruct inField; [done|].
      destruct (Menu.isMobileMenuOpen q); [by apply Hclose | done]. }
    destruct ev; cbn [Menu.handle]; cbn zeta; rewrite ?Htoggle, ?Hescape, ?Hclose by done.
    - replace (match Menu.mobileMenuBtn q with Some _ => q | None => q end) with q
        by (by destruct (Menu.mobileMenuBtn q)). done.
    - done.
    - replace (match Menu.mobileMenuOverlay q with Some _ => q | None => q end) with q
        by (by destruct (Menu.mobileMenuOverlay q)). done.
    - done.
    - done.
    - unfold Menu.handleResize.
      replace (if negb (Menu.isMobile (Menu.with_width w q)) &&
                  Menu.isMobileMenuOpen (Menu.with_width w q)
               then Menu.closeMobileMenu (Menu.with_width w q)
               else Menu.with_width w q) with (Menu.with_width w q)
        by (destruct (_ && _); [by rewrite Hclose|done]).
      destruct (generateParticles_frame (Menu.with_width w q))
        as (Hm & Ho & Hb & Hc & Hov & _ & Hd & Hn).
      cbn zeta in *. rewrite Ho, Hb, Hc, Hov, Hm. done.
    - destruct (generateParticles_frame (Menu.with_reducedMotion reduced q))
        as (Hm & Ho & Hb & Hc & Hov & _ & Hd & Hn).
      cbn zeta in *. rewrite Ho, Hb, Hc, Hov, Hm. done. }
  revert p Hmissing. induction evs as [|ev evs IH]; intros p Hmissing; [done|].
  cbn [Menu.run foldl].
  destruct (Hstep p ev Hmissing) as (Hq & Hc & Hd & Hcl & Ho & Hm).
  destruct (IH _ Hq) as (Hd' & Hcl' & Ho' & Hi').
  fold (Menu.run evs (Menu.handle p ev)). cbn zeta in *.
  split; [|split; [|split]].
  - intros n Hn. rewrite Hd' by (by rewrite Hc). by apply Hd.
  - intros n. destruct (Hcl' n) as [-> ->]. apply Hcl.
  - by rewrite Ho'.
  - rewrite Hi'. unfold Menu.isMobileMenuOpen. rewrite Hm.
    destruct (Menu.mobileMenu p) as [menu|]; [|done].
    unfold contains. by destruct (Hcl menu) as [-> _].
Qed.

Lemma menu_without_parts_is_inert_witness :
  let p := {| Menu.document := λ _, sample_element ["active"] ∅;
              Menu.mobileMenu := Some 3%nat; Menu.mobileMenuOverlay := None;
              Menu.mobileMenuBtn := Some 5%nat; Menu.overflow := "hidden";
              Menu.width := 600; Menu.reducedMotion := false;
              Menu.particlesContainer := Some 6%nat; Menu.particles := [];
              Menu.random := λ _, 0%Q; Menu.drawn := 0 |} in
  Menu.mobileMenuOverlay p = None ∧
  Menu.isMobileMenuOpen
    (Menu.run [Menu.KeyEscape false; Menu.ClickButton; Menu.Resized 1280] p) = true.
Proof.
  intros p. split; [reflexivity|].
  destruct (menu_without_parts_is_inert p
              [Menu.KeyEscape false; Menu.ClickButton; Menu.Resized 1280]
              (or_introl eq_refl))
    as (_ & _ & _ & Hopen).
  rewrite Hopen. reflexivity.
Defined.

(** ** Dropdown menus *)

Section DropdownFacts.

Implicit Types (p : Dropdown.Page) (it : Dropdown.Item) (n : node).

Lemma remove_twice c (e : Element) : remove c (remove c e) = remove c e.
Proof. exact (toggle_twice c false e). Qed.

Lemma close_all_at p n :
  Dropdown.close_all p n =
  if bool_decide (n ∈ Dropdown.root <$> Dropdown.dropdowns p)
  then remove "open" (Dropdown.document p n) else Dropdown.document p n.
Proof.
  unfold Dropdown.close_all, forEach.
  apply forEach_from_uniform; [done|]. intros e. apply remove_twice.
Qed.

Lemma close_all_closed p it :
  it ∈ Dropdown.dropdowns p → contains "open" (Dropdown.close_all p (Dropdown.root it)) = false.
Proof.
  intros Hin. rewrite close_all_at, bool_decide_eq_true_2.
  - apply contains_remove.
  - apply list_elem_of_fmap. by exists it.
Qed.

Lemma contains_flip c (e : Element) : contains c (Dropdown.flip c e) = negb (contains c e).
Proof.
  unfold Dropdown.flip. destruct (contains c e) eqn:E; cbn.
  - apply contains_remove.
  - apply contains_add.
Qed.

End DropdownFacts.

(** X20. A click on the trigger of a dropdown leaves at most one dropdown
    open: afterwards a dropdown is open exactly when it is the clicked
    one and the clicked one was closed before, so clicking an open
    dropdown closes them all. A click outside every dropdown closes them
    all, a click inside one changes nothing. *)
Theorem dropdown_click_opens_one (p : Dropdown.Page) (it : Dropdown.Item) :
  it ∈ Dropdown.dropdowns p →
  (∀ other, other ∈ Dropdown.dropdowns p →
     Dropdown.is_open (Dropdown.trigger_click it p) other =
     bool_decide (Dropdown.root other = Dropdown.root it) && negb (Dropdown.is_open p it)) ∧
  (∀ other, other ∈ Dropdown.dropdowns p →
     Dropdown.is_open (Dropdown.document_click false p) other = false) ∧
  Dropdown.document_click true p = p.
Proof.
  intros Hit. split; [|split; [|done]].
  - intros other Hother. unfold Dropdown.is_open, Dropdown.trigger_click.
    cbn [Dropdown.document].
    destruct (contains "open" (Dropdown.document p (Dropdown.root it))) eqn:Hwas;
      cbn [negb].
    + rewrite andb_false_r. by apply close_all_closed.
    + rewrite andb_true_r. case_bool_decide as Hroot.
      * rewrite Hroot, alter_at. apply contains_add.
      * rewrite alter_other by done. by apply close_all_closed.
  - intros other Hother. unfold Dropdown.is_open, Dropdown.document_click.
    cbn [Dropdown.document]. by apply close_all_closed.
Qed.

Lemma dropdown_click_opens_one_witness :
  let first := {| Dropdown.root := 100%nat; Dropdown.trigger := Some 110%nat;
                  Dropdown.menu := Some 120%nat; Dropdown.links := [130; 131]%nat |} in
  let second := {| Dropdown.root := 101%nat; Dropdown.trigger := Some 111%nat;
                   Dropdown.menu := Some 121%nat;
                   Dropdown.links := [132; 133; 134]%nat |} in
  first ∈ Dropdown.dropdowns Dropdown.sample ∧
  second ∈ Dropdown.dropdowns Dropdown.sample ∧
  Dropdown.is_open Dropdown.sample second = true ∧
  Dropdown.is_open (Dropdown.trigger_click first Dropdown.sample) first = true ∧
  Dropdown.is_open (Dropdown.trigger_click first Dropdown.sample) second = false ∧
  Dropdown.is_open (Dropdown.trigger_click second Dropdown.sample) second = false.
Proof.
  intros first second.
  assert (H1 : first ∈ Dropdown.dropdowns Dropdown.sample) by (cbn; left).
  assert (H2 : second ∈ Dropdown.dropdowns Dropdown.sample) by (cbn; right; left).
  destruct (dropdown_click_opens_one Dropdown.sample first H1) as (Hf & _).
  destruct (dropdown_click_opens_one Dropdown.sample second H2) as (Hs & _).
  split; [exact H1|]. split; [exact H2|]. split; [vm_compute; reflexivity|].
  split; [|split].
  - rewrite (Hf first H1). vm_compute. reflexivity.
  - rewrite (Hf second H2). vm_compute. reflexivity.
  - rewrite (Hs second H2). vm_compute. reflexivity.
Defined.

(** X21. The keyboard on a trigger acts on its own dropdown only: Enter
    or space inverts whether it is open, ArrowDown opens it, Escape
    closes it, any other key does nothing; and, unlike a click, none of
    them touches any other element, so the others stay as they are. *)
Theorem dropdown_keys_act_locally (p : Dropdown.Page) (it : Dropdown.Item) (key : string) :
  let p' := Dropdown.trigger_keydown key it p in
  Dropdown.is_open p' it =
    (if bool_decide (key = "Enter" ∨ key = " ") then negb (Dropdown.is_open p it)
     else if bool_decide (key = "ArrowDown") then true
     else if bool_decide (key = "Escape") then false
     else Dropdown.is_open p it) ∧
  ∀ n, n ≠ Dropdown.root it → Dropdown.document p' n = Dropdown.document p n.
Proof.
  intros p'. subst p'. unfold Dropdown.trigger_keydown, Dropdown.is_open.
  repeat case_bool_decide; cbn [Dropdown.document]; (split; [|intros n Hn; by rewrite ?alter_other]);
    rewrite ?alter_at; [apply contains_flip | apply contains_add | apply contains_remove | done].
Qed.

(** X22. Arrow keys on the links of a dropdown cycle the focus: from the
    link at index i of a menu with n links, ArrowDown goes to the link at
    (i + 1) mod n and ArrowUp to the one at (i - 1) mod n, and both
    always find a link. *)
Theorem dropdown_links_cycle (links : list node) (index : Z) :
  0 <= index < Z.of_nat (length links) →
  let n := Z.of_nat (length links) in
  Dropdown.next_link links index = item links ((index + 1) mod n) ∧
  Dropdown.prev_link links index = item links ((index - 1) mod n) ∧
  is_Some (Dropdown.next_link links index) ∧
  is_Some (Dropdown.prev_link links index).
Proof.
  intros Hr n.
  assert (Hsome : ∀ k, 0 <= k < n → is_Some (item links k)).
  { intros k Hk. destruct (item links k) eqn:E; [done|].
    apply item_None in E. subst n. lia. }
  assert (Hnext : Dropdown.next_link links index = item links ((index + 1) mod n)).
  { unfold Dropdown.next_link. destruct (decide (index + 1 < n)).
    - rewrite Z.mod_small by lia.
      destruct (Hsome (index + 1)) as [x Hx]; [lia|]. by rewrite Hx.
    - replace (index + 1) with n by lia. rewrite Z_mod_same_full.
      rewrite (proj2 (item_None links n)); [done|]. subst n. lia. }
  assert (Hprev : Dropdown.prev_link links index = item links ((index - 1) mod n)).
  { unfold Dropdown.prev_link. destruct (decide (index = 0)) as [->|].
    - rewrite (proj2 (item_None links (0 - 1))) by lia. fold n. f_equal.
      replace (0 - 1) with (n - 1 + (-1) * n) by lia.
      rewrite Z_mod_plus_full. symmetry. apply Z.mod_small. lia.
    - rewrite Z.mod_small by lia.
      destruct (Hsome (index - 1)) as [x Hx]; [lia|]. by rewrite Hx. }
  split; [done|]. split; [done|]. rewrite Hnext, Hprev.
  split; apply Hsome; apply Z.mod_pos_bound; lia.
Qed.

Lemma dropdown_links_cycle_witness :
  0 <= 2 < Z.of_nat (length [132; 133; 134]%nat) ∧
  Dropdown.next_link [132; 133; 134]%nat 2 = Some 132%nat ∧
  Dropdown.prev_link [132; 133; 134]%nat 0 = Some 134%nat.
Proof.
  split; [cbn; lia|].
  destruct (dropdown_links_cycle [132; 133; 134]%nat 2 ltac:(cbn; lia)) as (Hn & _).
  destruct (dropdown_links_cycle [132; 133; 134]%nat 0 ltac:(cbn; lia)) as (_ & Hp & _).
  split; [exact Hn | exact Hp].
Defined.

(** ** Active section highlighting *)

Section SectionFacts.

Implicit Types (w : World) (n : node) (entries : list Entry).

Lemma highlight_twice id i j n m (e : Element) :
  highlight id i n (highlight id j m e) = highlight id j m e.
Proof.
  unfold highlight, getAttribute. rewrite toggle_attributes. apply toggle_twice.
Qed.

Lemma section_entry_frame w (entry : Entry) :
  elements (section_entry w entry) = elements w ∧
  (∀ n, attributes (dom (section_entry w entry) n) = attributes (dom w n)) ∧
  (∀ n, n ∉ navLinks (elements w) → dom (section_entry w entry) n = dom w n).
Proof.
  unfold section_entry. destruct entry.2; [|done]. cbn. split; [done|]. split.
  - intros n. unfold forEach.
    apply (forEach_from_preserves (λ e, attributes e = attributes (dom w n))); [|done].
    intros i m e <-. apply toggle_attributes.
  - intros n Hn. by apply forEach_other.
Qed.

Lemma section_fold_frame entries w :
  elements (foldl section_entry w entries) = elements w ∧
  (∀ n, attributes (dom (foldl section_entry w entries) n) = attributes (dom w n)) ∧
  (∀ n, n ∉ navLinks (elements w) → dom (foldl section_entry w entries) n = dom w n).
Proof.
  revert w. induction entries as [|entry entries IH]; intros w; [done|].
  cbn [foldl]. destruct (IH (section_entry w entry)) as (He & Ha & Hd).
  destruct (section_entry_frame w entry) as (He' & Ha' & Hd').
  rewrite He, He'. split; [done|]. split.
  - intros n. by rewrite Ha, Ha'.
  - intros n Hn. rewrite Hd by (by rewrite He'). by apply Hd'.
Qed.

End SectionFacts.

(** X23. One delivery of the section observer: if no entry is
    intersecting the document is left as it was; otherwise a navigation
    link ends up active exactly when its [href] is "#" followed by the
    [id] of the last section reported as intersecting, whatever the
    earlier entries and the links' previous state. No attribute is
    written, and no element other than the links is touched. *)
Theorem sectionObserver_highlights_last (w : World) (entries : list Entry) :
  let w' := world_of (sectionObserver_callback entries w) in
  match last_intersecting entries with
  | None => w' = w
  | Some entry =>
      ∀ link, link ∈ navLinks (elements w) →
        contains "active" (dom w' link) =
        bool_decide (getAttribute "href" (dom w link) =
                     Some (hash (getAttribute "id" (dom w entry.1))))
  end ∧
  (∀ n, attributes (dom w' n) = attributes (dom w n)) ∧
  (∀ n, n ∉ navLinks (elements w) → dom w' n = dom w n).
Proof.
  intros w'. subst w'. unfold sectionObserver_callback. cbn [world_of].
  split; [|apply section_fold_frame].
  induction entries as [|entry entries IH] using rev_ind; [done|].
  unfold last_intersecting in *. rewrite filter_app, foldl_app. cbn [foldl].
  destruct (section_fold_frame entries w) as (He & Ha & _).
  set (w1 := foldl section_entry w entries) in *.
  destruct entry as [target b]. destruct b.
  - rewrite filter_cons_True, filter_nil by done. rewrite last_snoc.
    intros link Hlink. unfold section_entry. cbn [fst snd dom with_dom].
    rewrite He. unfold forEach.
    rewrite (forEach_from_uniform _ (highlight (getAttribute "id" (dom w1 target)) 0%nat link));
      [|done|intros e; apply highlight_twice].
    rewrite (bool_decide_eq_true_2 (link ∈ _)) by done.
    etrans; [exact (contains_toggle "active" _ _)|].
    apply bool_decide_ext. unfold getAttribute. by rewrite (Ha link), (Ha target).
  - rewrite filter_cons_False, filter_nil by done. rewrite app_nil_r. exact IH.
Qed.

Lemma sectionObserver_highlights_last_witness :
  let d : Dom.t := λ n,
    if bool_decide (n = 60)%nat then setAttribute "id" "features" (sample_element [] ∅)
    else if bool_decide (n = 61)%nat then setAttribute "id" "download" (sample_element [] ∅)
    else if bool_decide (n = 70)%nat then
      setAttribute "href" "#features" (sample_element ["active"] ∅)
    else if bool_decide (n = 71)%nat then
      setAttribute "href" "#download" (sample_element [] ∅)
    else sample_element [] ∅ in
  let w := with_dom d sample in
  let w' := world_of (sectionObserver_callback
                        [(60%nat, true); (61%nat, true); (60%nat, false)] w) in
  contains "active" (dom w' 70%nat) = false ∧
  contains "active" (dom w' 71%nat) = true.
Proof.
  intros d w w'.
  destruct (sectionObserver_highlights_last w
              [(60%nat, true); (61%nat, true); (60%nat, false)]) as (Hlast & _).
  assert (H70 : 70%nat ∈ navLinks (elements w)) by (cbn; left).
  assert (H71 : 71%nat ∈ navLinks (elements w)) by (cbn; right; left).
  split.
  - etrans; [exact (Hlast 70%nat H70)|]. vm_compute. reflexivity.
  - etrans; [exact (Hlast 71%nat H71)|]. vm_compute. reflexivity.
Defined.

(** ** The two versions of the tab click *)

(** X24. On a tab that has a non-empty [data-tab], the click listener of
    version 2.0.0 leaves the document exactly as [switchScreenshotTab]
    does for the index of that tab; on a tab without [data-tab] (or with
    an empty one) the old listener changes nothing. *)
Theorem tab_click_v2_agrees (w : World) (i : nat) (tab : node) :
  NoDup (screenshotTabs (elements w)) →
  screenshotTabs (elements w) !! i = Some tab →
  let target := dataset (dom w tab) !! "tab" in
  (target ≠ None → target ≠ Some "" →
     ∀ n, dom (world_of (tab_click_v2 tab w)) n =
          dom (world_of (switchScreenshotTab (Z.of_nat i) w)) n) ∧
  (target = None ∨ target = Some "" → tab_click_v2 tab w = Normal w).
Proof.
  intros Hnd Hi target. split.
  - intros Hsome Hnonempty n. unfold tab_click_v2, switchScreenshotTab. fold target.
    rewrite bool_decide_eq_false_2 by (intros [?|?]; done).
    assert (Hitem : item (screenshotTabs (elements w)) (Z.of_nat i) = Some tab).
    { apply item_Some. rewrite Nat2Z.id. split; [lia|done]. }
    rewrite bool_decide_eq_false_2
      by (apply lookup_lt_Some in Hi; intros Hz; rewrite Hz in Hi; lia).
    rewrite Hitem, bool_decide_eq_false_2 by done. cbn [deref]. fold target.
    set (d1 := forEach (mark_tab_v2 tab) _ (dom w)).
    set (d1' := forEach (mark_tab (Z.of_nat i)) _ (dom w)).
    assert (Hd1 : ∀ m, d1 m = d1' m).
    { intros m. subst d1 d1'.
      destruct (decide (m ∈ screenshotTabs (elements w))) as [Hin|Hout].
      - apply list_elem_of_lookup in Hin as [j Hj].
        rewrite (forEach_at _ _ _ m j), (forEach_at _ _ _ m j) by done.
        unfold mark_tab_v2, mark_tab.
        assert (Hsel : bool_decide (m = tab) = (Z.of_nat j =? Z.of_nat i)).
        { destruct (Z.eqb_spec (Z.of_nat j) (Z.of_nat i)) as [Heq|Hne].
          - apply bool_decide_eq_true_2. apply Nat2Z.inj in Heq. subst j. congruence.
          - apply bool_decide_eq_false_2. intros ->. apply Hne. f_equal.
            by apply (NoDup_lookup _ j i tab Hnd). }
        by rewrite Hsel.
      - by rewrite !forEach_other. }
    assert (Hd2 : ∀ m,
      forEach (mark_screenshot target) (screenshots (elements w)) d1 m =
      forEach (mark_screenshot target) (screenshots (elements w)) d1' m).
    { intros m. unfold forEach. apply forEach_from_agree, Hd1. }
    destruct (screenshotCaption (elements w)) as [cap|]; [|apply Hd2].
    destruct (target ≫= _) as [text|]; [|apply Hd2]. cbn.
    destruct (decide (cap = n)) as [->|Hne].
    + by rewrite !alter_at, Hd2.
    + rewrite !alter_other by done. apply Hd2.
  - intros Hnone. unfold tab_click_v2. fold target. by rewrite bool_decide_eq_true_2.
Qed.

Lemma tab_click_v2_agrees_witness :
  NoDup (screenshotTabs (elements sample)) ∧
  screenshotTabs (elements sample) !! 5%nat = Some 15%nat ∧
  dom (world_of (tab_click_v2 15%nat sample)) 15%nat =
  dom (world_of (switchScreenshotTab 5 sample)) 15%nat.
Proof.
  assert (Hnd : NoDup (screenshotTabs (elements sample))) by apply sample_wf.
  split; [exact Hnd|]. split; [reflexivity|].
  apply (proj1 (tab_click_v2_agrees sample 5 15%nat Hnd eq_refl)).
  - vm_compute. discriminate.
  - vm_compute. discriminate.
Defined.

Section ClampWitness.

Local Open Scope Q_scope.

Lemma clamp_within_witness :
  0 <= 1 ∧ Progress.clamp 1.7 0 1 == 1 ∧ Progress.clamp 0.25 0 1 == 0.25 ∧
  Progress.clamp 5 1 0 == 0.
Proof.
  destruct (clamp_within 0.25 0 1) as [Hin _].
  destruct (clamp_within 5 1 0) as [_ Hout].
  split; [discriminate|]. split; [vm_compute; reflexivity|].
  split; [apply (Hin ltac:(discriminate)); split; discriminate|].
  apply Hout. reflexivity.
Defined.

End ClampWitness.

(** ** The progress ring, in doubles *)

Section RingFacts.

Local Open Scope Q_scope.

Lemma clamp_mono (v v' : Q) :
  v <= v' → Progress.clamp v 0 1 <= Progress.clamp v' 0 1.
Proof.
  intros Hle.
  destruct (clamp_cases v 0 1) as [[? ->]|[(? & ? & ->)|[? ->]]]; [lra| | |];
  destruct (clamp_cases v' 0 1) as [[? ->]|[(? & ? & ->)|[? ->]]]; lra.
Qed.

Lemma clamp_unit (v : Q) : 0 <= Progress.clamp v 0 1 <= 1.
Proof.
  destruct (clamp_cases v 0 1) as [[? ->]|[(? & ? & ->)|[? ->]]]; lra.
Qed.

Lemma circumference_is_double :
  Double.round CONFIG.progressRingCircumference = CONFIG.progressRingCircumference.
Proof. vm_compute. reflexivity. Qed.

Lemma circumference_pos : 0 < CONFIG.progressRingCircumference.
Proof. vm_compute. reflexivity. Qed.

Lemma getScrollPercent_range (w : World) : 0 <= getScrollPercent w <= 1.
Proof. unfold getScrollPercent. destruct (Qlt_le_dec 0 _); [apply clamp_unit | lra]. Qed.

Lemma getScrollPercent_mono (w : World) (y : Z) (tops : node → Z) :
  (scrollY (window w) <= y)%Z →
  getScrollPercent w <=
  getScrollPercent (with_window (set_scroll y tops (window w)) w).
Proof.
  intros Hy. unfold getScrollPercent.
  cbn [window with_window set_scroll scrollY scrollHeight innerHeight].
  set (d := Double.sub _ _).
  destruct (Qlt_le_dec 0 d) as [Hd|Hd]; [|lra].
  apply clamp_mono, round_le. apply quotient_mono; [done|]. by rewrite <- Zle_Qle.
Qed.

End RingFacts.

Section RingTheorems.

Local Open Scope Q_scope.

(** X25. What [updateScrollProgress] writes to the ring, with every
    operation rounded as the script's doubles are: the offset lies
    between 0 and the circumference and does not increase as the page is
    scrolled down; it is the full circumference at the top of the page
    (and on a page too short to scroll), and 0 once the offset reaches
    the scrollable height. *)
Theorem updateScrollProgress_range (w : World) (ring : node) :
  progressRing (elements w) = Some ring →
  let full := CONFIG.progressRingCircumference in
  let offset v := Double.mul full (Double.sub 1 (getScrollPercent v)) in
  let docHeight :=
    Double.sub (inject_Z (scrollHeight (window w))) (inject_Z (innerHeight (window w))) in
  strokeDashoffset (dom (world_of (updateScrollProgress w)) ring) = Some (offset w) ∧
  0 <= offset w <= full ∧
  ((scrollY (window w) <= 0)%Z → offset w = full) ∧
  (docHeight <= 0 → offset w = full) ∧
  (0 < docHeight → docHeight <= inject_Z (scrollY (window w)) → offset w = 0) ∧
  ∀ y tops, (scrollY (window w) <= y)%Z →
    offset (with_window (set_scroll y tops (window w)) w) <= offset w.
Proof.
  intros Hring full offset docHeight.
  pose proof circumference_pos as Hpos. fold full in Hpos.
  pose proof circumference_is_double as Hfull. fold full in Hfull.
  assert (Hat : ∀ sp, sp == 0 → Double.mul full (Double.sub 1 sp) = full).
  { intros sp E. unfold Double.mul, Double.sub.
    rewrite (round_comp (1 - sp) 1) by lra. rewrite round_1.
    rewrite (round_comp (full * 1) full) by lra. exact Hfull. }
  assert (Hend : ∀ sp, sp == 1 → Double.mul full (Double.sub 1 sp) = 0).
  { intros sp E. unfold Double.mul, Double.sub.
    rewrite (round_comp (1 - sp) 0) by lra. rewrite round_0.
    rewrite (round_comp (full * 0) 0) by lra. exact round_0. }
  assert (Hmono : ∀ sp sp', sp <= sp' →
    Double.mul full (Double.sub 1 sp') <= Double.mul full (Double.sub 1 sp)).
  { intros sp sp' Hle. apply round_le.
    pose proof (complement_mono sp sp' Hle). nra. }
  split; [|split; [|split; [|split; [|split]]]].
  - destruct (updateScrollProgress_spec w) as (_ & _ & Hw & _).
    by rewrite (Hw ring Hring).
  - destruct (getScrollPercent_range w) as [H0 H1].
    destruct (complement_range _ H0 H1) as [Hc0 Hc1]. unfold offset, Double.mul. split.
    + apply round_nonneg. nra.
    + apply round_le_double; [done|nra].
  - intros Htop. apply Hat. unfold getScrollPercent. fold docHeight.
    destruct (Qlt_le_dec 0 docHeight) as [Hd|Hd]; [|reflexivity].
    assert (Hq : Double.div (inject_Z (scrollY (window w))) docHeight <= 0).
    { rewrite <- round_0. apply round_le. apply Qle_shift_div_r; [done|].
      rewrite Zle_Qle in Htop. change (inject_Z 0) with 0 in Htop. lra. }
    destruct (clamp_cases (Double.div (inject_Z (scrollY (window w))) docHeight) 0 1)
      as [[? E]|[(? & ? & E)|[? E]]]; [lra| | |]; rewrite E; lra.
  - intros Hshort. apply Hat. unfold getScrollPercent. fold docHeight.
    destruct (Qlt_le_dec 0 docHeight) as [Hd|Hd]; [lra|reflexivity].
  - intros Hd Hbottom. apply Hend. unfold getScrollPercent. fold docHeight.
    destruct (Qlt_le_dec 0 docHeight) as [_|?]; [|lra].
    assert (Hq : 1 <= Double.div (inject_Z (scrollY (window w))) docHeight).
    { apply round_ge_1. apply Qle_shift_div_l; [done|]. lra. }
    destruct (clamp_cases (Double.div (inject_Z (scrollY (window w))) docHeight) 0 1)
      as [[? E]|[(? & ? & E)|[? E]]]; [lra| | |]; rewrite E; lra.
  - intros y tops Hy. apply Hmono. by apply getScrollPercent_mono.
Qed.

Lemma updateScrollProgress_range_witness :
  let at_ y := with_window (set_scroll y (rectTop sample_window) sample_window) sample in
  let written v := strokeDashoffset (dom (world_of (updateScrollProgress v)) 3%nat) in
  progressRing (elements sample) = Some 3%nat ∧
  written (at_ 0%Z) = Some CONFIG.progressRingCircumference ∧
  written (at_ 2200%Z) = Some 0 ∧
  written (at_ 1100%Z) = Some (Double.round 62.8).
Proof.
  intros at_ written.
  destruct (updateScrollProgress_range (at_ 0%Z) 3%nat eq_refl) as (Hw0 & _ & Htop & _).
  destruct (updateScrollProgress_range (at_ 2200%Z) 3%nat eq_refl)
    as (Hw1 & _ & _ & _ & Hbottom & _).
  split; [reflexivity|]. split; [|split].
  - unfold written. rewrite Hw0. apply (f_equal Some), Htop. reflexivity.
  - unfold written. rewrite Hw1. apply (f_equal Some), Hbottom;
      vm_compute; [reflexivity|discriminate].
  - vm_compute. reflexivity.
Defined.

End RingTheorems.

(** ** Particles *)

Section ParticleFacts.

Local Open Scope Q_scope.

Lemma particle_range (rnd : nat → Q) (base i : nat) :
  (∀ k, 0 <= rnd k ∧ rnd k < 1) →
  let q := Menu.particle rnd base i in
  0 <= Menu.leftPercent q <= 100 ∧
  0 <= Menu.animationDelay q <= 20 ∧
  15 <= Menu.animationDuration q <= 30.
Proof.
  intros Hrnd q. subst q. unfold Menu.particle.
  cbn [Menu.leftPercent Menu.animationDelay Menu.animationDuration].
  assert (E100 : Double.round 100 = 100) by (vm_compute; reflexivity).
  assert (E20 : Double.round 20 = 20) by (vm_compute; reflexivity).
  assert (E15 : Double.round 15 = 15) by (vm_compute; reflexivity).
  assert (E30 : Double.round 30 = 30) by (vm_compute; reflexivity).
  pose proof (Hrnd (base + 4 * i + 0)%nat) as [H0 H0'].
  pose proof (Hrnd (base + 4 * i + 1)%nat) as [H1 H1'].
  pose proof (Hrnd (base + 4 * i + 2)%nat) as [H2 H2'].
  unfold Double.mul, Double.add. repeat split.
  - apply round_nonneg. lra.
  - apply round_le_double; [done|lra].
  - apply round_nonneg. lra.
  - apply round_le_double; [done|lra].
  - apply round_ge_double; [done|].
    assert (0 <= Double.round (rnd (base + 4 * i + 2)%nat * 15))
      by (apply round_nonneg; lra). lra.
  - apply round_le_double; [done|].
    assert (Double.round (rnd (base + 4 * i + 2)%nat * 15) <= 15)
      by (apply round_le_double; [done|lra]). lra.
Qed.

End ParticleFacts.

(** X26. [generateParticles] replaces the particles, it does not add to
    them: on a page with the container and without reduced motion the
    container ends up with exactly 15 particles on a phone and 30
    otherwise, whatever it held, built from four random numbers each;
    with [Math.random] in [0, 1) every particle sits between 0% and 100%
    with a delay of at most 20s and a duration between 15s and 30s. With
    reduced motion, or without a container, nothing changes: particles
    generated earlier stay. *)
Theorem generateParticles_replaces (p : Menu.Page) :
  let p' := Menu.generateParticles p in
  (Menu.particlesContainer p = None ∨ Menu.reducedMotion p = true → p' = p) ∧
  (Menu.particlesContainer p ≠ None → Menu.reducedMotion p = false →
     length (Menu.particles p') =
       (if Menu.isMobile p then 15 else 30)%nat ∧
     Menu.drawn p' = (Menu.drawn p + 4 * length (Menu.particles p'))%nat ∧
     ((∀ k, (0 <= Menu.random p k)%Q ∧ (Menu.random p k < 1)%Q) →
      ∀ q, q ∈ Menu.particles p' →
        (0 <= Menu.leftPercent q <= 100)%Q ∧
        (0 <= Menu.animationDelay q <= 20)%Q ∧
        (15 <= Menu.animationDuration q <= 30)%Q)).
Proof.
  intros p'. subst p'. unfold Menu.generateParticles. split.
  - intros [H|H].
    + by rewrite H.
    + rewrite H. by destruct (Menu.particlesContainer p).
  - intros Hc Hm. destruct (Menu.particlesContainer p) as [c|]; [|done]. rewrite Hm.
    cbn [Menu.particles Menu.drawn Menu.with_particles].
    rewrite length_fmap, length_seq.
    unfold CONFIG.particleCount_mobile, CONFIG.particleCount_desktop.
    split; [by destruct (Menu.isMobile p)|]. split; [done|].
    intros Hrnd q Hq. apply list_elem_of_fmap in Hq as (i & -> & _).
    by apply particle_range.
Qed.

Lemma generateParticles_replaces_witness :
  let p1 := Menu.run [Menu.Resized 1280; Menu.Resized 1000] Menu.sample in
  let p2 := Menu.run [Menu.MotionChanged true; Menu.Resized 600] p1 in
  Menu.particlesContainer Menu.sample ≠ None ∧
  Menu.reducedMotion Menu.sample = false ∧
  length (Menu.particles (Menu.generateParticles Menu.sample)) = 15%nat ∧
  length (Menu.particles p1) = 30%nat ∧
  Menu.drawn p1 = 240%nat ∧
  Menu.particles p2 = Menu.particles p1.
Proof.
  intros p1 p2.
  assert (Hc : Menu.particlesContainer Menu.sample ≠ None) by discriminate.
  destruct (generateParticles_replaces Menu.sample) as [_ Hgen].
  destruct (Hgen Hc eq_refl) as (Hlen & _).
  split; [exact Hc|]. split; [reflexivity|]. split; [exact Hlen|].
  split; [vm_compute; reflexivity|]. split; vm_compute; reflexivity.
Defined.

(** ** Image load states *)

(** X27. [initImageLoadHandlers] marks the images that have finished
    loading and nothing else: afterwards an image of the hero or of the
    gallery carries [loaded] exactly when it carried it before or is
    complete; no other class changes, and no other element. *)
Theorem initImageLoadHandlers_marks (w : World) :
  let w' := world_of (initImageLoadHandlers w) in
  let images := heroImages (elements w) ++ screenshots (elements w) in
  threw (initImageLoadHandlers w) = false ∧
  (∀ n, n ∈ images →
     contains "loaded" (dom w' n) =
     contains "loaded" (dom w n) || complete (window w) n) ∧
  (∀ n, n ∉ images → dom w' n = dom w n) ∧
  (∀ n c, c ≠ "loaded" → contains c (dom w' n) = contains c (dom w n)).
Proof.
  intros w' images. subst w'. unfold initImageLoadHandlers. fold images.
  cbn [world_of threw dom with_dom].
  match goal with |- context [forEach ?f images] => set (body := f) end.
  assert (Hat : ∀ n, forEach body images (dom w) n =
    if bool_decide (n ∈ images) then body 0%nat n (dom w n) else dom w n).
  { intros n. unfold forEach. apply forEach_from_uniform; [done|].
    intros e. unfold body. case_match; [|done]. unfold add at 1.
    by rewrite contains_add. }
  split; [done|]. split; [|split].
  - intros n Hn. rewrite Hat, bool_decide_eq_true_2 by done. unfold body.
    destruct (complete (window w) n).
    + rewrite contains_add. by rewrite orb_true_r.
    + by rewrite orb_false_r.
  - intros n Hn. by rewrite Hat, bool_decide_eq_false_2.
  - intros n c Hc. rewrite Hat. case_bool_decide; [|done].
    unfold body. case_match; [by apply contains_add_ne | done].
Qed.
